(** * FracND: sliding-window box counting and lacunarity

    A shallow embedding of [fracnd.py]: the [FracND] estimator
    ([Worker], [sliding_window_statistics], [linear_fit], [__call__],
    [lacunarity_statistics]) and the helpers [greyscale_to_binary],
    [crop_segmentation] and [crop_image]; and of the array part of
    [fractal_analysis/analyzer.py]: [FractalConfig], [validate_fracnd],
    [load_and_prepare_segmentation], [analyze_segmentation_fractal_dimension]
    and [analyze_intensity_lacunarity].

    Conventions of the embedding.
    - An n-dimensional numpy array is a record of its number of axes, its
      [shape] and its items as lists nested [ndim] deep (C order).
    - float64 values are idealised as exact rationals ([Q]); the values that
      numpy produces on a division by zero are the extra constructors of
      [fvalue].  Rounding, overflow and underflow are not modelled: where
      float64 rounds, a number computed here can differ from the one of the
      code, as [int(N * norm)] does when [norm] is not a dyadic fraction, or
      a floored sample of [np.logspace] whose exponent is a whole number.
      Python [int] is [Z]; numpy [int64] reductions wrap around.
    - A Python exception is the [Raise] constructor of [Result].
    - The numpy routines whose results are not rational computations (the
      random generator, the [auto] bin rule of [np.histogram], the least
      squares fit of [np.polyfit] on logarithms) are the fields of the class
      [Numpy]; the rounded square root of [np.std] is the field of the class
      [Sqrt].
    - Files, plots and logging are left out: the analysis functions take the
      arrays that nibabel loads and are modelled for calls that write no
      plot. *)

From Stdlib Require Import List ZArith QArith Qminmax Qround Qreduction Lia Lqa
  Bool Arith Morphisms Sorted.
From Stdlib Require Strings.String.
Import String.StringSyntax.
Delimit Scope string_scope with string.
Import ListNotations.

(* ================================================================== *)
(** * Python values *)

Inductive exn : Type :=
| EmptyInputError     (* ValueError("The input array is empty. ...") of __call__ *)
| ValueError
| IndexError
| ZeroDivisionError
| OverflowError
| LinAlgError
| AttributeError.

Inductive Result (A : Type) : Type :=
| Ok (a : A)
| Raise (e : exn).

Arguments Ok {A} a.
Arguments Raise {A} e.

Definition bind {A B} (r : Result A) (k : A -> Result B) : Result B :=
  match r with
  | Ok a => k a
  | Raise e => Raise e
  end.

Notation "x <- r ;; k" := (bind r (fun x => k))
  (at level 61, r at next level, right associativity).

(** float64 as an extended rational. *)
Inductive fvalue : Type :=
| Finite (q : Q)
| PosInf
| NegInf
| NaN.

(** numpy true division of two finite floats. *)
Definition true_divide (a b : Q) : fvalue :=
  if Qeq_bool b 0 then
    match Qcompare a 0 with
    | Eq => NaN
    | Gt => PosInf
    | Lt => NegInf
    end
  else Finite (a / b).

Definition fadd1 (x : fvalue) : fvalue :=
  match x with
  | Finite q => Finite (q + 1)
  | other => other
  end.

(** [int(x)] of a finite float: truncation towards zero. *)
Definition int_of_Q (q : Q) : Z := Z.quot (Qnum q) (Z.pos (Qden q)).

(** [int(t * x)] for an int64 [t] and a float [x]. *)
Definition int_of_scaled (t : Z) (x : fvalue) : Result Z :=
  match x with
  | Finite q => Ok (int_of_Q (inject_Z t * q))
  | NaN => Raise ValueError
  | _ => if (t =? 0)%Z then Raise ValueError else Raise OverflowError
  end.

(** int64 wrap-around of numpy reductions over integers. *)
Definition wrap64 (z : Z) : Z := ((z + 2 ^ 63) mod 2 ^ 64 - 2 ^ 63)%Z.

Definition Zprod (l : list Z) : Z := fold_right Z.mul 1%Z l.
Definition Zsum (l : list Z) : Z := fold_right Z.add 0%Z l.
Definition Qsum (l : list Q) : Q := fold_right Qplus 0 l.

Definition np_prod (l : list Z) : Z := wrap64 (Zprod l).
Definition np_sum_int (l : list Z) : Z := wrap64 (Zsum l).

(* ================================================================== *)
(** * N-dimensional arrays *)

Fixpoint tensor (A : Type) (d : nat) : Type :=
  match d with
  | O => A
  | S k => list (tensor A k)
  end.

Record ndarray (A : Type) : Type := mk_ndarray {
  ndim : nat;
  shape : list nat;
  items : tensor A ndim
}.

Arguments mk_ndarray {A} ndim shape items.
Arguments ndim {A} n.
Arguments shape {A} n.
Arguments items {A} n.

Fixpoint has_shape {A} (d : nat) (sh : list nat) : tensor A d -> bool :=
  match d with
  | O => fun _ => match sh with [] => true | _ :: _ => false end
  | S k => fun l : list (tensor A k) =>
      match sh with
      | [] => false
      | n :: ns => Nat.eqb (length l) n && forallb (has_shape k ns) l
      end
  end.

(** The arrays numpy can build: rectangular, and addressable by [intp]. *)
Definition well_formed {A} (a : ndarray A) : bool :=
  Nat.eqb (length (shape a)) (ndim a)
  && has_shape (ndim a) (shape a) (items a)
  && (Zprod (map Z.of_nat (shape a)) <? 2 ^ 63)%Z.

(** [array.ravel()]: the items in C order. *)
Fixpoint flatten {A} (d : nat) : tensor A d -> list A :=
  match d with
  | O => fun x => [x]
  | S k => fun l : list (tensor A k) => flat_map (flatten k) l
  end.

Definition ravel {A} (a : ndarray A) : list A := flatten (ndim a) (items a).

Fixpoint tmap {A B} (f : A -> B) (d : nat) : tensor A d -> tensor B d :=
  match d with
  | O => fun x => f x
  | S k => fun l : list (tensor A k) => map (tmap f k) l
  end.

Definition array_map {A B} (f : A -> B) (a : ndarray A) : ndarray B :=
  mk_ndarray (ndim a) (shape a) (tmap f (ndim a) (items a)).

(** Python slice [start:stop] on an axis of length [n]: offset and length. *)
Definition slice_bounds (start stop : Z) (n : nat) : nat * nat :=
  let clip x :=
    if (x <? 0)%Z then Z.max (x + Z.of_nat n) 0 else Z.min x (Z.of_nat n) in
  let lo := clip start in
  let hi := clip stop in
  (Z.to_nat lo, Z.to_nat (hi - lo)).

Fixpoint tslice {A} (d : nat) (sl : list (Z * Z)) : tensor A d -> tensor A d :=
  match d with
  | O => fun x => x
  | S k => fun l : list (tensor A k) =>
      match sl with
      | [] => l
      | (start, stop) :: rest =>
          let (off, len) := slice_bounds start stop (length l) in
          map (tslice k rest) (firstn len (skipn off l))
      end
  end.

Fixpoint slice_shape (sl : list (Z * Z)) (sh : list nat) : list nat :=
  match sh with
  | [] => []
  | n :: ns =>
      match sl with
      | [] => sh
      | (start, stop) :: rest =>
          snd (slice_bounds start stop n) :: slice_shape rest ns
      end
  end.

(** [array[tuple(slices)]] with at most [ndim] slices. *)
Definition getitem_slices {A} (a : ndarray A) (sl : list (Z * Z)) : ndarray A :=
  mk_ndarray (ndim a) (slice_shape sl (shape a)) (tslice (ndim a) sl (items a)).

(** The index tuples of [np.ndindex] for non-negative counts, in C order. *)
Fixpoint ndindex (counts : list nat) : list (list nat) :=
  match counts with
  | [] => [[]]
  | n :: ns => flat_map (fun i => map (cons i) (ndindex ns)) (seq 0 n)
  end.

(** [np.ndindex] refuses a negative dimension. *)
Definition np_ndindex (counts : list Z) : Result (list (list nat)) :=
  if forallb (fun c => (0 <=? c)%Z) counts
  then Ok (ndindex (map Z.to_nat counts))
  else Raise ValueError.

(** [x[mask]] for a boolean mask of the same length. *)
Fixpoint boolean_mask {A} (xs : list A) (mask : list bool) : list A :=
  match xs, mask with
  | x :: xs', b :: mask' =>
      if b then x :: boolean_mask xs' mask' else boolean_mask xs' mask'
  | _, _ => []
  end.

(** [np.unique(xs, return_counts=True)]: sorted distinct values and how
    often each occurs. *)
Fixpoint unique_insert (x : Q) (l : list (Q * Z)) : list (Q * Z) :=
  match l with
  | [] => [(x, 1%Z)]
  | (y, c) :: rest =>
      match Qcompare x y with
      | Lt => (x, 1%Z) :: l
      | Eq => (y, (c + 1)%Z) :: rest
      | Gt => (y, c) :: unique_insert x rest
      end
  end.

Definition np_unique_counts (xs : list Q) : list Q * list Z :=
  List.split (fold_right unique_insert [] xs).

Definition np_unique (xs : list Q) : list Q := fst (np_unique_counts xs).

Fixpoint Zunique_insert (x : Z) (l : list Z) : list Z :=
  match l with
  | [] => [x]
  | y :: rest =>
      match Z.compare x y with
      | Lt => x :: l
      | Eq => l
      | Gt => y :: Zunique_insert x rest
      end
  end.

(** [np.unique] on integral values. *)
Definition np_unique_Z (xs : list Z) : list Z := fold_right Zunique_insert [] xs.

Definition Qlist_min (x : Q) (l : list Q) : Q := fold_right Qmin x l.
Definition Qlist_max (x : Q) (l : list Q) : Q := fold_right Qmax x l.

(** [np.min] and [np.max] refuse an empty array. *)
Definition np_min (l : list Q) : Result Q :=
  match l with
  | [] => Raise ValueError
  | x :: r => Ok (Qlist_min x r)
  end.

Definition np_max (l : list Q) : Result Q :=
  match l with
  | [] => Raise ValueError
  | x :: r => Ok (Qlist_max x r)
  end.

(** [np.linspace(first, last, k + 1)] for [k >= 1]. *)
Definition linspace_edges (first last : Q) (k : nat) : list Q :=
  map (fun i => first + inject_Z (Z.of_nat i) * ((last - first) / inject_Z (Z.of_nat k)))
      (seq 0 k)
  ++ [last].

(** Membership of [x] in the [i]-th of [k] bins: half open, the last closed. *)
Definition in_bin (edges : list Q) (k i : nat) (x : Q) : bool :=
  let lo := nth i edges 0 in
  let hi := nth (S i) edges 0 in
  if Qle_bool lo x
  then if Nat.eqb (S i) k then Qle_bool x hi else negb (Qle_bool hi x)
  else false.

Definition count_occ_b {A} (f : A -> bool) (l : list A) : Z :=
  Z.of_nat (length (filter f l)).

(** [np.histogram(xs, bins=k, density=False)] on finite data. *)
Definition np_histogram (xs : list Q) (k : Z) : Result (list Z * list Q) :=
  match xs with
  | [] =>
      if (k <? 1)%Z then Raise ValueError
      else Ok (repeat 0%Z (Z.to_nat k), linspace_edges 0 1 (Z.to_nat k))
  | x :: r =>
      if (k <? 1)%Z then Raise ValueError
      else
        let lo := Qlist_min x r in
        let hi := Qlist_max x r in
        let first := if Qeq_bool lo hi then lo - (1 # 2) else lo in
        let last := if Qeq_bool lo hi then hi + (1 # 2) else hi in
        let n := Z.to_nat k in
        let edges := linspace_edges first last n in
        Ok (map (fun i => count_occ_b (in_bin edges n i) xs) (seq 0 n), edges)
  end.

(** [(bins[:-1] + bins[1:]) / 2]. *)
Fixpoint midpoints (edges : list Q) : list Q :=
  match edges with
  | a :: ((b :: _) as rest) => (a + b) / 2 :: midpoints rest
  | _ => []
  end.

(* ================================================================== *)
(** * The numpy routines taken as given *)

(** [random_binomial p g]: the sample of [np.random.binomial(1, p)] in
    generator state [g] and the state after it.  [hist_bin_auto xs]: the
    number of equal-width bins that the [auto] rule of [np.histogram] picks
    for [xs].  [polyfit_log xs ys]: [np.polyfit(np.log(xs), np.log(ys), 1,
    cov=True)], [None] when it raises; the ordinates may hold an infinity. *)
Class Numpy : Type := {
  rng_state : Type;
  random_binomial : Q -> rng_state -> Z * rng_state;
  hist_bin_auto : list Q -> Z;
  fit_result : Type;
  polyfit_log : list Q -> list fvalue -> option fit_result
}.

(* ================================================================== *)
(** * The estimator *)

Inductive bins_rule : Type :=
| BinsAuto
| BinsCount (k : Z).

(** The attributes of a [FracND] object.  Those that [__call__] assigns are
    empty until the first call. *)
Record FracND {np : Numpy} : Type := mk_FracND {
  max_box_size : option Z;
  min_box_size : Z;
  stride : option Z;
  n_samples : Z;
  subsample : option Q;
  multiprocess : bool;
  histogram : bool;
  bins : bins_rule;
  scales : list Z;
  Ns : list Z;
  lacunarity_spectrum : list fvalue;
  FD_fit : option fit_result;
  LD_fit : option fit_result
}.

Arguments mk_FracND {np}.

(** [FracND.__init__]; [kw_histogram] and [kw_bins] are the keyword
    arguments of these names, when given. *)
Definition init {np : Numpy} (max_box_size : option Z) (min_box_size : Z)
    (stride : option Z) (n_samples : Z) (subsample : option Q)
    (multiprocess : bool) (kw_histogram : option bool)
    (kw_bins : option bins_rule) : FracND :=
  mk_FracND max_box_size min_box_size stride n_samples subsample multiprocess
    (match kw_histogram with Some h => h | None => false end)
    (match kw_bins with Some b => b | None => BinsAuto end)
    [] [] [] None None.

(** [FracND.Worker.__call__]: [squeeze] only drops axes of length one, so
    the window is read through its items. *)
Definition Worker (window : ndarray Q) : Z * Q :=
  let window := ravel window in
  let binary_window := map (fun x => if Qlt_le_dec 0 x then 1%Z else 0%Z) window in
  let touched := (1 - (if forallb (Z.eqb 0) binary_window then 1 else 0))%Z in
  let mass := Qsum window in
  (touched, mass).

(** [int((n - window_size) / step_size) + 1] for every axis length [n]. *)
Definition axis_counts (shape : list nat) (window_size step_size : Z)
  : Result (list Z) :=
  match shape with
  | [] => Ok []
  | _ :: _ =>
      if (step_size =? 0)%Z then Raise ZeroDivisionError
      else Ok (map (fun n => (Z.quot (Z.of_nat n - window_size) step_size + 1)%Z) shape)
  end.

(** The window at one index of the scan. *)
Definition window_at (input_array : ndarray Q) (window_size step_size : Z)
    (index : list nat) : ndarray Q :=
  let start := map (fun i => (Z.of_nat i * step_size)%Z) index in
  let end_ := map (fun i => (i + window_size)%Z) start in
  getitem_slices input_array (combine start end_).

Section Estimator.

Context {np : Numpy}.

(** The loop over the windows: what [res] holds for the windows that are not
    skipped, in iteration order.  The pool and the sequential branch apply
    the same pure [Worker]; the pool stores the pending result, the
    sequential branch the result itself. *)
Fixpoint scan_windows (self : FracND) (input_array : ndarray Q)
    (window_size step_size : Z) (indices : list (list nat)) (g : rng_state)
  : Result (list (Z * Q)) * rng_state :=
  match indices with
  | [] => (Ok [], g)
  | index :: rest =>
      match subsample self with
      | Some p =>
          if Qle_bool 0 p && Qle_bool p 1 then
            let (smpl, g1) := random_binomial p g in
            if (smpl =? 0)%Z then
              scan_windows self input_array window_size step_size rest g1
            else
              let r := Worker (window_at input_array window_size step_size index) in
              let (res, g2) :=
                scan_windows self input_array window_size step_size rest g1 in
              (l <- res ;; Ok (r :: l), g2)
          else (Raise ValueError, g)
      | None =>
          let r := Worker (window_at input_array window_size step_size index) in
          let (res, g2) :=
            scan_windows self input_array window_size step_size rest g in
          (l <- res ;; Ok (r :: l), g2)
      end
  end.

(** The number of bins that [np.histogram(mass, bins=self.bins)] uses. *)
Definition bin_count (self : FracND) (mass : list Q) : Z :=
  match bins self with
  | BinsAuto => hist_bin_auto mass
  | BinsCount k => k
  end.

(** The probability distribution over the normalised masses: support and
    probabilities. *)
Definition mass_distribution (self : FracND) (mass : list Q)
  : Result (list Q * list Q) :=
  if histogram self then
    pb <- np_histogram mass (bin_count self mass) ;;
    let (p, bins) := pb in
    let bin_centers := midpoints bins in
    let keep := map (fun c => negb (c =? 0)%Z) p in
    let bin_centers := boolean_mask bin_centers keep in
    let p := map inject_Z (boolean_mask p keep) in
    let total := Qsum p in
    Ok (bin_centers, map (fun x => x / total) p)
  else
    let (bin_centers, p) := np_unique_counts mass in
    let keep := map (fun c => negb (c =? 0)%Z) p in
    let bin_centers := boolean_mask bin_centers keep in
    let p := map inject_Z (boolean_mask p keep) in
    let total := Qsum p in
    Ok (bin_centers, map (fun x => x / total) p).

(** [var / mean ** 2 + 1] of a distribution. *)
Definition lacunarity_of (bin_centers p : list Q) : fvalue :=
  let mean := Qsum (map (fun cp => snd cp * fst cp) (combine bin_centers p)) in
  let var := Qsum (map (fun cp => snd cp * ((fst cp - mean) * (fst cp - mean)))
                       (combine bin_centers p)) in
  fadd1 (true_divide var (mean * mean)).

(** [FracND.sliding_window_statistics]. *)
Definition sliding_window_statistics (self : FracND) (input_array : ndarray Q)
    (window_size step_size : Z) (g : rng_state)
  : Result (Z * fvalue) * rng_state :=
  let shape := shape input_array in
  match axis_counts shape window_size step_size with
  | Raise e => (Raise e, g)
  | Ok window_counts =>
  match axis_counts shape window_size window_size with
  | Raise e => (Raise e, g)
  | Ok box_window_counts =>
  let norm :=
    match subsample self with
    | None =>
        true_divide (inject_Z (np_prod box_window_counts))
                    (inject_Z (np_prod window_counts))
    | Some p =>
        true_divide (inject_Z (np_prod box_window_counts))
                    (inject_Z (np_prod window_counts) * p)
    end in
  match np_ndindex window_counts with
  | Raise e => (Raise e, g)
  | Ok indices =>
  let (res, g') :=
    scan_windows self input_array window_size step_size indices g in
  (results <- res ;;
   match results with
   | [] => Raise ValueError      (* nothing to unpack from zip *)
   | _ :: _ =>
       if negb (multiprocess self) then
         (* [r.get()] on the tuple that the sequential branch stored *)
         Raise AttributeError
       else
       let touched := map fst results in
       let mass := map snd results in
       let total := np_sum_int touched in
       N <- int_of_scaled total norm ;;
       if (total =? 0)%Z then
         (* every normalised mass is NaN or infinite *)
         if histogram self then Raise ValueError else Ok (N, NaN)
       else
         let mass := map (fun m => m / inject_Z total) mass in
         d <- mass_distribution self mass ;;
         Ok (N, lacunarity_of (fst d) (snd d))
   end, g')
  end end end.

(** The first lines of [FracND.linear_fit] on a series of finite values,
    as the box counts are: the scale and value series handed to the fit,
    before the optional inversion and the logarithms. *)
Definition fit_series (scales vals : list Q) : Result (list Q * list Q) :=
  let uniq := np_unique vals in
  scales' <- fold_right
      (fun v acc =>
         rest <- acc ;;
         if Nat.eqb (length scales) (length vals) then
           m <- np_min (boolean_mask scales (map (fun x => Qeq_bool x v) vals)) ;;
           Ok (m :: rest)
         else Raise IndexError)
      (Ok []) uniq ;;
  let vals := uniq in
  let vals := boolean_mask vals (map (fun v => negb (Qle_bool v 0)) vals) in
  let scales := firstn (length vals) scales' in
  Ok (scales, vals).

(** [FracND.linear_fit] on a series of finite values: an inverted scale of
    zero is infinite, on which the least squares routine fails. *)
Definition linear_fit (scales vals : list Q) (invert_scales : bool)
  : Result fit_result :=
  sv <- fit_series scales vals ;;
  let (scales, vals) := sv in
  scales <- (if invert_scales then
               if existsb (fun x => Qeq_bool x 0) scales then Raise LinAlgError
               else Ok (map Qinv scales)
             else Ok scales) ;;
  match polyfit_log scales (map Finite vals) with
  | Some fit => Ok fit
  | None => Raise LinAlgError
  end.

(** The order in which [np.unique] sorts float64 values: minus infinity,
    the finite values, plus infinity, and NaN last; all NaN count as one
    value. *)
Definition fcompare (x y : fvalue) : comparison :=
  match x, y with
  | NaN, NaN => Eq
  | NaN, _ => Gt
  | _, NaN => Lt
  | NegInf, NegInf => Eq
  | NegInf, _ => Lt
  | _, NegInf => Gt
  | PosInf, PosInf => Eq
  | PosInf, _ => Gt
  | _, PosInf => Lt
  | Finite a, Finite b => Qcompare a b
  end.

Fixpoint funique_insert (x : fvalue) (l : list fvalue) : list fvalue :=
  match l with
  | [] => [x]
  | y :: rest =>
      match fcompare x y with
      | Lt => x :: l
      | Eq => l
      | Gt => y :: funique_insert x rest
      end
  end.

(** [np.unique] on float64 values. *)
Definition np_unique_f (xs : list fvalue) : list fvalue :=
  fold_right funique_insert [] xs.

(** [x == y] on float64 values: NaN equals nothing. *)
Definition feqb (x y : fvalue) : bool :=
  match x, y with
  | Finite a, Finite b => Qeq_bool a b
  | PosInf, PosInf => true
  | NegInf, NegInf => true
  | _, _ => false
  end.

(** [x > 0] on float64 values. *)
Definition fpositive (x : fvalue) : bool :=
  match x with
  | Finite a => negb (Qle_bool a 0)
  | PosInf => true
  | NegInf | NaN => false
  end.

(** The first lines of [FracND.linear_fit] on a value series that may hold
    infinities and NaN, as the lacunarity series does: the selection
    [scales[vals == v]] is empty for [v] NaN, and [np.min] refuses it. *)
Definition fit_series_float (scales : list Q) (vals : list fvalue)
  : Result (list Q * list fvalue) :=
  let uniq := np_unique_f vals in
  scales' <- fold_right
      (fun v acc =>
         rest <- acc ;;
         if Nat.eqb (length scales) (length vals) then
           m <- np_min (boolean_mask scales (map (fun x => feqb x v) vals)) ;;
           Ok (m :: rest)
         else Raise IndexError)
      (Ok []) uniq ;;
  let vals := uniq in
  let vals := boolean_mask vals (map fpositive vals) in
  let scales := firstn (length vals) scales' in
  Ok (scales, vals).

(** [FracND.linear_fit] on such a series. *)
Definition linear_fit_float (scales : list Q) (vals : list fvalue)
    (invert_scales : bool) : Result fit_result :=
  sv <- fit_series_float scales vals ;;
  let (scales, vals) := sv in
  scales <- (if invert_scales then
               if existsb (fun x => Qeq_bool x 0) scales then Raise LinAlgError
               else Ok (map Qinv scales)
             else Ok scales) ;;
  match polyfit_log scales vals with
  | Some fit => Ok fit
  | None => Raise LinAlgError
  end.

(** The exponents of [np.logspace(start, stop, num, base=2)] are
    [start + i * (stop - start) / (num - 1)]; [floor_pow2 a b] is the floor
    of 2 to the power [a / b], found bit by bit from the top. *)
Fixpoint root_bits (x : Z) (b : positive) (nbits : nat) (r : Z) : Z :=
  match nbits with
  | O => r
  | S k =>
      let c := (r + 2 ^ Z.of_nat k)%Z in
      root_bits x b k (if (c ^ Z.pos b <=? x)%Z then c else r)
  end.

Definition floor_pow2 (a : Z) (b : positive) : Z :=
  if (a <? 0)%Z then 0%Z
  else root_bits (2 ^ a) b (S (Z.to_nat (a / Z.pos b))) 0.

(** [np.floor(np.logspace(start, stop, num=num, base=2))], each sample
    computed exactly. *)
Definition floor_logspace (start stop num : Z) : Result (list Z) :=
  if (num <? 0)%Z then Raise ValueError
  else if (num =? 1)%Z then Ok [floor_pow2 start 1]
  else
    let div := Z.to_pos (num - 1) in
    Ok (map (fun i => floor_pow2 (start * (num - 1) + Z.of_nat i * (stop - start)) div)
            (seq 0 (Z.to_nat num))).

(** [int(np.floor(np.log2(np.min(shape))))]. *)
Definition default_max_box_size (shape : list nat) : Result Z :=
  match shape with
  | [] => Raise ValueError
  | n :: ns =>
      let m := fold_right Nat.min n ns in
      if Nat.eqb m 0 then Raise OverflowError else Ok (Z.log2 (Z.of_nat m))
  end.

Definition set_max_box_size (self : FracND) (m : Z) : FracND :=
  mk_FracND (Some m) (min_box_size self) (stride self) (n_samples self)
    (subsample self) (multiprocess self) (histogram self) (bins self)
    (scales self) (Ns self) (lacunarity_spectrum self) (FD_fit self) (LD_fit self).

Definition set_scales (self : FracND) (s : list Z) : FracND :=
  mk_FracND (max_box_size self) (min_box_size self) (stride self) (n_samples self)
    (subsample self) (multiprocess self) (histogram self) (bins self)
    s (Ns self) (lacunarity_spectrum self) (FD_fit self) (LD_fit self).

Definition set_series (self : FracND) (ns : list Z) (ls : list fvalue) : FracND :=
  mk_FracND (max_box_size self) (min_box_size self) (stride self) (n_samples self)
    (subsample self) (multiprocess self) (histogram self) (bins self)
    (scales self) ns ls (FD_fit self) (LD_fit self).

Definition set_FD_fit (self : FracND) (f : fit_result) : FracND :=
  mk_FracND (max_box_size self) (min_box_size self) (stride self) (n_samples self)
    (subsample self) (multiprocess self) (histogram self) (bins self)
    (scales self) (Ns self) (lacunarity_spectrum self) (Some f) (LD_fit self).

Definition set_LD_fit (self : FracND) (f : fit_result) : FracND :=
  mk_FracND (max_box_size self) (min_box_size self) (stride self) (n_samples self)
    (subsample self) (multiprocess self) (histogram self) (bins self)
    (scales self) (Ns self) (lacunarity_spectrum self) (FD_fit self) (Some f).

(** The loop of [__call__] over the scales: each pass appends to [self.Ns]
    and [self.lacunarity_spectrum]; an exception leaves what was appended. *)
Fixpoint sweep (self : FracND) (input_array : ndarray Q) (todo : list Z)
    (g : rng_state) : Result unit * FracND * rng_state :=
  match todo with
  | [] => (Ok tt, self, g)
  | scale :: rest =>
      let step_size := match stride self with
                       | None => scale
                       | Some s => s
                       end in
      match sliding_window_statistics self input_array scale step_size g with
      | (Raise e, g') => (Raise e, self, g')
      | (Ok (N, lacunarity), g') =>
          sweep (set_series self (Ns self ++ [N])
                            (lacunarity_spectrum self ++ [lacunarity]))
                input_array rest g'
      end
  end.

(** The scale sequence of [__call__]. *)
Definition scale_sequence (self : FracND) (max_exp : Z) : Result (list Z) :=
  s <- floor_logspace max_exp (min_box_size self) (n_samples self) ;;
  Ok (np_unique_Z s).

(** [FracND.__call__]: the outcome, the object after the call and the
    generator state after the call. *)
Definition call (self : FracND) (input_array : ndarray Q) (g : rng_state)
  : Result unit * FracND * rng_state :=
  if forallb (fun x => Qeq_bool x 0) (ravel input_array) then
    (Raise EmptyInputError, self, g)
  else
    match (match max_box_size self with
           | None => default_max_box_size (shape input_array)
           | Some m => Ok m
           end) with
    | Raise e => (Raise e, self, g)
    | Ok m =>
    let self := set_max_box_size self m in
    match scale_sequence self m with
    | Raise e => (Raise e, self, g)
    | Ok s =>
    let self := set_scales self s in
    let self := set_series self [] [] in
    match sweep self input_array (scales self) g with
    | (Raise e, self, g) => (Raise e, self, g)
    | (Ok _, self, g) =>
    match linear_fit (map inject_Z (scales self)) (map inject_Z (Ns self)) true with
    | Raise e => (Raise e, self, g)
    | Ok fit =>
    let self := set_FD_fit self fit in
    match linear_fit_float (map inject_Z (scales self))
                           (lacunarity_spectrum self) false with
    | Raise e => (Raise e, self, g)
    | Ok fit => (Ok tt, set_LD_fit self fit, g)
    end end end end end.

End Estimator.

(* ================================================================== *)
(** * greyscale_to_binary *)

(** [np.zeros(shape)] and, more generally, [np.full(shape, x)]. *)
Fixpoint tfull {A} (x : A) (d : nat) (sh : list nat) : tensor A d :=
  match d with
  | O => x
  | S k =>
      match sh with
      | [] => []
      | n :: ns => repeat (tfull x k ns) n
      end
  end.

(** [t[idx] = v] for one tuple of integer indices; a negative index counts
    from the end of its axis. *)
Fixpoint tset {A} (d : nat) (idx : list Z) (v : A)
  : tensor A d -> Result (tensor A d) :=
  match d with
  | O => fun _ => match idx with [] => Ok v | _ :: _ => Raise IndexError end
  | S k => fun l : list (tensor A k) =>
      match idx with
      | [] => Raise IndexError
      | i :: rest =>
          let n := Z.of_nat (length l) in
          let j := if (i <? 0)%Z then (i + n)%Z else i in
          if (0 <=? j)%Z && (j <? n)%Z then
            match nth_error l (Z.to_nat j) with
            | Some sub =>
                sub' <- tset k rest v sub ;;
                Ok (firstn (Z.to_nat j) l ++ sub' :: skipn (S (Z.to_nat j)) l)
            | None => Raise IndexError
            end
          else Raise IndexError
      end
  end.

(** [binary_array[binary_indices] = 1]: one assignment per index tuple. *)
Definition scatter_ones (d : nat) (zeros : tensor Z d) (indices : list (list Z))
  : Result (tensor Z d) :=
  fold_left (fun acc idx => b <- acc ;; tset d idx 1%Z b) indices (Ok zeros).

Definition Zlist_max (x : Z) (l : list Z) : Z := fold_right Z.max x l.

(** [greyscale_to_binary(array, levels)].  On a constant array the
    normalisation divides zero by zero, the cast of NaN to [int] gives the
    least int64 and [np.zeros] refuses the negative dimension. *)
Definition greyscale_to_binary (array : ndarray Q) (levels : Z)
  : Result (ndarray Z) :=
  lo <- np_min (ravel array) ;;
  hi <- np_max (ravel array) ;;
  if Qeq_bool (hi - lo) 0 then Raise ValueError
  else
    let array := array_map (fun x => (x - lo) / (hi - lo)) array in
    let array := array_map (fun x => int_of_Q (x * inject_Z levels)) array in
    let array_shape := shape array in
    match ravel array with
    | [] => Raise ValueError
    | v :: vs =>
        let max_pixel_value := Zlist_max v vs in
        if (max_pixel_value + 1 <? 0)%Z then Raise ValueError
        else
          let binary_shape := array_shape ++ [Z.to_nat (max_pixel_value + 1)] in
          let binary_array := tfull 0%Z (S (ndim array)) binary_shape in
          let indices_flat := ndindex array_shape in
          let pixel_values := ravel array in
          let binary_indices :=
            map (fun iv => map Z.of_nat (fst iv) ++ [snd iv])
                (combine indices_flat pixel_values) in
          b <- scatter_ones (S (ndim array)) binary_array binary_indices ;;
          Ok (mk_ndarray (S (ndim array)) binary_shape b)
    end.

(** [np.sum(b, axis=-1)] and [np.argmax(b, axis=-1)]. *)
Fixpoint tsum_last (d : nat) : tensor Z (S d) -> tensor Z d :=
  match d with
  | O => fun row : list Z => Zsum row
  | S k => fun l : list (tensor Z (S k)) => map (tsum_last k) l
  end.

Fixpoint argmax_from (best : Z) (besti i : nat) (row : list Z) : nat :=
  match row with
  | [] => besti
  | x :: r =>
      if (best <? x)%Z then argmax_from x i (S i) r
      else argmax_from best besti (S i) r
  end.

Definition argmax (row : list Z) : nat :=
  match row with
  | [] => O
  | x :: r => argmax_from x O 1 r
  end.

Fixpoint targmax_last (d : nat) : tensor Z (S d) -> tensor Z d :=
  match d with
  | O => fun row : list Z => Z.of_nat (argmax row)
  | S k => fun l : list (tensor Z (S k)) => map (targmax_last k) l
  end.

Definition sum_last_axis (b : ndarray Z) : Result (ndarray Z) :=
  match b with
  | mk_ndarray (S d) sh t => Ok (mk_ndarray d (removelast sh) (tsum_last d t))
  | mk_ndarray O _ _ => Raise ValueError
  end.

Definition argmax_last_axis (b : ndarray Z) : Result (ndarray Z) :=
  match b with
  | mk_ndarray (S d) sh t => Ok (mk_ndarray d (removelast sh) (targmax_last d t))
  | mk_ndarray O _ _ => Raise ValueError
  end.

(** The rescaled, quantised intensity field that [greyscale_to_binary]
    builds on its way. *)
Definition quantised (array : ndarray Q) (levels : Z) : Result (ndarray Z) :=
  lo <- np_min (ravel array) ;;
  hi <- np_max (ravel array) ;;
  if Qeq_bool (hi - lo) 0 then Raise ValueError
  else
    Ok (array_map (fun x => int_of_Q ((x - lo) / (hi - lo) * inject_Z levels))
                  array).

(* ================================================================== *)
(** * crop_segmentation *)

(** The index tuples of the non-zero items, in C order: the columns of
    [np.nonzero(array)]. *)
Fixpoint tnonzero (d : nat) : tensor Q d -> list (list nat) :=
  match d with
  | O => fun x => if Qeq_bool x 0 then [] else [[]]
  | S k => fun l : list (tensor Q k) =>
      flat_map (fun p => map (cons (fst p)) (tnonzero k (snd p)))
               (combine (seq 0 (length l)) l)
  end.

(** [np.nonzero(array)]: one index array per axis. *)
Definition np_nonzero (array : ndarray Q) : list (list nat) :=
  let found := tnonzero (ndim array) (items array) in
  map (fun ax => map (fun idx => nth ax idx O) found) (seq 0 (ndim array)).

Definition np_min_nat (l : list nat) : Result nat :=
  match l with
  | [] => Raise ValueError
  | x :: r => Ok (fold_right Nat.min x r)
  end.

Definition np_max_nat (l : list nat) : Result nat :=
  match l with
  | [] => Raise ValueError
  | x :: r => Ok (fold_right Nat.max x r)
  end.

Fixpoint sequence {A} (l : list (Result A)) : Result (list A) :=
  match l with
  | [] => Ok []
  | r :: rest => x <- r ;; xs <- sequence rest ;; Ok (x :: xs)
  end.

(** [crop_segmentation(array, return_indices=True)]; without
    [return_indices] the caller gets the first component only. *)
Definition crop_segmentation (array : ndarray Q)
  : Result (ndarray Q * list nat * list nat) :=
  let nonzero := np_nonzero array in
  minima <- sequence (map np_min_nat nonzero) ;;
  maxima <- sequence (map np_max_nat nonzero) ;;
  let maxima := map (fun m => (m + 1)%nat) maxima in
  match minima, maxima with
  | m0 :: m1 :: m2 :: _, M0 :: M1 :: M2 :: _ =>
      let cropped_array :=
        getitem_slices array
          [(Z.of_nat m0, Z.of_nat M0); (Z.of_nat m1, Z.of_nat M1);
           (Z.of_nat m2, Z.of_nat M2)] in
      Ok (cropped_array, minima, maxima)
  | _, _ => Raise IndexError
  end.

(** [crop_image(array, minima, maxima)] for index lists as
    [crop_segmentation] returns them; three slices are too many indices for
    an array of fewer axes. *)
Definition crop_image (array : ndarray Q) (minima maxima : list nat)
  : Result (ndarray Q) :=
  match minima, maxima with
  | m0 :: m1 :: m2 :: _, M0 :: M1 :: M2 :: _ =>
      if (ndim array <? 3)%nat then Raise IndexError
      else
        Ok (getitem_slices array
              [(Z.of_nat m0, Z.of_nat M0); (Z.of_nat m1, Z.of_nat M1);
               (Z.of_nat m2, Z.of_nat M2)])
  | _, _ => Raise IndexError
  end.

(* ================================================================== *)
(** * Definitions used in the statements *)

(** The product of a list of natural numbers. *)
Definition nat_prod (l : list nat) : nat := fold_right Nat.mul 1%nat l.

(** The slice [start:end] on each axis of the window at [index]. *)
Definition window_slices (window_size step_size : Z) (index : list nat)
  : list (Z * Z) :=
  let start := map (fun i => (Z.of_nat i * step_size)%Z) index in
  combine start (map (fun i => (i + window_size)%Z) start).

(** The window at position [i] of an axis of length [n] lies inside it. *)
Definition fits (s d : Z) (i n : nat) : Prop :=
  (Z.of_nat i * d + s <= Z.of_nat n)%Z.

(** [floor((n - s) / d) + 1] window positions for every axis length [n]. *)
Definition floor_counts (shape : list nat) (s d : Z) : list nat :=
  map (fun n => Z.to_nat ((Z.of_nat n - s) / d + 1)) shape.

(** The [Worker] results of all windows, in the order of the scan. *)
Definition window_results (a : ndarray Q) (s d : Z) : list (Z * Q) :=
  map (fun i => Worker (window_at a s d i))
      (ndindex (floor_counts (shape a) s d)).

(** The masses of all windows, each divided by the number of touched
    windows. *)
Definition normalised_masses (a : ndarray Q) (s d : Z) : list Q :=
  let results := window_results a s d in
  let total := Zsum (map fst results) in
  map (fun m => m / inject_Z total) (map snd results).

(** The sum of the touched flags, rescaled by the ratio of the disjoint to
    the sliding window counts and truncated. *)
Definition box_count (a : ndarray Q) (s d : Z) : Z :=
  let touched := map fst (window_results a s d) in
  let B := Zprod (map (fun n => ((Z.of_nat n - s) / s + 1)%Z) (shape a)) in
  let W := Zprod (map Z.of_nat (floor_counts (shape a) s d)) in
  (Zsum touched * B / W)%Z.

(** What the scan returns when nothing is skipped and every window fits. *)
Definition scan_outcome {np : Numpy} (self : FracND) (a : ndarray Q) (s d : Z)
  : Result (Z * fvalue) :=
  let results := window_results a s d in
  let total := Zsum (map fst results) in
  if (total =? 0)%Z then
    if histogram self then Raise ValueError else Ok (box_count a s d, NaN)
  else
    dist <- mass_distribution self (normalised_masses a s d) ;;
    Ok (box_count a s d, lacunarity_of (fst dist) (snd dist)).

(** The sum of [c * f y] over a table of values [y] with counts [c]. *)
Definition weighted_sum (f : Q -> Q) (al : list (Q * Z)) : Q :=
  Qsum (map (fun yc => inject_Z (snd yc) * f (fst yc)) al).

(** The table behind [np.unique(xs, return_counts=True)]. *)
Definition unique_table (xs : list Q) : list (Q * Z) :=
  fold_right unique_insert [] xs.

(** The sum of the counts of a table. *)
Definition table_total (al : list (Q * Z)) : Q :=
  Qsum (map (fun yc => inject_Z (snd yc)) al).

(** An instance for evaluating examples: a generator that never skips a
    window, one bin for the auto rule, and a fit that returns the series it
    was given. *)
Definition example_numpy : Numpy :=
  {| rng_state := unit;
     random_binomial := fun _ g => (1%Z, g);
     hist_bin_auto := fun _ => 1%Z;
     fit_result := (list Q * list fvalue)%type;
     polyfit_log := fun xs ys => Some (xs, ys) |}.


(** A float that is finite and equal to a given rational. *)
Definition fvalue_eqb (x : fvalue) (q : Q) : bool :=
  match x with
  | Finite y => Qeq_bool y q
  | _ => false
  end.

(** The attributes that [sliding_window_statistics] and the loop read. *)
Definition same_config {np : Numpy} (s1 s2 : FracND) : Prop :=
  subsample s1 = subsample s2 /\ histogram s1 = histogram s2
  /\ bins s1 = bins s2 /\ stride s1 = stride s2
  /\ multiprocess s1 = multiprocess s2.

(** The step size that [__call__] passes along with a scale. *)
Definition step_of {np : Numpy} (self : FracND) (scale : Z) : Z :=
  match stride self with
  | None => scale
  | Some s => s
  end.

(** [z] is the floor of 2 to the power [num / den]. *)
Definition is_floor_pow2 (num den z : Z) : Prop :=
  if (num <? 0)%Z then z = 0%Z
  else (0 <= z)%Z /\ (z ^ den <= 2 ^ num < (z + 1) ^ den)%Z.

(** The row that holds a single one at position [v]. *)
Definition onehot (w : nat) (v : Z) : list Z :=
  firstn (Z.to_nat v) (repeat 0%Z w) ++ 1%Z :: skipn (S (Z.to_nat v)) (repeat 0%Z w).

(** The one-hot encoding of an integer tensor along a new last axis of
    length [w]. *)
Fixpoint tonehot (w : nat) (d : nat) : tensor Z d -> tensor Z (S d) :=
  match d with
  | O => fun v : Z => onehot w v
  | S k => fun l : list (tensor Z k) => map (tonehot w k) l
  end.

(** The index tuples that [greyscale_to_binary] sets to one. *)
Definition bin_indices (sh : list nat) (vals : list Z) : list (list Z) :=
  map (fun iv => map Z.of_nat (fst iv) ++ [snd iv]) (combine (ndindex sh) vals).

(** [t[idx]] for a full tuple of in-range integer indices. *)
Fixpoint tget {A} (d : nat) (idx : list nat) : tensor A d -> option A :=
  match d with
  | O => fun x => match idx with [] => Some x | _ :: _ => None end
  | S k => fun l : list (tensor A k) =>
      match idx with
      | [] => None
      | i :: rest =>
          match nth_error l i with
          | Some sub => tget k rest sub
          | None => None
          end
      end
  end.

(** The slices of a box given by its lower and upper bound on each axis. *)
Definition box_slices (bs : list (nat * nat)) : list (Z * Z) :=
  map (fun b => (Z.of_nat (fst b), Z.of_nat (snd b))) bs.

(** An index of the input lies in the box. *)
Fixpoint within (bs : list (nat * nat)) (idx : list nat) : Prop :=
  match bs, idx with
  | [], _ => True
  | (lo, hi) :: bs', i :: idx' => (lo <= i < hi)%nat /\ within bs' idx'
  | _ :: _, [] => False
  end.

(** An index of the cropped array read as an index of the input. *)
Fixpoint shift (bs : list (nat * nat)) (idx : list nat) : list nat :=
  match bs, idx with
  | (lo, _) :: bs', i :: idx' => (lo + i)%nat :: shift bs' idx'
  | _, _ => idx
  end.

(** A full index of the cropped array: below the extent of the box on each
    axis. *)
Fixpoint in_box (bs : list (nat * nat)) (idx : list nat) : Prop :=
  match bs, idx with
  | [], [] => True
  | (lo, hi) :: bs', i :: idx' => (i < hi - lo)%nat /\ in_box bs' idx'
  | _, _ => False
  end.

(** The box lies within the shape. *)
Fixpoint box_ok (bs : list (nat * nat)) (sh : list nat) : Prop :=
  match bs, sh with
  | [], [] => True
  | (lo, hi) :: bs', n :: sh' => (lo <= hi <= n)%nat /\ box_ok bs' sh'
  | _, _ => False
  end.

(** [FracND()] and [FracND(stride=None)]. *)
Definition default_estimator : @FracND example_numpy :=
  init None 1 (Some 1%Z) 20 None true None None.

Definition disjoint_estimator : @FracND example_numpy :=
  init None 1 None 20 None true None None.

(** [FracND(multiprocess=False)] and
    [FracND(stride=None, multiprocess=False)]. *)
Definition sequential_estimator : @FracND example_numpy :=
  init None 1 (Some 1%Z) 20 None false None None.

Definition sequential_disjoint_estimator : @FracND example_numpy :=
  init None 1 None 20 None false None None.


Definition grid_2x3 : ndarray Q :=
  mk_ndarray 2 [2%nat; 3%nat] [[1; 0; 1]; [1; 1; 1]].

Definition solid_4x4 : ndarray Q :=
  mk_ndarray 2 [4%nat; 4%nat]
    [[1; 1; 1; 1]; [1; 1; 1; 1]; [1; 1; 1; 1]; [1; 1; 1; 1]].

Definition threes_2x3 : ndarray Q :=
  mk_ndarray 2 [2%nat; 3%nat] [[3; 3; 3]; [3; 3; 3]].

Definition row_8 : ndarray Q :=
  mk_ndarray 1 [8%nat] [1; 1; 0; 1; 0; 0; 0; 1].

Definition row_16 : ndarray Q :=
  mk_ndarray 1 [16%nat] [1; 1; 0; 1; 0; 0; 0; 1; 1; 0; 0; 0; 0; 0; 1; 1].

Definition ramp_3 : ndarray Q := mk_ndarray 1 [3%nat] [0; 1; 2].

Definition block_2x2x3 : ndarray Q :=
  mk_ndarray 3 [2%nat; 2%nat; 3%nat]
    [[[0; 0; 0]; [0; 5; 0]]; [[0; 0; 0]; [0; 7; 2]]].

(* ================================================================== *)
(** * lacunarity_statistics *)

(** The square root of a non-negative float, as numpy rounds it. *)
Class Sqrt : Type := { np_sqrt : Q -> Q }.

(** float64 arithmetic on extended rationals. *)
Definition fmin (x y : fvalue) : fvalue :=
  match x, y with
  | NaN, _ | _, NaN => NaN
  | NegInf, _ | _, NegInf => NegInf
  | PosInf, z | z, PosInf => z
  | Finite a, Finite b => Finite (Qmin a b)
  end.

Definition fmax (x y : fvalue) : fvalue :=
  match x, y with
  | NaN, _ | _, NaN => NaN
  | PosInf, _ | _, PosInf => PosInf
  | NegInf, z | z, NegInf => z
  | Finite a, Finite b => Finite (Qmax a b)
  end.

Definition fadd (x y : fvalue) : fvalue :=
  match x, y with
  | NaN, _ | _, NaN => NaN
  | PosInf, NegInf | NegInf, PosInf => NaN
  | PosInf, _ | _, PosInf => PosInf
  | NegInf, _ | _, NegInf => NegInf
  | Finite a, Finite b => Finite (a + b)
  end.

Definition fneg (x : fvalue) : fvalue :=
  match x with
  | Finite a => Finite (- a)
  | PosInf => NegInf
  | NegInf => PosInf
  | NaN => NaN
  end.

Definition fsquare (x : fvalue) : fvalue :=
  match x with
  | Finite a => Finite (a * a)
  | PosInf | NegInf => PosInf
  | NaN => NaN
  end.

(** Division of a float by a positive count. *)
Definition fdiv_count (x : fvalue) (n : nat) : fvalue :=
  match x with
  | Finite a => Finite (a / inject_Z (Z.of_nat n))
  | other => other
  end.

Definition fsqrt {sq : Sqrt} (x : fvalue) : fvalue :=
  match x with
  | Finite a => if Qle_bool 0 a then Finite (np_sqrt a) else NaN
  | PosInf => PosInf
  | NegInf | NaN => NaN
  end.

Definition fsum (l : list fvalue) : fvalue := fold_right fadd (Finite 0) l.

(** [np.min], [np.max], [np.mean] and [np.std] of a float array; the first
    two refuse an empty array. *)
Definition np_min_f (l : list fvalue) : Result fvalue :=
  match l with
  | [] => Raise ValueError
  | x :: r => Ok (fold_right fmin x r)
  end.

Definition np_max_f (l : list fvalue) : Result fvalue :=
  match l with
  | [] => Raise ValueError
  | x :: r => Ok (fold_right fmax x r)
  end.

Definition np_mean_f (l : list fvalue) : fvalue :=
  match l with
  | [] => NaN
  | _ :: _ => fdiv_count (fsum l) (length l)
  end.

Definition np_std_f {sq : Sqrt} (l : list fvalue) : fvalue :=
  let mean := np_mean_f l in
  fsqrt (np_mean_f (map (fun x => fsquare (fadd x (fneg mean))) l)).

(** [FracND.lacunarity_statistics] of an estimator that has been called;
    before the first call the attribute it reads does not exist. *)
Definition lacunarity_statistics {np : Numpy} {sq : Sqrt} (self : FracND)
  : Result (fvalue * fvalue * fvalue * fvalue) :=
  mn <- np_min_f (lacunarity_spectrum self) ;;
  mx <- np_max_f (lacunarity_spectrum self) ;;
  Ok (mn, mx, np_mean_f (lacunarity_spectrum self),
      np_std_f (lacunarity_spectrum self)).

(* ================================================================== *)
(** * fractal_analysis/analyzer.py *)

(** The exceptions of the analysis functions: those of the estimator and
    of numpy, the [ImportError] of [validate_fracnd], and the [TypeError] of
    an iteration over an array without axes. *)
Inductive analysis_exn : Type :=
| ImportError
| TypeError
| Raised (e : exn).

Inductive Outcome (A : Type) : Type :=
| Returned (a : A)
| Failed (e : analysis_exn).

Arguments Returned {A} a.
Arguments Failed {A} e.

Definition lift {A} (r : Result A) : Outcome A :=
  match r with
  | Ok a => Returned a
  | Raise e => Failed (Raised e)
  end.

(** [FractalConfig]; the attributes that have the names of attributes of
    [FracND] carry the prefix [cfg_]. *)
Record FractalConfig : Type := mk_FractalConfig {
  cfg_n_samples : Z;
  cfg_stride : option Z;
  cfg_subsample : option Q;
  subsample_intensity : option Q;
  intensity_levels : Z;
  save_plots : bool;
  plot_format : String.string;
  save_individual_results : bool
}.

(** [FractalConfig.__init__]. *)
Definition FractalConfig_init : FractalConfig :=
  mk_FractalConfig 100 (Some 2%Z) None (Some (1 # 100)) 255 true
    "png"%string true.

(** [validate_fracnd], for the value that the import of [fracnd] left in
    [FRACND_AVAILABLE]. *)
Definition validate_fracnd (FRACND_AVAILABLE : bool) : Outcome unit :=
  if FRACND_AVAILABLE then Returned tt else Failed ImportError.

(** [data[:, :, :, 0]] for an array of four axes. *)
Fixpoint thead {A} (dflt : A) (d : nat) : tensor A (S d) -> tensor A d :=
  match d with
  | O => fun row : list A => hd dflt row
  | S k => fun l : list (tensor A (S k)) => map (thead dflt k) l
  end.

(** The handling of 4D data: [if len(data.shape) == 4: data = data[:, :, :, 0]]. *)
Definition first_volume (data : ndarray Q) : Result (ndarray Q) :=
  match data with
  | mk_ndarray 4 sh t =>
      if Nat.eqb (nth 3 sh O) 0 then Raise IndexError
      else Ok (mk_ndarray 3 (firstn 3 sh) (thead 0 3 t))
  | _ => Ok data
  end.

(** [x, _, _ = array]: the iteration over the first axis has to give
    exactly three items. *)
Definition unpack3 (array : ndarray Q) : Outcome (ndarray Q) :=
  match array with
  | mk_ndarray O _ _ => Failed TypeError
  | mk_ndarray (S d) sh t =>
      match t with
      | [x; _; _] => Returned (mk_ndarray d (tl sh) x)
      | _ => Failed (Raised ValueError)
      end
  end.

(** numpy broadcasting of two shapes, from the last axis backwards. *)
Fixpoint broadcast_rev (r1 r2 : list nat) : option (list nat) :=
  match r1, r2 with
  | [], r => Some r
  | r, [] => Some r
  | a :: r1', b :: r2' =>
      match broadcast_rev r1' r2' with
      | None => None
      | Some r =>
          if Nat.eqb a b then Some (a :: r)
          else if Nat.eqb a 1 then Some (b :: r)
          else if Nat.eqb b 1 then Some (a :: r)
          else None
      end
  end.

Definition broadcast_shapes (s1 s2 : list nat) : option (list nat) :=
  option_map (@rev nat) (broadcast_rev (rev s1) (rev s2)).

(** The index of an operand that an index of the broadcast result reads. *)
Definition project_index (sh idx : list nat) : list nat :=
  map (fun p => if Nat.eqb (fst p) 1 then O else snd p)
      (combine sh (skipn (length idx - length sh) idx)).

Fixpoint tbuild {A} (d : nat) (sh : list nat) (f : list nat -> A)
  : tensor A d :=
  match d with
  | O => f []
  | S k =>
      match sh with
      | [] => []
      | n :: ns => map (fun i => tbuild k ns (fun idx => f (i :: idx))) (seq 0 n)
      end
  end.

Definition item (a : ndarray Q) (idx : list nat) : Q :=
  match tget (ndim a) idx (items a) with
  | Some v => v
  | None => 0
  end.

(** [a * b] on arrays. *)
Definition multiply (a b : ndarray Q) : Result (ndarray Q) :=
  match broadcast_shapes (shape a) (shape b) with
  | None => Raise ValueError
  | Some sh =>
      Ok (mk_ndarray (length sh) sh
            (tbuild (length sh) sh
               (fun idx => item a (project_index (shape a) idx)
                           * item b (project_index (shape b) idx))))
  end.

(** The array part of [load_and_prepare_segmentation]: [seg_data] is the
    array that nibabel loads from the file. *)
Definition load_and_prepare_segmentation (seg_data : ndarray Q)
  : Result (ndarray Q * list nat * list nat) :=
  seg_data <- first_volume seg_data ;;
  crop_segmentation seg_data.

(** The dictionary that the two analysis functions return when no plot is
    written; [FD] and [LD] are read off the two fits. *)
Record analysis_results {np : Numpy} : Type := mk_results {
  res_FD : option fit_result;
  res_LD : option fit_result;
  res_lacunarity_stats : fvalue * fvalue * fvalue * fvalue;
  res_modality : option String.string
}.

Arguments mk_results {np}.

Section Analyzer.

Context {np : Numpy} {sq : Sqrt}.

(** The estimator call and the results that both analysis functions share. *)
Definition run_estimator (fractal_calculator : FracND) (data : ndarray Q)
    (modality : option String.string) (g : rng_state)
  : Outcome analysis_results * rng_state :=
  match call fractal_calculator data g with
  | (Raise e, _, g') => (Failed (Raised e), g')
  | (Ok _, fractal_calculator, g') =>
      (lift (stats <- lacunarity_statistics fractal_calculator ;;
             Ok (mk_results (FD_fit fractal_calculator)
                            (LD_fit fractal_calculator) stats modality)),
       g')
  end.

(** [analyze_segmentation_fractal_dimension(seg_data, config)], called
    without [patient_id] and [output_folder], so that no plot is written. *)
Definition analyze_segmentation_fractal_dimension (FRACND_AVAILABLE : bool)
    (seg_data : ndarray Q) (config : option FractalConfig) (g : rng_state)
  : Outcome analysis_results * rng_state :=
  match validate_fracnd FRACND_AVAILABLE with
  | Failed e => (Failed e, g)
  | Returned _ =>
      let config := match config with
                    | Some c => c
                    | None => FractalConfig_init
                    end in
      let fractal_calculator :=
        init None 1 (cfg_stride config) (cfg_n_samples config)
             (cfg_subsample config) true None None in
      run_estimator fractal_calculator seg_data None g
  end.

(** [analyze_intensity_lacunarity(image_data, seg_data, minima, maxima,
    modality, config)], called without [patient_id] and [output_folder]. *)
Definition analyze_intensity_lacunarity (FRACND_AVAILABLE : bool)
    (image_data seg_data : ndarray Q) (minima maxima : list nat)
    (modality : String.string) (config : option FractalConfig)
    (g : rng_state)
  : Outcome analysis_results * rng_state :=
  match validate_fracnd FRACND_AVAILABLE with
  | Failed e => (Failed e, g)
  | Returned _ =>
      let config := match config with
                    | Some c => c
                    | None => FractalConfig_init
                    end in
      match (image_data <- first_volume image_data ;;
             crop_image image_data minima maxima) with
      | Raise e => (Failed (Raised e), g)
      | Ok cropped_image =>
      match crop_segmentation seg_data with
      | Raise e => (Failed (Raised e), g)
      | Ok (cropped, _, _) =>
      match unpack3 cropped with
      | Failed e => (Failed e, g)
      | Returned cropped_seg =>
      match (masked_image <- multiply cropped_image cropped_seg ;;
             greyscale_to_binary masked_image (intensity_levels config)) with
      | Raise e => (Failed (Raised e), g)
      | Ok binary_image =>
          let fractal_calculator :=
            init None 1 (cfg_stride config) (cfg_n_samples config)
                 (subsample_intensity config) true None None in
          run_estimator fractal_calculator (array_map inject_Z binary_image)
                        (Some modality) g
      end end end end
  end.

End Analyzer.

(* ================================================================== *)
(** * Further definitions used in the statements *)

(** The constructor arguments other than [max_box_size]. *)
Definition same_parameters {np : Numpy} (s1 s2 : FracND) : Prop :=
  min_box_size s1 = min_box_size s2 /\ stride s1 = stride s2
  /\ n_samples s1 = n_samples s2 /\ subsample s1 = subsample s2
  /\ multiprocess s1 = multiprocess s2 /\ histogram s1 = histogram s2
  /\ bins s1 = bins s2.

(** A lacunarity that is plus infinity or a number not below 1. *)
Definition at_least_one (v : fvalue) : Prop :=
  match v with
  | Finite q => 1 <= q
  | PosInf => True
  | NegInf | NaN => False
  end.

(** The exponent of the largest scale that a call on [input_array] uses. *)
Definition effective_max_box_size {np : Numpy} (self : FracND)
    (input_array : ndarray Q) : Result Z :=
  match max_box_size self with
  | None => default_max_box_size (shape input_array)
  | Some m => Ok m
  end.

(** A rational approximation of the square root from below. *)
Definition example_sqrt : Sqrt :=
  {| np_sqrt := fun q => Qmake (Z.sqrt (Qnum q * Z.pos (Qden q))) (Qden q) |}.

Definition row_12 : ndarray Q :=
  mk_ndarray 1 [12%nat] [0; 1; 1; 0; 0; 0; 1; 0; 1; 1; 0; 1].

Definition image_2x2x3 : ndarray Q :=
  mk_ndarray 3 [2%nat; 2%nat; 3%nat]
    [[[4; 9; 2]; [6; 3; 5]]; [[8; 1; 7]; [2; 5; 3]]].

Definition seg_3x2x2 : ndarray Q :=
  mk_ndarray 3 [3%nat; 2%nat; 2%nat]
    [[[1; 0]; [0; 1]]; [[0; 0]; [1; 0]]; [[0; 1]; [0; 0]]].

Definition image_3x2x2 : ndarray Q :=
  mk_ndarray 3 [3%nat; 2%nat; 2%nat]
    [[[4; 9]; [2; 6]]; [[3; 5]; [8; 1]]; [[7; 2]; [5; 3]]].

(** [FractalConfig()] with four samples, three intensity levels and no
    subsampling. *)
Definition small_config : FractalConfig :=
  mk_FractalConfig 4 (Some 2%Z) None None 3 false String.EmptyString false.

(* ================================================================== *)
(** * Proof automation *)

Ltac raised_elsewhere H :=
  cbn [fst]; let E := fresh in intros E; injection E as ->; now apply H.

Ltac as_list t :=
  match type of t with
  | tensor ?A (S ?k) => change (list (tensor A k)) in t
  end.

(* ================================================================== *)
(** * Properties *)

(** ** Lists *)

Lemma length_flat_map_const {A B} (f : A -> list B) (m : nat) (l : list A) :
  (forall x, In x l -> length (f x) = m) ->
  length (flat_map f l) = (length l * m)%nat.
Proof.
  induction l as [|x l IH]; intros H; simpl; [reflexivity|].
  rewrite length_app, IH, (H x).
  - reflexivity.
  - now left.
  - intros y Hy. apply H. now right.
Qed.

Lemma In_firstn {A} (n : nat) (l : list A) (x : A) :
  In x (firstn n l) -> In x l.
Proof.
  revert l. induction n as [|n IH]; intros [|y l]; simpl; try tauto.
  intros [H|H]; auto.
Qed.

Lemma In_skipn {A} (n : nat) (l : list A) (x : A) :
  In x (skipn n l) -> In x l.
Proof.
  revert l. induction n as [|n IH]; intros [|y l]; simpl; try tauto.
  intros H. right. auto.
Qed.

Lemma In_window {A} (off len : nat) (l : list A) (x : A) :
  In x (firstn len (skipn off l)) -> In x l.
Proof. intros H. eapply In_skipn, In_firstn, H. Qed.

Lemma length_ndindex (cs : list nat) : length (ndindex cs) = nat_prod cs.
Proof.
  induction cs as [|n ns IH]; simpl; [reflexivity|].
  rewrite (length_flat_map_const _ (nat_prod ns)).
  - now rewrite length_seq.
  - intros i _. now rewrite length_map.
Qed.

Lemma Zprod_of_nat (l : list nat) :
  Zprod (map Z.of_nat l) = Z.of_nat (nat_prod l).
Proof.
  induction l as [|n l IH]; simpl; [reflexivity|].
  unfold Zprod in *. simpl. rewrite IH. lia.
Qed.

Lemma ndindex_bounds (cs : list nat) (idx : list nat) :
  In idx (ndindex cs) -> Forall2 lt idx cs.
Proof.
  revert idx. induction cs as [|n ns IH]; simpl; intros idx H.
  - destruct H as [<-|[]]. constructor.
  - apply in_flat_map in H. destruct H as [i [Hi H]].
    apply in_map_iff in H. destruct H as [r [<- Hr]].
    apply in_seq in Hi. constructor; [lia|auto].
Qed.

(** ** Integer reductions *)

Lemma wrap64_small (z : Z) : (- 2 ^ 63 <= z < 2 ^ 63)%Z -> wrap64 z = z.
Proof.
  intros H. unfold wrap64. rewrite Z.mod_small; lia.
Qed.

Lemma Zprod_between (cs ns : list Z) :
  Forall2 (fun c n => 1 <= c <= n)%Z cs ns ->
  (1 <= Zprod cs <= Zprod ns)%Z.
Proof.
  induction 1 as [|c n cs ns Hc _ IH]; unfold Zprod in *; simpl; [lia|]. nia.
Qed.

(** ** Windows that fit *)

Lemma window_slices_cons s d i r :
  window_slices s d (i :: r)
  = ((Z.of_nat i * d)%Z, (Z.of_nat i * d + s)%Z) :: window_slices s d r.
Proof. reflexivity. Qed.

Lemma slice_bounds_fit (st s : Z) (n : nat) :
  (0 <= st)%Z -> (0 <= s)%Z -> (st + s <= Z.of_nat n)%Z ->
  slice_bounds st (st + s) n = (Z.to_nat st, Z.to_nat s).
Proof.
  intros H1 H2 H3. unfold slice_bounds.
  destruct (Z.ltb_spec st 0); [lia|].
  destruct (Z.ltb_spec (st + s) 0); [lia|].
  f_equal; f_equal; lia.
Qed.

Lemma has_shape_cons {A} k n ns (l : list (tensor A k)) :
  has_shape (S k) (n :: ns) l = true ->
  length l = n /\ forall x, In x l -> has_shape k ns x = true.
Proof.
  simpl. intros H. apply andb_prop in H. destruct H as [H1 H2].
  apply Nat.eqb_eq in H1. split; [exact H1|].
  now apply forallb_forall.
Qed.

Lemma length_flatten_window {A} (s d : Z) :
  (0 <= s)%Z -> (0 <= d)%Z ->
  forall k (sh idx : list nat) (t : tensor A k),
    has_shape k sh t = true ->
    Forall2 (fits s d) idx sh ->
    length (flatten k (tslice k (window_slices s d idx) t))
    = (Z.to_nat s ^ k)%nat.
Proof.
  intros Hs Hd. induction k as [|k IH]; intros sh idx t Hsh Hfit.
  - reflexivity.
  - destruct Hfit as [|i n idx ns Hi Hr].
    + simpl in Hsh. discriminate.
    + apply has_shape_cons in Hsh. destruct Hsh as [Hlen Hsub].
      rewrite window_slices_cons. cbn [tslice flatten].
      unfold fits in Hi. rewrite Hlen.
      rewrite slice_bounds_fit by lia.
      rewrite flat_map_concat_map, map_map, <- flat_map_concat_map.
      rewrite (length_flat_map_const _ (Z.to_nat s ^ k)%nat).
      * rewrite length_firstn, length_skipn, Hlen.
        rewrite Nat.min_l by lia. simpl. lia.
      * intros x Hx. apply (IH ns); [|exact Hr].
        apply Hsub. eapply In_window, Hx.
Qed.

Lemma flatten_slice_incl {A} k (sl : list (Z * Z)) (t : tensor A k) (x : A) :
  In x (flatten k (tslice k sl t)) -> In x (flatten k t).
Proof.
  revert sl t. induction k as [|k IH]; intros sl t H; [exact H|].
  destruct sl as [|[st en] rest]; [exact H|].
  cbn [tslice flatten] in *.
  destruct (slice_bounds st en (length t)) as [off len].
  apply in_flat_map in H. destruct H as [y [Hy Hx]].
  apply in_map_iff in Hy. destruct Hy as [z [<- Hz]].
  apply in_flat_map. exists z. split.
  - eapply In_window, Hz.
  - eapply IH; eauto.
Qed.

Lemma ravel_window_at (a : ndarray Q) s d idx :
  ravel (window_at a s d idx)
  = flatten (ndim a) (tslice (ndim a) (window_slices s d idx) (items a)).
Proof. reflexivity. Qed.

(** ** The scan without subsampling *)

Section Scan.

Context {np : Numpy}.

Lemma scan_windows_all (self : FracND) a s d idxs g :
  subsample self = None ->
  scan_windows self a s d idxs g
  = (Ok (map (fun i => Worker (window_at a s d i)) idxs), g).
Proof.
  intros Hs. induction idxs as [|i r IH]; simpl; [reflexivity|].
  rewrite Hs, IH. reflexivity.
Qed.

End Scan.

Lemma axis_counts_ok sh s d :
  d <> 0%Z ->
  axis_counts sh s d
  = Ok (map (fun n => (Z.quot (Z.of_nat n - s) d + 1)%Z) sh).
Proof.
  intros Hd. destruct sh as [|n ns]; [reflexivity|].
  unfold axis_counts. destruct (Z.eqb_spec d 0); [contradiction|reflexivity].
Qed.

Lemma quot_counts_floor sh s d :
  (0 < d)%Z -> Forall (fun n => (s <= Z.of_nat n)%Z) sh ->
  map (fun n => (Z.quot (Z.of_nat n - s) d + 1)%Z) sh
  = map Z.of_nat (floor_counts sh s d).
Proof.
  intros Hd H. unfold floor_counts. rewrite map_map.
  apply map_ext_in. intros n Hn.
  rewrite Forall_forall in H. specialize (H n Hn).
  rewrite Z.quot_div_nonneg by lia.
  assert (0 <= (Z.of_nat n - s) / d)%Z by (apply Z.div_pos; lia).
  lia.
Qed.

Lemma floor_counts_range sh s d :
  (0 < s)%Z -> (0 < d)%Z -> Forall (fun n => (s <= Z.of_nat n)%Z) sh ->
  Forall2 (fun c n => 1 <= c <= n)%Z
          (map Z.of_nat (floor_counts sh s d)) (map Z.of_nat sh).
Proof.
  intros Hs Hd H. induction H as [|n ns Hn _ IH]; simpl; constructor; auto.
  assert (0 <= (Z.of_nat n - s) / d)%Z by (apply Z.div_pos; lia).
  assert ((Z.of_nat n - s) / d <= Z.of_nat n - s)%Z
    by (apply Z.div_le_upper_bound; nia).
  remember ((Z.of_nat n - s) / d)%Z as q.
  lia.
Qed.

Lemma floor_counts_fit sh s d idx :
  (0 < d)%Z -> Forall (fun n => (s <= Z.of_nat n)%Z) sh ->
  Forall2 lt idx (floor_counts sh s d) ->
  Forall2 (fits s d) idx sh.
Proof.
  intros Hd H. revert idx.
  induction H as [|n ns Hn _ IH]; intros idx Hi;
    unfold floor_counts in Hi; cbn [map] in Hi.
  - inversion Hi. constructor.
  - inversion Hi as [|i c r cs Hic Hr]; subst. constructor; [|auto].
    unfold fits.
    assert (H0 : (0 <= (Z.of_nat n - s) / d)%Z) by (apply Z.div_pos; lia).
    assert (H1 : (d * ((Z.of_nat n - s) / d) <= Z.of_nat n - s)%Z)
      by (apply Z.mul_div_le; lia).
    remember ((Z.of_nat n - s) / d)%Z as q.
    assert (Z.of_nat i <= q)%Z by lia.
    nia.
Qed.

Lemma Worker_touched_range w : (0 <= fst (Worker w) <= 1)%Z.
Proof.
  unfold Worker. cbn [fst]. destruct (forallb _ _); lia.
Qed.

Lemma Zsum_flags (l : list Z) :
  Forall (fun t => 0 <= t <= 1)%Z l ->
  (0 <= Zsum l <= Z.of_nat (length l))%Z.
Proof.
  induction 1 as [|t l Ht _ IH]; unfold Zsum in *; simpl; lia.
Qed.

Lemma Qeq_bool_inject_Z_0 (z : Z) : z <> 0%Z -> Qeq_bool (inject_Z z) 0 = false.
Proof.
  intros H. destruct (Qeq_bool (inject_Z z) 0) eqn:E; [|reflexivity].
  apply Qeq_bool_eq in E. unfold Qeq in E. simpl in E. lia.
Qed.

Lemma true_divide_Z (b w : Z) :
  w <> 0%Z ->
  true_divide (inject_Z b) (inject_Z w) = Finite (inject_Z b / inject_Z w).
Proof.
  intros H. unfold true_divide. now rewrite Qeq_bool_inject_Z_0.
Qed.

Lemma int_of_Q_floor (q : Q) : 0 <= q -> int_of_Q q = Qfloor q.
Proof.
  intros H. destruct q as [n d]. unfold int_of_Q, Qfloor. simpl.
  apply Z.quot_div_nonneg; [|lia].
  unfold Qle in H. simpl in H. lia.
Qed.

Lemma int_of_scaled_ratio (t b w : Z) :
  (0 <= t)%Z -> (0 <= b)%Z -> (0 < w)%Z ->
  int_of_Q (inject_Z t * (inject_Z b / inject_Z w)) = (t * b / w)%Z.
Proof.
  intros Ht Hb Hw.
  assert (E : inject_Z t * (inject_Z b / inject_Z w)
              == inject_Z (t * b) / inject_Z w).
  { rewrite inject_Z_mult. field.
    intros H. apply (inject_Z_injective w 0) in H. lia. }
  rewrite int_of_Q_floor.
  - rewrite (Qfloor_comp _ _ E). symmetry. apply Zdiv_Qdiv.
  - rewrite E. apply Qle_shift_div_l.
    + change 0 with (inject_Z 0). rewrite <- Zlt_Qlt. lia.
    + rewrite Qmult_0_l. change 0 with (inject_Z 0). rewrite <- Zle_Qle. nia.
Qed.

Section ScanResult.

Context {np : Numpy}.

Lemma well_formed_inv {A} (a : ndarray A) :
  well_formed a = true ->
  length (shape a) = ndim a
  /\ has_shape (ndim a) (shape a) (items a) = true
  /\ (Zprod (map Z.of_nat (shape a)) < 2 ^ 63)%Z.
Proof.
  unfold well_formed. intros H. apply andb_prop in H.
  destruct H as [H1 H3]. apply andb_prop in H1. destruct H1 as [H1 H2].
  repeat split; [now apply Nat.eqb_eq|exact H2|now apply Z.ltb_lt].
Qed.

Lemma window_results_length a s d :
  length (window_results a s d) = nat_prod (floor_counts (shape a) s d).
Proof. unfold window_results. now rewrite length_map, length_ndindex. Qed.

(** In sequential mode the scan never returns: either no window is
    evaluated, or line 95 asks a tuple for its [get]. *)
Lemma sliding_window_statistics_sequential (self : FracND) a s d g r :
  multiprocess self = false ->
  fst (sliding_window_statistics self a s d g) <> Ok r.
Proof.
  intros Hmp. unfold sliding_window_statistics.
  destruct (axis_counts (shape a) s d) as [wc|e]; [|discriminate].
  destruct (axis_counts (shape a) s s) as [bc|e]; [|discriminate].
  destruct (np_ndindex wc) as [idxs|e]; [|discriminate].
  destruct (scan_windows self a s d idxs g) as [[results|e] g']; [|discriminate].
  cbn [fst bind]. destruct results; [discriminate|].
  rewrite Hmp. discriminate.
Qed.

Lemma sliding_window_statistics_pool (self : FracND) a s d g r :
  fst (sliding_window_statistics self a s d g) = Ok r ->
  multiprocess self = true.
Proof.
  intros H. destruct (multiprocess self) eqn:E; [reflexivity|].
  exfalso. exact (sliding_window_statistics_sequential self a s d g r E H).
Qed.

Lemma sliding_window_statistics_scan (self : FracND) a s d g :
  multiprocess self = true ->
  subsample self = None -> well_formed a = true ->
  (0 < s)%Z -> (0 < d)%Z ->
  Forall (fun n => (s <= Z.of_nat n)%Z) (shape a) ->
  sliding_window_statistics self a s d g = (scan_outcome self a s d, g).
Proof.
  intros Hmp Hsub Hwf Hs Hd Hfit.
  destruct (well_formed_inv a Hwf) as [_ [_ Hsize]].
  pose proof (floor_counts_range _ _ _ Hs Hd Hfit) as HW.
  pose proof (floor_counts_range _ _ _ Hs Hs Hfit) as HB.
  apply Zprod_between in HW. apply Zprod_between in HB.
  unfold sliding_window_statistics.
  rewrite !axis_counts_ok by lia.
  rewrite !quot_counts_floor by auto.
  rewrite Hsub.
  unfold np_ndindex.
  replace (forallb _ (map Z.of_nat (floor_counts (shape a) s d))) with true.
  2:{ symmetry. apply forallb_forall. intros c Hc.
      apply in_map_iff in Hc. destruct Hc as [n [<- _]].
      apply Z.leb_le. lia. }
  rewrite map_map.
  rewrite (map_ext (fun x => Z.to_nat (Z.of_nat x)) (fun x => x))
    by (intros; apply Nat2Z.id).
  rewrite map_id.
  rewrite scan_windows_all by exact Hsub.
  fold (window_results a s d).
  unfold scan_outcome, box_count.
  pose proof (window_results_length a s d) as Hlen.
  set (results := window_results a s d) in *.
  assert (HWn : Zprod (map Z.of_nat (floor_counts (shape a) s d))
                = Z.of_nat (length results))
    by (rewrite Hlen; apply Zprod_of_nat).
  assert (Hflags : (0 <= Zsum (map fst results) <= Z.of_nat (length results))%Z).
  { rewrite <- (length_map fst results). apply Zsum_flags.
    apply Forall_forall. intros t Ht. apply in_map_iff in Ht.
    destruct Ht as [r [<- Hr]]. unfold results, window_results in Hr.
    apply in_map_iff in Hr. destruct Hr as [i [<- _]].
    apply Worker_touched_range. }
  f_equal. cbn [bind].
  destruct results as [|r0 rs] eqn:Eres.
  { simpl in HWn. lia. }
  rewrite <- Eres in *. clear Eres.
  rewrite Hmp. cbn [negb].
  unfold np_prod, np_sum_int.
  rewrite !wrap64_small by lia.
  assert (EB : map (fun n => ((Z.of_nat n - s) / s + 1)%Z) (shape a)
               = map Z.of_nat (floor_counts (shape a) s s)).
  { unfold floor_counts. rewrite map_map. apply map_ext_in. intros n Hn.
    rewrite Forall_forall in Hfit. specialize (Hfit n Hn).
    pose proof (Z.div_pos (Z.of_nat n - s) s).
    remember ((Z.of_nat n - s) / s)%Z as q. lia. }
  rewrite EB.
  rewrite true_divide_Z by lia.
  cbn [int_of_scaled bind].
  rewrite int_of_scaled_ratio by lia.
  reflexivity.
Qed.

End ScanResult.

Lemma window_shape_fit (s d : Z) (idx sh : list nat) :
  (0 <= s)%Z -> (0 <= d)%Z -> Forall2 (fits s d) idx sh ->
  slice_shape (window_slices s d idx) sh = map (fun _ => Z.to_nat s) sh.
Proof.
  intros Hs Hd H. induction H as [|i n idx ns Hi _ IH]; [reflexivity|].
  rewrite window_slices_cons. cbn [slice_shape map].
  unfold fits in Hi. rewrite slice_bounds_fit by lia.
  cbn [snd]. now rewrite IH.
Qed.

Section Claims.

Context {np : Numpy}.

Lemma np_histogram_raises xs k e :
  np_histogram xs k = Raise e -> (k < 1)%Z.
Proof.
  unfold np_histogram. destruct xs; destruct (Z.ltb_spec k 1); auto; discriminate.
Qed.

Lemma mass_distribution_raises (self : FracND) xs e :
  mass_distribution self xs = Raise e ->
  histogram self = true /\ (bin_count self xs < 1)%Z.
Proof.
  unfold mass_distribution. destruct (histogram self).
  - intros H. split; [reflexivity|].
    destruct (np_histogram xs (bin_count self xs)) as [[p b]|e'] eqn:E.
    + discriminate.
    + eapply np_histogram_raises, E.
  - destruct (np_unique_counts xs). discriminate.
Qed.

Lemma scan_outcome_raises (self : FracND) a s d e :
  scan_outcome self a s d = Raise e -> histogram self = true.
Proof.
  unfold scan_outcome.
  destruct (Zsum (map fst (window_results a s d)) =? 0)%Z.
  - destruct (histogram self); [reflexivity|discriminate].
  - destruct (mass_distribution self _) eqn:E; [discriminate|].
    intros _. eapply mass_distribution_raises, E.
Qed.

Lemma scan_outcome_count (self : FracND) a s d N lac :
  scan_outcome self a s d = Ok (N, lac) -> N = box_count a s d.
Proof.
  unfold scan_outcome.
  destruct (Zsum (map fst (window_results a s d)) =? 0)%Z.
  - destruct (histogram self); [discriminate|]. now intros [= <- _].
  - destruct (mass_distribution self _); [|discriminate]. now intros [= <- _].
Qed.

End Claims.

Lemma Worker_touched (w : ndarray Q) :
  ravel w <> [] -> Forall (fun x => 0 < x) (ravel w) -> fst (Worker w) = 1%Z.
Proof.
  unfold Worker. cbn [fst]. destruct (ravel w) as [|x r]; [congruence|].
  intros _ H. inversion H as [|? ? Hx _]; subst. cbn [map forallb].
  destruct (Qlt_le_dec 0 x) as [_|Hle]; [reflexivity|].
  exfalso. apply (Qlt_irrefl 0). eapply Qlt_le_trans; eauto.
Qed.

Lemma window_items (P : Q -> Prop) (a : ndarray Q) s d i :
  well_formed a = true -> (0 < s)%Z -> (0 < d)%Z ->
  Forall (fun n => (s <= Z.of_nat n)%Z) (shape a) ->
  In i (ndindex (floor_counts (shape a) s d)) ->
  Forall P (ravel a) ->
  length (ravel (window_at a s d i)) = (Z.to_nat s ^ ndim a)%nat
  /\ Forall P (ravel (window_at a s d i)).
Proof.
  intros Hwf Hs Hd Hfit Hi HP.
  destruct (well_formed_inv a Hwf) as [_ [Hsh _]].
  apply ndindex_bounds in Hi.
  apply (floor_counts_fit _ _ _ _ Hd Hfit) in Hi.
  rewrite ravel_window_at. split.
  - apply (length_flatten_window s d) with (sh := shape a); auto; lia.
  - apply Forall_forall. intros x Hx. apply flatten_slice_incl in Hx.
    rewrite Forall_forall in HP. now apply HP.
Qed.

Lemma pow_pos_nat (n k : nat) : (0 < n)%nat -> (0 < n ^ k)%nat.
Proof.
  intros H. induction k as [|k IH]; simpl; [lia|]. nia.
Qed.

Lemma all_windows_touched (a : ndarray Q) s d :
  well_formed a = true -> (0 < s)%Z -> (0 < d)%Z ->
  Forall (fun n => (s <= Z.of_nat n)%Z) (shape a) ->
  Forall (fun x => 0 < x) (ravel a) ->
  Forall (fun r => fst r = 1%Z) (window_results a s d).
Proof.
  intros Hwf Hs Hd Hfit Hpos. apply Forall_forall. intros r Hr.
  unfold window_results in Hr. apply in_map_iff in Hr.
  destruct Hr as [i [<- Hi]].
  destruct (window_items (fun x => 0 < x) a s d i Hwf Hs Hd Hfit Hi Hpos)
    as [Hlen Hall].
  apply Worker_touched; [|exact Hall].
  intros E. rewrite E in Hlen. simpl in Hlen.
  pose proof (pow_pos_nat (Z.to_nat s) (ndim a)). lia.
Qed.

Lemma Zsum_all_ones (l : list (Z * Q)) :
  Forall (fun r => fst r = 1%Z) l -> Zsum (map fst l) = Z.of_nat (length l).
Proof.
  induction 1 as [|r l Hr _ IH]; [reflexivity|].
  cbn [map length]. unfold Zsum in *. cbn [fold_right]. rewrite IH, Hr. lia.
Qed.

Lemma touched_total_full (a : ndarray Q) s d :
  well_formed a = true -> (0 < s)%Z -> (0 < d)%Z ->
  Forall (fun n => (s <= Z.of_nat n)%Z) (shape a) ->
  Forall (fun x => 0 < x) (ravel a) ->
  Zsum (map fst (window_results a s d))
  = Zprod (map Z.of_nat (floor_counts (shape a) s d))
  /\ (0 < Zprod (map Z.of_nat (floor_counts (shape a) s d)))%Z.
Proof.
  intros Hwf Hs Hd Hfit Hpos.
  rewrite Zsum_all_ones by (apply all_windows_touched; assumption).
  rewrite window_results_length, Zprod_of_nat. split; [reflexivity|].
  pose proof (floor_counts_range _ _ _ Hs Hd Hfit) as HW.
  apply Zprod_between in HW. rewrite Zprod_of_nat in HW. lia.
Qed.

Lemma box_count_full (a : ndarray Q) s :
  well_formed a = true -> (0 < s)%Z ->
  Forall (fun n => (s <= Z.of_nat n)%Z) (shape a) ->
  Forall (fun x => 0 < x) (ravel a) ->
  box_count a s s = Zprod (map (fun n => ((Z.of_nat n - s) / s + 1)%Z) (shape a)).
Proof.
  intros Hwf Hs Hfit Hpos. unfold box_count.
  destruct (touched_total_full a s s Hwf Hs Hs Hfit Hpos) as [-> HW].
  rewrite Z.mul_comm. apply Z.div_mul. lia.
Qed.

Section Solid.

Context {np : Numpy}.

Lemma scan_outcome_raises_touched (self : FracND) a s d e :
  Zsum (map fst (window_results a s d)) <> 0%Z ->
  scan_outcome self a s d = Raise e ->
  histogram self = true /\ (bin_count self (normalised_masses a s d) < 1)%Z.
Proof.
  intros HT. unfold scan_outcome.
  destruct (Z.eqb_spec (Zsum (map fst (window_results a s d))) 0);
    [contradiction|].
  destruct (mass_distribution self _) eqn:E; [discriminate|].
  intros _. eapply mass_distribution_raises, E.
Qed.

Lemma Zprod_repeat (x : Z) (n : nat) : Zprod (repeat x n) = (x ^ Z.of_nat n)%Z.
Proof.
  induction n as [|n IH]; [reflexivity|].
  cbn [repeat]. unfold Zprod in *. cbn [fold_right]. rewrite IH.
  rewrite Nat2Z.inj_succ, Z.pow_succ_r by lia. reflexivity.
Qed.

(** Property X24.  With the worker pool, without subsampling and with the
    stride equal to the window size, a solid volume of side [2^k] along each
    of its [d] axes, all elements strictly positive, has box count 1 at
    scale [2^k] and [2^(k*d)] at scale 1.  A failure is possible only in
    histogram mode with a bin count below 1. *)
Theorem solid_box_counts (self : FracND) (a : ndarray Q) (k : nat)
    (g : rng_state) :
  multiprocess self = true ->
  subsample self = None -> well_formed a = true ->
  shape a = repeat (2 ^ k)%nat (ndim a) ->
  Forall (fun x => 0 < x) (ravel a) ->
  let top := (2 ^ Z.of_nat k)%Z in
  match fst (sliding_window_statistics self a top top g) with
  | Ok (N, _) => N = 1%Z
  | Raise _ =>
      histogram self = true
      /\ (bin_count self (normalised_masses a top top) < 1)%Z
  end
  /\ match fst (sliding_window_statistics self a 1 1 g) with
     | Ok (N, _) => N = (2 ^ (Z.of_nat k * Z.of_nat (ndim a)))%Z
     | Raise _ =>
         histogram self = true
         /\ (bin_count self (normalised_masses a 1 1) < 1)%Z
     end.
Proof.
  intros Hmp Hsub Hwf Hshape Hpos top.
  assert (Htop : (0 < top)%Z) by (apply Z.pow_pos_nonneg; lia).
  assert (Hside : Z.of_nat (2 ^ k) = top)
    by (unfold top; now rewrite Nat2Z.inj_pow).
  assert (Hfit : forall s, (0 < s <= top)%Z ->
            Forall (fun n => (s <= Z.of_nat n)%Z) (shape a)).
  { intros s Hs. rewrite Hshape. apply Forall_forall. intros n Hn.
    apply repeat_spec in Hn. subst n. lia. }
  split.
  - rewrite sliding_window_statistics_scan; auto; [|apply Hfit; lia].
    cbn [fst].
    destruct (scan_outcome self a top top) as [[N lac]|e] eqn:E.
    + apply scan_outcome_count in E. subst N.
      rewrite box_count_full; auto; [|apply Hfit; lia].
      rewrite Hshape, map_repeat, Hside, Z.sub_diag, Z.div_0_l by lia.
      rewrite Zprod_repeat. apply Z.pow_1_l. lia.
    + eapply scan_outcome_raises_touched; [|exact E].
      destruct (touched_total_full a top top) as [-> HW]; auto; [|lia].
      apply Hfit; lia.
  - assert (H1 : (0 < 1 <= top)%Z) by lia.
    rewrite sliding_window_statistics_scan; auto; [|lia|lia].
    cbn [fst].
    destruct (scan_outcome self a 1 1) as [[N lac]|e] eqn:E.
    + apply scan_outcome_count in E. subst N.
      rewrite box_count_full; auto; [|lia].
      rewrite Hshape, map_repeat, Hside, Z.div_1_r.
      rewrite Zprod_repeat. replace (top - 1 + 1)%Z with top by lia.
      unfold top. rewrite <- Z.pow_mul_r by lia. reflexivity.
    + eapply scan_outcome_raises_touched; [|exact E].
      destruct (touched_total_full a 1 1) as [-> HW]; auto; lia.
Qed.

End Solid.

(** ** A homogeneous mass field *)

Lemma Qsum_const (c : Q) (l : list Q) :
  Forall (fun x => x == c) l ->
  Qsum l == inject_Z (Z.of_nat (length l)) * c.
Proof.
  induction 1 as [|x l Hx _ IH].
  - simpl. ring.
  - cbn [length]. rewrite Nat2Z.inj_succ. unfold Z.succ.
    rewrite inject_Z_plus. unfold Qsum in *. cbn [fold_right].
    rewrite IH, Hx. ring.
Qed.

Lemma fold_unique_const (v : Q) (xs : list Q) :
  xs <> [] -> Forall (fun x => x == v) xs ->
  exists y, y == v
    /\ fold_right unique_insert [] xs = [(y, Z.of_nat (length xs))].
Proof.
  induction xs as [|x r IH]; intros Hne H; [congruence|].
  inversion H as [|? ? Hx Hr]; subst.
  destruct r as [|x' r'].
  - exists x. split; [exact Hx|reflexivity].
  - destruct IH as [y [Hy E]]; [discriminate|exact Hr|].
    exists y. split; [exact Hy|].
    cbn [fold_right] in *. rewrite E. cbn [unique_insert].
    assert (Hc : (x ?= y) = Eq) by (apply Qeq_alt; now rewrite Hx, Hy).
    rewrite Hc. f_equal. f_equal.
    cbn [length]. lia.
Qed.

Section Lacunarity.

Context {np : Numpy}.

Lemma lacunarity_point (y p : Q) :
  p == 1 -> ~ y == 0 ->
  exists q, lacunarity_of [y] [p] = Finite q /\ q == 1.
Proof.
  intros Hp Hy. unfold lacunarity_of. cbn [combine map fst snd].
  unfold Qsum. cbn [fold_right].
  set (mean := p * y + 0).
  assert (Hm : mean == y) by (unfold mean; rewrite Hp; ring).
  assert (Hmm : ~ mean * mean == 0).
  { rewrite Hm. intros H. apply Qmult_integral in H. tauto. }
  unfold true_divide.
  destruct (Qeq_bool (mean * mean) 0) eqn:E.
  { apply Qeq_bool_eq in E. contradiction. }
  cbn [fadd1]. eexists. split; [reflexivity|].
  rewrite Hm. field. exact Hy.
Qed.

Lemma unique_distribution_const (self : FracND) (v : Q) (xs : list Q) :
  histogram self = false -> xs <> [] -> Forall (fun x => x == v) xs ->
  exists y p, y == v /\ p == 1 /\ mass_distribution self xs = Ok ([y], [p]).
Proof.
  intros Hh Hne H. unfold mass_distribution. rewrite Hh.
  destruct (fold_unique_const v xs Hne H) as [y [Hy E]].
  unfold np_unique_counts. rewrite E. cbn [List.split].
  assert (Hn : (0 < Z.of_nat (length xs))%Z) by (destruct xs; [congruence|simpl; lia]).
  cbn [map]. destruct (Z.eqb_spec (Z.of_nat (length xs)) 0); [lia|].
  cbn [negb boolean_mask map]. unfold Qsum. cbn [fold_right].
  exists y, (inject_Z (Z.of_nat (length xs)) / (inject_Z (Z.of_nat (length xs)) + 0)).
  split; [exact Hy|]. split; [|reflexivity].
  assert (Hnz : ~ inject_Z (Z.of_nat (length xs)) == 0).
  { intros H0. apply Qeq_eq_bool in H0.
    rewrite Qeq_bool_inject_Z_0 in H0 by lia. discriminate. }
  field. exact Hnz.
Qed.

End Lacunarity.

(** ** The histogram of constant data *)

Lemma half_le (a n : Z) :
  (0 < n)%Z -> (inject_Z a / inject_Z n <= 1 # 2 <-> (2 * a <= n)%Z).
Proof.
  intros Hn. destruct n as [|p|p]; try lia.
  rewrite <- Qmake_Qdiv. unfold Qle. cbn [Qnum Qden]. lia.
Qed.

Lemma Qlist_min_const (v x : Q) (r : list Q) :
  x == v -> Forall (fun y => y == v) r -> Qlist_min x r == v.
Proof.
  intros Hx H. induction H as [|y r Hy _ IH]; [exact Hx|].
  unfold Qlist_min in *. cbn [fold_right]. rewrite IH, Hy. apply Q.min_id.
Qed.

Lemma Qlist_max_const (v x : Q) (r : list Q) :
  x == v -> Forall (fun y => y == v) r -> Qlist_max x r == v.
Proof.
  intros Hx H. induction H as [|y r Hy _ IH]; [exact Hx|].
  unfold Qlist_max in *. cbn [fold_right]. rewrite IH, Hy. apply Q.max_id.
Qed.

Lemma length_linspace_edges f l n : length (linspace_edges f l n) = S n.
Proof.
  unfold linspace_edges. rewrite length_app, length_map, length_seq. simpl. lia.
Qed.

Lemma nth_map_seq {A} (f : nat -> A) (d : A) (n s i : nat) :
  (i < n)%nat -> nth i (map f (seq s n)) d = f (s + i)%nat.
Proof.
  revert s i. induction n as [|n IH]; intros s i Hi; [lia|].
  cbn [seq map]. destruct i as [|i]; cbn [nth].
  - now rewrite Nat.add_0_r.
  - rewrite IH by lia. f_equal. lia.
Qed.

Lemma linspace_nth_lt f l n i :
  (i < n)%nat ->
  nth i (linspace_edges f l n) 0
  = f + inject_Z (Z.of_nat i) * ((l - f) / inject_Z (Z.of_nat n)).
Proof.
  intros Hi. unfold linspace_edges.
  rewrite app_nth1 by (rewrite length_map, length_seq; exact Hi).
  now rewrite nth_map_seq by exact Hi.
Qed.

Lemma linspace_nth_last f l n : nth n (linspace_edges f l n) 0 = l.
Proof.
  unfold linspace_edges.
  rewrite app_nth2 by (rewrite length_map, length_seq; lia).
  rewrite length_map, length_seq, Nat.sub_diag. reflexivity.
Qed.

Lemma linspace_nth f l n i :
  (0 < n)%nat -> (i <= n)%nat ->
  nth i (linspace_edges f l n) 0
  == f + inject_Z (Z.of_nat i) * ((l - f) / inject_Z (Z.of_nat n)).
Proof.
  intros Hn Hi. destruct (Nat.eq_dec i n) as [->|Hne].
  - rewrite linspace_nth_last. field.
    intros H. apply Qeq_eq_bool in H.
    rewrite Qeq_bool_inject_Z_0 in H by lia. discriminate.
  - rewrite linspace_nth_lt by lia. reflexivity.
Qed.

Lemma count_occ_b_const {A} (f : A -> bool) (b : bool) (l : list A) :
  Forall (fun x => f x = b) l ->
  count_occ_b f l = if b then Z.of_nat (length l) else 0%Z.
Proof.
  unfold count_occ_b. induction 1 as [|x l Hx _ IH].
  - now destruct b.
  - cbn [filter]. rewrite Hx. destruct b; cbn [length]; [|exact IH].
    rewrite !Nat2Z.inj_succ, IH. reflexivity.
Qed.

Lemma boolean_mask_none {A} (i0 : nat) (l : list A) (s : nat) :
  (i0 < s)%nat ->
  boolean_mask l (map (fun i => Nat.eqb i i0) (seq s (length l))) = [].
Proof.
  revert s. induction l as [|x l IH]; intros s H; [reflexivity|].
  cbn [length seq map boolean_mask].
  destruct (Nat.eqb_spec s i0); [lia|]. apply IH. lia.
Qed.

Lemma boolean_mask_single {A} (d : A) (i0 : nat) (l : list A) (s : nat) :
  (s <= i0 < s + length l)%nat ->
  boolean_mask l (map (fun i => Nat.eqb i i0) (seq s (length l)))
  = [nth (i0 - s) l d].
Proof.
  revert s. induction l as [|x l IH]; intros s H; cbn [length] in *; [lia|].
  cbn [seq map boolean_mask].
  destruct (Nat.eqb_spec s i0) as [->|Hne].
  - rewrite Nat.sub_diag. cbn [nth]. f_equal.
    apply boolean_mask_none. lia.
  - rewrite IH by lia. replace (i0 - s)%nat with (S (i0 - S s)) by lia.
    reflexivity.
Qed.

Lemma length_midpoints (edges : list Q) :
  length (midpoints edges) = pred (length edges).
Proof.
  induction edges as [|a [|b r] IH]; try reflexivity.
  cbn [midpoints length] in *. now rewrite IH.
Qed.

Lemma nth_midpoints (edges : list Q) (i : nat) :
  (S i < length edges)%nat ->
  nth i (midpoints edges) 0 = (nth i edges 0 + nth (S i) edges 0) / 2.
Proof.
  revert i. induction edges as [|a [|b r] IH]; intros i Hi; cbn [length] in Hi;
    try lia.
  destruct i as [|i].
  - reflexivity.
  - change (midpoints (a :: b :: r)) with ((a + b) / 2 :: midpoints (b :: r)).
    cbn [nth]. rewrite IH by (cbn [length]; lia). reflexivity.
Qed.

Lemma boolean_mask_pick {A} (d : A) (i0 n : nat) (l : list A) :
  length l = n -> (i0 < n)%nat ->
  boolean_mask l (map (fun i => Nat.eqb i i0) (seq 0 n)) = [nth i0 l d].
Proof.
  intros <- H. rewrite (boolean_mask_single d) by lia.
  now rewrite Nat.sub_0_r.
Qed.

Section ConstantBins.

Variables (v lo hi : Q) (n : nat).
Hypothesis Hn : (0 < n)%nat.
Hypothesis Hlo : lo == v.
Hypothesis Hhi : hi == v.

Lemma const_edge (i : nat) :
  (i <= n)%nat ->
  nth i (linspace_edges (lo - (1 # 2)) (hi + (1 # 2)) n) 0
  == v - (1 # 2) + inject_Z (Z.of_nat i) / inject_Z (Z.of_nat n).
Proof.
  intros Hi. rewrite linspace_nth by assumption.
  rewrite Hlo, Hhi. field.
  intros H. apply Qeq_eq_bool in H.
  rewrite Qeq_bool_inject_Z_0 in H by lia. discriminate.
Qed.

Lemma const_edge_le (i : nat) :
  (i <= n)%nat -> (nth i (linspace_edges (lo - (1 # 2)) (hi + (1 # 2)) n) 0 <= v <-> (2 * i <= n)%nat).
Proof.
  intros Hi. rewrite const_edge by exact Hi.
  pose proof (half_le (Z.of_nat i) (Z.of_nat n) ltac:(lia)) as Hh.
  split; intros H.
  - assert (H1 : inject_Z (Z.of_nat i) / inject_Z (Z.of_nat n) <= 1 # 2) by lra.
    apply Hh in H1. lia.
  - assert (H1 : inject_Z (Z.of_nat i) / inject_Z (Z.of_nat n) <= 1 # 2)
      by (apply Hh; lia).
    lra.
Qed.

Lemma const_in_bin (i : nat) (x : Q) :
  (i < n)%nat -> x == v ->
  in_bin (linspace_edges (lo - (1 # 2)) (hi + (1 # 2)) n) n i x = Nat.eqb i (n / 2).
Proof.
  intros Hi Hx. unfold in_bin.
  assert (EL : forall e, Qle_bool e x = Qle_bool e v) by (intros; now rewrite Hx).
  assert (ER : forall e, Qle_bool x e = Qle_bool v e) by (intros; now rewrite Hx).
  rewrite !EL, !ER. clear EL ER.
  pose proof (const_edge_le i ltac:(lia)) as Hl.
  pose proof (const_edge_le (S i) ltac:(lia)) as Hr.
  pose proof (Nat.div_mod_eq n 2) as Hd.
  pose proof (Nat.mod_upper_bound n 2 ltac:(lia)) as Hm.
  destruct (Qle_bool (nth i (linspace_edges (lo - (1 # 2)) (hi + (1 # 2)) n) 0) v) eqn:E1.
  - apply Qle_bool_iff in E1. apply Hl in E1.
    destruct (Nat.eqb_spec (S i) n) as [En|En].
    + assert (E2 : Qle_bool v (nth (S i) (linspace_edges (lo - (1 # 2)) (hi + (1 # 2)) n) 0) = true).
      { apply Qle_bool_iff. rewrite const_edge by lia. rewrite En.
        setoid_replace (inject_Z (Z.of_nat n) / inject_Z (Z.of_nat n)) with 1.
        - lra.
        - field. intros H. apply Qeq_eq_bool in H.
          rewrite Qeq_bool_inject_Z_0 in H by lia. discriminate. }
      rewrite E2. symmetry. apply Nat.eqb_eq. lia.
    + destruct (Qle_bool (nth (S i) (linspace_edges (lo - (1 # 2)) (hi + (1 # 2)) n) 0) v) eqn:E2; cbn [negb]; symmetry.
      * apply Qle_bool_iff in E2. apply Hr in E2. apply Nat.eqb_neq. lia.
      * apply Nat.eqb_eq.
        assert (~ (2 * S i <= n)%nat).
        { intros H. apply Hr in H. apply Qle_bool_iff in H. congruence. }
        lia.
  - symmetry. apply Nat.eqb_neq. intros ->.
    assert (H : nth (n / 2) (linspace_edges (lo - (1 # 2)) (hi + (1 # 2)) n) 0 <= v) by (apply Hl; lia).
    apply Qle_bool_iff in H. congruence.
Qed.

Lemma const_centre_pos :
  0 < v -> 0 < nth (n / 2) (midpoints (linspace_edges (lo - (1 # 2)) (hi + (1 # 2)) n)) 0.
Proof.
  intros Hv.
  pose proof (Nat.div_mod_eq n 2) as Hd.
  pose proof (Nat.mod_upper_bound n 2 ltac:(lia)) as Hm.
  rewrite nth_midpoints by (rewrite length_linspace_edges; lia).
  rewrite !const_edge by lia.
  assert (H : ~ inject_Z (Z.of_nat n) == 0).
  { intros H. apply Qeq_eq_bool in H.
    rewrite Qeq_bool_inject_Z_0 in H by lia. discriminate. }
  assert (Hpos : 0 < inject_Z (Z.of_nat n))
    by (change 0 with (inject_Z 0); rewrite <- Zlt_Qlt; lia).
  assert (Hsum : 1 <= inject_Z (Z.of_nat (n / 2)) / inject_Z (Z.of_nat n)
                      + inject_Z (Z.of_nat (S (n / 2))) / inject_Z (Z.of_nat n)).
  { setoid_replace (inject_Z (Z.of_nat (n / 2)) / inject_Z (Z.of_nat n)
                    + inject_Z (Z.of_nat (S (n / 2))) / inject_Z (Z.of_nat n))
      with (inject_Z (Z.of_nat (n / 2) + Z.of_nat (S (n / 2)))
            / inject_Z (Z.of_nat n))
      by (rewrite inject_Z_plus; field; exact H).
    apply Qle_shift_div_l; [exact Hpos|].
    rewrite Qmult_1_l, <- Zle_Qle.
    remember (n / 2)%nat as q. remember (n mod 2)%nat as r. lia. }
  apply Qlt_shift_div_l; lra.
Qed.

End ConstantBins.

Section Homogeneous.

Context {np : Numpy}.

Lemma np_histogram_cons (x : Q) (r : list Q) (k : Z) :
  (1 <= k)%Z ->
  np_histogram (x :: r) k
  = let lo := Qlist_min x r in
    let hi := Qlist_max x r in
    let first := if Qeq_bool lo hi then lo - (1 # 2) else lo in
    let last := if Qeq_bool lo hi then hi + (1 # 2) else hi in
    let n := Z.to_nat k in
    let edges := linspace_edges first last n in
    Ok (map (fun i => count_occ_b (in_bin edges n i) (x :: r)) (seq 0 n), edges).
Proof.
  intros Hk. unfold np_histogram. destruct (Z.ltb_spec k 1); [lia|reflexivity].
Qed.

Lemma histogram_distribution_const (self : FracND) (v : Q) (xs : list Q) :
  histogram self = true -> (1 <= bin_count self xs)%Z ->
  xs <> [] -> Forall (fun x => x == v) xs -> 0 < v ->
  exists y p, 0 < y /\ p == 1 /\ mass_distribution self xs = Ok ([y], [p]).
Proof.
  intros Hh Hk Hne Hall Hv. unfold mass_distribution. rewrite Hh.
  set (k := bin_count self xs) in *. clearbody k.
  destruct xs as [|x r]; [congruence|].
  assert (Hx : x == v /\ Forall (fun y => y == v) r).
  { inversion Hall; subst. now split. }
  destruct Hx as [Hx Hr].
  rewrite np_histogram_cons by exact Hk. cbv zeta.
  set (xs := x :: r) in *.
  pose proof (Qlist_min_const v x r Hx Hr) as Hlo.
  pose proof (Qlist_max_const v x r Hx Hr) as Hhi.
  set (lo := Qlist_min x r) in *. set (hi := Qlist_max x r) in *.
  assert (Eq : Qeq_bool lo hi = true) by (apply Qeq_eq_bool; now rewrite Hlo, Hhi).
  rewrite Eq.
  set (n := Z.to_nat k).
  assert (Hn : (0 < n)%nat) by (unfold n; lia).
  set (edges := linspace_edges (lo - (1 # 2)) (hi + (1 # 2)) n).
  set (len := Z.of_nat (length xs)).
  assert (Hlen : (0 < len)%Z) by (unfold len, xs; simpl; lia).
  assert (Ecounts :
    map (fun i => count_occ_b (in_bin edges n i) xs) (seq 0 n)
    = map (fun i => if Nat.eqb i (n / 2) then len else 0%Z) (seq 0 n)).
  { apply map_ext_in. intros i Hi. apply in_seq in Hi.
    apply count_occ_b_const. apply Forall_forall. intros y Hy.
    rewrite Forall_forall in Hall.
    apply (const_in_bin v lo hi n Hn Hlo Hhi); [lia|auto]. }
  rewrite Ecounts. cbn [bind].
  assert (Ekeep :
    map (fun c => negb (c =? 0)%Z)
        (map (fun i => if Nat.eqb i (n / 2) then len else 0%Z) (seq 0 n))
    = map (fun i => Nat.eqb i (n / 2)) (seq 0 n)).
  { rewrite map_map. apply map_ext. intros i.
    destruct (Nat.eqb i (n / 2)); [|reflexivity].
    destruct (Z.eqb_spec len 0); [lia|reflexivity]. }
  rewrite Ekeep.
  assert (Hi0 : (n / 2 < n)%nat) by (apply Nat.div_lt; lia).
  rewrite (boolean_mask_pick 0 (n / 2) n (midpoints edges));
    [|unfold edges; rewrite length_midpoints, length_linspace_edges;
      reflexivity|exact Hi0].
  rewrite (boolean_mask_pick 0%Z (n / 2) n);
    [|now rewrite length_map, length_seq|exact Hi0].
  rewrite (nth_map_seq _ 0%Z n 0 (n / 2) Hi0). cbn [Nat.add].
  rewrite Nat.eqb_refl. cbn [map]. unfold Qsum. cbn [fold_right].
  eexists. eexists. split; [|split; [|reflexivity]].
  - apply (const_centre_pos v lo hi n Hn Hlo Hhi Hv).
  - field. intros H. apply Qeq_eq_bool in H.
    rewrite Qeq_bool_inject_Z_0 in H by lia. discriminate.
Qed.

End Homogeneous.

Lemma Qlt_pos_of_eq (c x : Q) : 0 < c -> x == c -> 0 < x.
Proof. intros Hc Hx. now rewrite Hx. Qed.

Lemma normalised_masses_const (a : ndarray Q) (c : Q) (s d : Z) :
  well_formed a = true -> (0 < s)%Z -> (0 < d)%Z ->
  Forall (fun n => (s <= Z.of_nat n)%Z) (shape a) ->
  0 < c -> Forall (fun x => x == c) (ravel a) ->
  let v := inject_Z (Z.of_nat (Z.to_nat s ^ ndim a)) * c
           / inject_Z (Zsum (map fst (window_results a s d))) in
  Zsum (map fst (window_results a s d)) <> 0%Z
  /\ normalised_masses a s d <> []
  /\ 0 < v
  /\ Forall (fun x => x == v) (normalised_masses a s d).
Proof.
  intros Hwf Hs Hd Hfit Hc Hall v.
  assert (Hpos : Forall (fun x => 0 < x) (ravel a)).
  { eapply Forall_impl; [|exact Hall]. intros x Hx. now rewrite Hx. }
  destruct (touched_total_full a s d Hwf Hs Hd Hfit Hpos) as [HT HW].
  assert (HT0 : (0 < Zsum (map fst (window_results a s d)))%Z) by lia.
  assert (HTq : 0 < inject_Z (Zsum (map fst (window_results a s d))))
    by (change 0 with (inject_Z 0); now rewrite <- Zlt_Qlt).
  assert (Hlenpos : (0 < Z.to_nat s ^ ndim a)%nat) by (apply pow_pos_nat; lia).
  split; [lia|]. split; [|split].
  - unfold normalised_masses. intros E.
    apply (f_equal (@length Q)) in E. rewrite !length_map in E.
    rewrite window_results_length in E. cbn [length] in E.
    rewrite Zprod_of_nat in HW. lia.
  - unfold v. apply Qlt_shift_div_l; [exact HTq|]. rewrite Qmult_0_l.
    apply Qmult_lt_0_compat; [|exact Hc].
    change 0 with (inject_Z 0). rewrite <- Zlt_Qlt. lia.
  - unfold normalised_masses. apply Forall_forall. intros x Hx.
    apply in_map_iff in Hx. destruct Hx as [m [<- Hm]].
    apply in_map_iff in Hm. destruct Hm as [r [<- Hr]].
    unfold window_results in Hr. apply in_map_iff in Hr.
    destruct Hr as [i [<- Hi]].
    destruct (window_items (fun x => x == c) a s d i Hwf Hs Hd Hfit Hi Hall)
      as [Hlen Hw].
    unfold Worker. cbn [snd]. rewrite (Qsum_const c _ Hw), Hlen.
    unfold v. reflexivity.
Qed.

Section HomogeneousField.

Context {np : Numpy}.

End HomogeneousField.

(** ** The empirical distribution over unique values *)

Lemma Qsum_cons (x : Q) (l : list Q) : Qsum (x :: l) = x + Qsum l.
Proof. reflexivity. Qed.

Lemma weighted_sum_insert (f : Q -> Q) (x : Q) (al : list (Q * Z)) :
  Proper (Qeq ==> Qeq) f ->
  weighted_sum f (unique_insert x al) == f x + weighted_sum f al.
Proof.
  intros Hf. unfold weighted_sum.
  induction al as [|[y c] al IH]; cbn [unique_insert].
  - cbn [map fst snd]. rewrite !Qsum_cons. ring.
  - destruct (x ?= y) eqn:E.
    + apply Qeq_alt in E. cbn [map fst snd]. rewrite !Qsum_cons.
      rewrite inject_Z_plus, (Hf x y E). ring.
    + cbn [map fst snd]. rewrite !Qsum_cons. cbn [fst snd]. ring.
    + cbn [map]. rewrite !Qsum_cons, IH. cbn [fst snd]. ring.
Qed.

Lemma weighted_sum_unique (f : Q -> Q) (xs : list Q) :
  Proper (Qeq ==> Qeq) f ->
  weighted_sum f (fold_right unique_insert [] xs) == Qsum (map f xs).
Proof.
  intros Hf. induction xs as [|x xs IH]; [reflexivity|].
  cbn [fold_right map]. rewrite weighted_sum_insert by exact Hf.
  rewrite Qsum_cons, IH. reflexivity.
Qed.

Lemma unique_insert_counts (x : Q) (al : list (Q * Z)) :
  Forall (fun yc => (1 <= snd yc)%Z) al ->
  Forall (fun yc => (1 <= snd yc)%Z) (unique_insert x al).
Proof.
  induction 1 as [|[y c] al Hc Hal IH]; cbn [unique_insert].
  - constructor; [cbn; lia|constructor].
  - destruct (x ?= y).
    + constructor; [cbn in *; lia|exact Hal].
    + constructor; [cbn; lia|]. constructor; assumption.
    + constructor; assumption.
Qed.

Lemma unique_counts_pos (xs : list Q) :
  Forall (fun yc => (1 <= snd yc)%Z) (fold_right unique_insert [] xs).
Proof.
  induction xs as [|x xs IH]; [constructor|].
  cbn [fold_right]. now apply unique_insert_counts.
Qed.

Lemma unique_insert_In (x z : Q) (al : list (Q * Z)) :
  (z == x \/ exists y c, In (y, c) al /\ y == z) ->
  exists y c, In (y, c) (unique_insert x al) /\ y == z.
Proof.
  induction al as [|[y c] al IH]; cbn [unique_insert]; intros H.
  - destruct H as [H|[y [c [[] _]]]].
    exists x, 1%Z. split; [now left|now symmetry].
  - destruct (x ?= y) eqn:E.
    + apply Qeq_alt in E. destruct H as [H|[y' [c' [[H|H] Hy]]]].
      * exists y, (c + 1)%Z. split; [now left|]. now rewrite H, E.
      * injection H as -> ->. exists y', (c' + 1)%Z. split; [now left|exact Hy].
      * exists y', c'. split; [now right|exact Hy].
    + destruct H as [H|[y' [c' [H Hy]]]].
      * exists x, 1%Z. split; [now left|now symmetry].
      * exists y', c'. split; [now right|exact Hy].
    + destruct H as [H|[y' [c' [[H|H] Hy]]]].
      * destruct IH as [y' [c' [Hin Hy]]]; [now left|].
        exists y', c'. split; [now right|exact Hy].
      * injection H as -> ->. exists y', c'. split; [now left|exact Hy].
      * destruct IH as [y'' [c'' [Hin Hy']]]; [right; eauto|].
        exists y'', c''. split; [now right|exact Hy'].
Qed.

Lemma unique_support (xs : list Q) (z : Q) :
  In z xs -> exists y c, In (y, c) (fold_right unique_insert [] xs) /\ y == z.
Proof.
  induction xs as [|x xs IH]; intros H; [destruct H|].
  cbn [fold_right]. apply unique_insert_In. destruct H as [->|H].
  - left. reflexivity.
  - right. now apply IH.
Qed.

Lemma split_maps {A B} (l : list (A * B)) :
  List.split l = (map fst l, map snd l).
Proof.
  induction l as [|[a b] l IH]; [reflexivity|].
  cbn [List.split map fst snd]. now rewrite IH.
Qed.


Lemma combine_maps {A B C} (f : A -> B) (g : A -> C) (l : list A) :
  combine (map f l) (map g l) = map (fun x => (f x, g x)) l.
Proof.
  induction l as [|x l IH]; [reflexivity|]. cbn [map combine]. now rewrite IH.
Qed.

Section UniqueDistribution.

Context {np : Numpy}.


End UniqueDistribution.

Lemma table_total_length (xs : list Q) :
  table_total (unique_table xs) == inject_Z (Z.of_nat (length xs)).
Proof.
  unfold table_total.
  transitivity (weighted_sum (fun _ => 1) (unique_table xs)).
  - unfold weighted_sum. generalize (unique_table xs). intros al.
    induction al as [|yc al IH]; [reflexivity|].
    cbn [map]. rewrite !Qsum_cons, IH. ring.
  - unfold unique_table. rewrite weighted_sum_unique by (intros ? ? _; reflexivity).
    induction xs as [|x xs IH]; [reflexivity|].
    cbn [map length]. rewrite Qsum_cons, IH, Nat2Z.inj_succ.
    unfold Z.succ. rewrite inject_Z_plus. ring.
Qed.

Lemma scaled_sum (f : Q -> Q) (t : Q) (al : list (Q * Z)) :
  ~ t == 0 ->
  Qsum (map (fun yc => inject_Z (snd yc) / t * f (fst yc)) al)
  == weighted_sum f al / t.
Proof.
  intros Ht. unfold weighted_sum. induction al as [|yc al IH].
  - cbn [map]. unfold Qsum. cbn [fold_right]. field. exact Ht.
  - cbn [map]. rewrite !Qsum_cons, IH. field. exact Ht.
Qed.

Lemma Qsum_centred (mu : Q) (xs : list Q) :
  Qsum (map (fun x => (x - mu) * (x - mu)) xs)
  == Qsum (map (fun x => x * x) xs) - 2 * mu * Qsum xs
     + inject_Z (Z.of_nat (length xs)) * (mu * mu).
Proof.
  induction xs as [|x xs IH].
  - cbn. ring.
  - cbn [map length]. rewrite !Qsum_cons, IH, Nat2Z.inj_succ.
    unfold Z.succ. rewrite inject_Z_plus. ring.
Qed.

(** The lacunarity of the unique-value distribution is the ratio of the
    second moment to the squared mean over all the values. *)
Lemma lacunarity_unique_moments (xs : list Q) :
  ~ Qsum xs == 0 ->
  let al := unique_table xs in
  exists q,
    lacunarity_of (map fst al)
      (map (fun yc => inject_Z (snd yc) / table_total al) al) = Finite q
    /\ q == inject_Z (Z.of_nat (length xs)) * Qsum (map (fun x => x * x) xs)
            / (Qsum xs * Qsum xs).
Proof.
  intros HS al.
  assert (Hlen : (0 < length xs)%nat).
  { destruct xs; [|simpl; lia]. exfalso. apply HS. reflexivity. }
  pose proof (table_total_length xs) as Ht. fold al in Ht.
  set (n := inject_Z (Z.of_nat (length xs))) in *.
  assert (Hn : ~ n == 0).
  { intros H. apply Qeq_eq_bool in H. unfold n in H.
    rewrite Qeq_bool_inject_Z_0 in H by lia. discriminate. }
  assert (Htn : ~ table_total al == 0) by (now rewrite Ht).
  unfold lacunarity_of. rewrite combine_maps.
  rewrite !map_map. cbn [fst snd].
  set (mean := Qsum (map (fun x => inject_Z (snd x) / table_total al * fst x) al)).
  assert (Hmean : mean == Qsum xs / n).
  { unfold mean. rewrite (scaled_sum (fun y => y)) by exact Htn.
    unfold al, unique_table.
    rewrite weighted_sum_unique by (intros ? ? H; exact H).
    rewrite map_id. fold (unique_table xs). fold al. now rewrite Ht. }
  set (var := Qsum (map (fun x => inject_Z (snd x) / table_total al
                                  * ((fst x - mean) * (fst x - mean))) al)).
  assert (Hvar : var == (Qsum (map (fun x => x * x) xs) - 2 * mean * Qsum xs
                         + n * (mean * mean)) / n).
  { unfold var.
    rewrite (scaled_sum (fun y => (y - mean) * (y - mean))) by exact Htn.
    unfold al, unique_table.
    rewrite weighted_sum_unique
      by (intros x y H; now rewrite H).
    fold (unique_table xs). fold al. rewrite Ht, Qsum_centred. reflexivity. }
  assert (Hmm : ~ mean * mean == 0).
  { rewrite Hmean. intros H. apply Qmult_integral in H.
    assert (E : Qsum xs / n == 0) by tauto.
    apply HS.
    setoid_replace (Qsum xs) with (Qsum xs / n * n) by (field; exact Hn).
    rewrite E. ring. }
  unfold true_divide. destruct (Qeq_bool (mean * mean) 0) eqn:E.
  { apply Qeq_bool_eq in E. contradiction. }
  cbn [fadd1]. eexists. split; [reflexivity|].
  rewrite Hvar, Hmean. field. split; assumption.
Qed.

(** ** Probabilities *)

Lemma Qsum_inject_Z (l : list Z) : Qsum (map inject_Z l) == inject_Z (Zsum l).
Proof.
  induction l as [|z l IH]; [reflexivity|].
  cbn [map]. rewrite Qsum_cons, IH. unfold Zsum. cbn [fold_right].
  now rewrite inject_Z_plus.
Qed.

Lemma kept_counts (cs : list Z) :
  Forall (fun c => 0 <= c)%Z cs ->
  let kept := boolean_mask cs (map (fun c => negb (c =? 0)%Z) cs) in
  Zsum kept = Zsum cs /\ Forall (fun c => 0 < c)%Z kept.
Proof.
  induction 1 as [|c cs Hc _ [IH1 IH2]]; [split; [reflexivity|constructor]|].
  cbn [map boolean_mask]. destruct (Z.eqb_spec c 0) as [->|Hne]; cbn [negb].
  - split; [|exact IH2]. unfold Zsum in *. cbn [fold_right]. lia.
  - split.
    + unfold Zsum in *. cbn [fold_right]. cbv zeta in IH1. lia.
    + constructor; [lia|exact IH2].
Qed.

Lemma Qsum_scaled (t : Q) (l : list Q) :
  ~ t == 0 -> Qsum (map (fun x => x / t) l) == Qsum l / t.
Proof.
  intros Ht. induction l as [|x l IH].
  - cbn. field. exact Ht.
  - cbn [map]. rewrite !Qsum_cons, IH. field. exact Ht.
Qed.

Lemma probabilities_of_counts (cs : list Z) :
  Forall (fun c => 0 <= c)%Z cs -> (0 < Zsum cs)%Z ->
  let p := map inject_Z (boolean_mask cs (map (fun c => negb (c =? 0)%Z) cs)) in
  let probs := map (fun x => x / Qsum p) p in
  Qsum probs == 1 /\ Forall (fun x => 0 < x) probs.
Proof.
  intros Hcs Hsum p probs.
  destruct (kept_counts cs Hcs) as [Hk1 Hk2].
  set (kept := boolean_mask cs (map (fun c => negb (c =? 0)%Z) cs)) in *.
  assert (Ht : Qsum p == inject_Z (Zsum cs))
    by (unfold p; now rewrite Qsum_inject_Z, Hk1).
  assert (Hpos : 0 < Qsum p).
  { rewrite Ht. change 0 with (inject_Z 0). now rewrite <- Zlt_Qlt. }
  assert (Hnz : ~ Qsum p == 0).
  { intros H. rewrite H in Hpos. now apply Qlt_irrefl in Hpos. }
  split.
  - unfold probs. rewrite Qsum_scaled by exact Hnz. field. exact Hnz.
  - unfold probs, p. rewrite map_map. apply Forall_forall. intros x Hx.
    apply in_map_iff in Hx. destruct Hx as [c [<- Hc]].
    rewrite Forall_forall in Hk2. specialize (Hk2 c Hc).
    apply Qlt_shift_div_l; [exact Hpos|]. rewrite Qmult_0_l.
    change 0 with (inject_Z 0). now rewrite <- Zlt_Qlt.
Qed.

Lemma Zsum_ge_member (cs : list Z) (c : Z) :
  Forall (fun c => 0 <= c)%Z cs -> In c cs -> (c <= Zsum cs)%Z.
Proof.
  induction 1 as [|c' cs Hc' Hcs IH]; intros Hin; [destruct Hin|].
  unfold Zsum in *. cbn [fold_right]. destruct Hin as [->|Hin].
  - assert (0 <= fold_right Z.add 0 cs)%Z; [|lia].
    clear IH. induction Hcs; cbn [fold_right]; lia.
  - specialize (IH Hin). lia.
Qed.

Lemma unique_table_nonempty (x : Q) (xs : list Q) : unique_table (x :: xs) <> [].
Proof.
  unfold unique_table. cbn [fold_right].
  destruct (fold_right unique_insert [] xs) as [|[y c] al]; cbn [unique_insert].
  - discriminate.
  - destruct (x ?= y); discriminate.
Qed.

Lemma Qlist_min_le (x : Q) (r : list Q) (y : Q) :
  In y (x :: r) -> Qlist_min x r <= y.
Proof.
  unfold Qlist_min. induction r as [|z r IH]; cbn [fold_right]; intros H.
  - destruct H as [->|[]]. apply Qle_refl.
  - destruct H as [->|[->|H]].
    + eapply Qle_trans; [apply Q.le_min_r|]. apply IH. now left.
    + apply Q.le_min_l.
    + eapply Qle_trans; [apply Q.le_min_r|]. apply IH. now right.
Qed.

Lemma Qlist_max_ge (x : Q) (r : list Q) (y : Q) :
  In y (x :: r) -> y <= Qlist_max x r.
Proof.
  unfold Qlist_max. induction r as [|z r IH]; cbn [fold_right]; intros H.
  - destruct H as [->|[]]. apply Qle_refl.
  - destruct H as [->|[->|H]].
    + eapply Qle_trans; [|apply Q.le_max_r]. apply IH. now left.
    + apply Q.le_max_l.
    + eapply Qle_trans; [|apply Q.le_max_r]. apply IH. now right.
Qed.

Lemma Qlist_max_attained (x : Q) (r : list Q) :
  exists y, In y (x :: r) /\ y == Qlist_max x r.
Proof.
  unfold Qlist_max. induction r as [|z r [y [Hy E]]]; cbn [fold_right].
  - exists x. split; [now left|reflexivity].
  - destruct (Q.max_dec z (fold_right Qmax x r)) as [H|H].
    + exists z. split; [right; now left|now symmetry].
    + exists y. split; [|now rewrite H].
      destruct Hy as [->|Hy]; [now left|right; now right].
Qed.

Lemma count_occ_b_pos {A} (f : A -> bool) (l : list A) (y : A) :
  In y l -> f y = true -> (1 <= count_occ_b f l)%Z.
Proof.
  intros Hin Hy. unfold count_occ_b.
  assert (H : In y (filter f l)) by (apply filter_In; now split).
  destruct (filter f l); [destruct H|]. cbn [length]. lia.
Qed.

Lemma histogram_some_bin (x : Q) (r : list Q) (n : nat) :
  (0 < n)%nat ->
  let lo := Qlist_min x r in
  let hi := Qlist_max x r in
  let first := if Qeq_bool lo hi then lo - (1 # 2) else lo in
  let last := if Qeq_bool lo hi then hi + (1 # 2) else hi in
  let edges := linspace_edges first last n in
  exists i y, (i < n)%nat /\ In y (x :: r) /\ in_bin edges n i y = true.
Proof.
  intros Hn lo hi first last edges.
  assert (Hlox : lo <= x) by (apply Qlist_min_le; now left).
  assert (Hxhi : x <= hi) by (apply Qlist_max_ge; now left).
  destruct (Qeq_bool lo hi) eqn:E.
  - apply Qeq_bool_eq in E.
    assert (Hx : x == lo) by (apply Qle_antisym; [now rewrite E|exact Hlox]).
    exists (n / 2)%nat, x. split; [apply Nat.div_lt; lia|]. split; [now left|].
    unfold edges, first, last.
    rewrite (const_in_bin lo lo hi n Hn (Qeq_refl lo) (Qeq_sym _ _ E));
      [apply Nat.eqb_refl|apply Nat.div_lt; lia|exact Hx].
  - destruct (Qlist_max_attained x r) as [y [Hy Ey]]. fold hi in Ey.
    exists (n - 1)%nat, y. split; [lia|]. split; [exact Hy|].
    unfold in_bin. replace (S (n - 1)) with n by lia.
    rewrite Nat.eqb_refl. unfold edges. rewrite linspace_nth_last.
    assert (E2 : Qle_bool y last = true)
      by (apply Qle_bool_iff; unfold last; rewrite Ey; apply Qle_refl).
    rewrite E2.
    assert (E1 : Qle_bool (nth (n - 1) (linspace_edges first last n) 0) y = true).
    { apply Qle_bool_iff. rewrite linspace_nth by lia. rewrite Ey.
      unfold first, last.
      assert (Hnq : 0 < inject_Z (Z.of_nat n))
        by (change 0 with (inject_Z 0); rewrite <- Zlt_Qlt; lia).
      assert (Hw : 0 <= (hi - lo) / inject_Z (Z.of_nat n)).
      { apply Qle_shift_div_l; [exact Hnq|]. rewrite Qmult_0_l.
        assert (lo <= hi) by (eapply Qle_trans; eauto). lra. }
      replace (Z.of_nat (n - 1)) with (Z.of_nat n - 1)%Z by lia.
      unfold Zminus. rewrite inject_Z_plus.
      setoid_replace (lo + (inject_Z (Z.of_nat n) + inject_Z (- (1)))
                           * ((hi - lo) / inject_Z (Z.of_nat n)))
        with (hi - (hi - lo) / inject_Z (Z.of_nat n)).
      - lra.
      - change (inject_Z (- (1))) with (- (1)). field.
        intros H. rewrite H in Hnq. now apply Qlt_irrefl in Hnq. }
    now rewrite E1.
Qed.

Section Probabilities.

Context {np : Numpy}.

(** Whatever the mode, the probabilities of a non-empty sample are positive
    and sum to one. *)
Lemma mass_distribution_probabilities (self : FracND) (xs support probs : list Q) :
  xs <> [] -> mass_distribution self xs = Ok (support, probs) ->
  Qsum probs == 1 /\ Forall (fun p => 0 < p) probs.
Proof.
  intros Hne. unfold mass_distribution.
  destruct xs as [|x r]; [congruence|].
  destruct (histogram self).
  - set (k := bin_count self (x :: r)). clearbody k.
    destruct (Z_lt_le_dec k 1) as [Hk|Hk].
    + unfold np_histogram. destruct (Z.ltb_spec k 1); [discriminate|lia].
    + rewrite np_histogram_cons by exact Hk. cbv zeta. cbn [bind].
      intros [= _ <-].
      apply probabilities_of_counts.
      * apply Forall_forall. intros c Hc. apply in_map_iff in Hc.
        destruct Hc as [i [<- _]]. unfold count_occ_b. lia.
      * destruct (histogram_some_bin x r (Z.to_nat k) ltac:(lia))
          as [i [y [Hi [Hy Hb]]]].
        eapply Z.lt_le_trans; [|apply Zsum_ge_member].
        -- apply Z.lt_le_trans with 1%Z; [lia|].
           apply (count_occ_b_pos _ (x :: r) y Hy Hb).
        -- apply Forall_forall. intros c Hc. apply in_map_iff in Hc.
           destruct Hc as [j [<- _]]. unfold count_occ_b. lia.
        -- apply in_map_iff. exists i. split; [reflexivity|].
           apply in_seq. lia.
  - unfold np_unique_counts.
    pose proof (unique_counts_pos (x :: r)) as Hc.
    pose proof (unique_table_nonempty x r) as Hal. unfold unique_table in Hal.
    remember (fold_right unique_insert [] (x :: r)) as al eqn:Eal. clear Eal.
    rewrite split_maps. intros [= _ <-].
    apply probabilities_of_counts.
    + apply Forall_forall. intros c Hin. apply in_map_iff in Hin.
      destruct Hin as [yc [<- Hin]]. rewrite Forall_forall in Hc.
      specialize (Hc yc Hin). lia.
    + destruct al as [|yc al]; [congruence|].
      inversion Hc as [|? ? H1 H2]; subst.
      cbn [map]. unfold Zsum. cbn [fold_right].
      assert (0 <= fold_right Z.add 0 (map snd al))%Z; [|lia].
      clear - H2. induction H2; cbn [map fold_right]; lia.
Qed.

End Probabilities.

Section AllWindows.

Context {np : Numpy}.




End AllWindows.

(** ** The empty-input check of [__call__] *)

Lemma bind_not_empty {A B} (r : Result A) (k : A -> Result B) :
  r <> Raise EmptyInputError ->
  (forall x, k x <> Raise EmptyInputError) ->
  bind r k <> Raise EmptyInputError.
Proof.
  intros Hr Hk. destruct r as [x|e]; cbn [bind]; [apply Hk|].
  intros [= ->]. now apply Hr.
Qed.

Lemma axis_counts_not_empty sh s d : axis_counts sh s d <> Raise EmptyInputError.
Proof.
  unfold axis_counts. destruct sh; [discriminate|].
  destruct (d =? 0)%Z; discriminate.
Qed.

Lemma int_of_scaled_not_empty t x : int_of_scaled t x <> Raise EmptyInputError.
Proof.
  unfold int_of_scaled. destruct x; try discriminate;
    destruct (t =? 0)%Z; discriminate.
Qed.

Lemma np_histogram_not_empty xs k : np_histogram xs k <> Raise EmptyInputError.
Proof.
  unfold np_histogram. destruct xs; destruct (k <? 1)%Z; discriminate.
Qed.

Lemma np_min_not_empty l : np_min l <> Raise EmptyInputError.
Proof. destruct l; discriminate. Qed.

Section EmptyCheck.

Context {np : Numpy}.

Lemma mass_distribution_not_empty (self : FracND) xs :
  mass_distribution self xs <> Raise EmptyInputError.
Proof.
  unfold mass_distribution. destruct (histogram self).
  - apply bind_not_empty; [apply np_histogram_not_empty|].
    intros [p b]. discriminate.
  - destruct (np_unique_counts xs). discriminate.
Qed.

Lemma scan_windows_not_empty (self : FracND) a s d idxs g :
  fst (scan_windows self a s d idxs g) <> Raise EmptyInputError.
Proof.
  revert g. induction idxs as [|i r IH]; intros g; cbn [scan_windows].
  - discriminate.
  - destruct (subsample self) as [p|].
    + destruct (Qle_bool 0 p && Qle_bool p 1); [|discriminate].
      destruct (random_binomial p g) as [smpl g1].
      destruct (smpl =? 0)%Z; [apply IH|].
      specialize (IH g1). destruct (scan_windows self a s d r g1) as [res g2].
      cbn [fst] in *. apply bind_not_empty; [exact IH|discriminate].
    + specialize (IH g). destruct (scan_windows self a s d r g) as [res g2].
      cbn [fst] in *. apply bind_not_empty; [exact IH|discriminate].
Qed.

Lemma sliding_window_statistics_not_empty (self : FracND) a s d g :
  fst (sliding_window_statistics self a s d g) <> Raise EmptyInputError.
Proof.
  unfold sliding_window_statistics.
  pose proof (axis_counts_not_empty (shape a) s d) as H1.
  destruct (axis_counts (shape a) s d) as [wc|e]; [|raised_elsewhere H1].
  pose proof (axis_counts_not_empty (shape a) s s) as H2.
  destruct (axis_counts (shape a) s s) as [bc|e]; [|raised_elsewhere H2].
  unfold np_ndindex. destruct (forallb _ wc); [|discriminate].
  pose proof (scan_windows_not_empty self a s d (ndindex (map Z.to_nat wc)) g) as H3.
  destruct (scan_windows self a s d (ndindex (map Z.to_nat wc)) g) as [res g'].
  cbn [fst] in *. apply bind_not_empty; [exact H3|].
  intros [|r rs]; [discriminate|].
  destruct (negb (multiprocess self)); [discriminate|].
  apply bind_not_empty; [apply int_of_scaled_not_empty|]. intros N.
  destruct (_ =? 0)%Z.
  - destruct (histogram self); discriminate.
  - apply bind_not_empty; [apply mass_distribution_not_empty|]. discriminate.
Qed.

Lemma sweep_not_empty (self : FracND) a todo g :
  fst (fst (sweep self a todo g)) <> Raise EmptyInputError.
Proof.
  revert self g. induction todo as [|sc rest IH]; intros self g; cbn [sweep].
  - discriminate.
  - pose proof (sliding_window_statistics_not_empty self a sc
                  (match stride self with None => sc | Some s => s end) g) as H.
    destruct (sliding_window_statistics self a sc _ g) as [[[N lac]|e] g'].
    + apply IH.
    + raised_elsewhere H.
Qed.

Lemma fit_series_not_empty scales vals :
  fit_series scales vals <> Raise EmptyInputError.
Proof.
  unfold fit_series. apply bind_not_empty; [|discriminate].
  induction (np_unique vals) as [|v u IH]; cbn [fold_right]; [discriminate|].
  apply bind_not_empty; [exact IH|]. intros rest.
  destruct (Nat.eqb _ _); [|discriminate].
  apply bind_not_empty; [apply np_min_not_empty|discriminate].
Qed.

Lemma linear_fit_not_empty scales vals inv :
  linear_fit scales vals inv <> Raise EmptyInputError.
Proof.
  unfold linear_fit. apply bind_not_empty; [apply fit_series_not_empty|].
  intros [sc vs]. apply bind_not_empty.
  - destruct inv; [|discriminate]. destruct (existsb _ sc); discriminate.
  - intros sc'. destruct (polyfit_log sc' (map Finite vs)); discriminate.
Qed.

Lemma fit_series_float_not_empty scales vals :
  fit_series_float scales vals <> Raise EmptyInputError.
Proof.
  unfold fit_series_float. apply bind_not_empty; [|discriminate].
  induction (np_unique_f vals) as [|v u IH]; cbn [fold_right]; [discriminate|].
  apply bind_not_empty; [exact IH|]. intros rest.
  destruct (Nat.eqb _ _); [|discriminate].
  apply bind_not_empty; [apply np_min_not_empty|discriminate].
Qed.

Lemma linear_fit_float_not_empty scales vals inv :
  linear_fit_float scales vals inv <> Raise EmptyInputError.
Proof.
  unfold linear_fit_float.
  apply bind_not_empty; [apply fit_series_float_not_empty|].
  intros [sc vs]. apply bind_not_empty.
  - destruct inv; [|discriminate]. destruct (existsb _ sc); discriminate.
  - intros sc'. destruct (polyfit_log sc' vs); discriminate.
Qed.

Lemma default_max_box_size_not_empty sh :
  default_max_box_size sh <> Raise EmptyInputError.
Proof.
  unfold default_max_box_size. destruct sh; [discriminate|].
  destruct (Nat.eqb _ 0); discriminate.
Qed.

Lemma scale_sequence_not_empty (self : FracND) m :
  scale_sequence self m <> Raise EmptyInputError.
Proof.
  unfold scale_sequence. apply bind_not_empty; [|discriminate].
  unfold floor_logspace. destruct (_ <? 0)%Z; [discriminate|].
  destruct (_ =? 1)%Z; discriminate.
Qed.

Lemma all_zero_iff (l : list Q) :
  forallb (fun x => Qeq_bool x 0) l = true <-> Forall (fun x => x == 0) l.
Proof.
  rewrite forallb_forall, Forall_forall.
  split; intros H x Hx.
  - apply Qeq_bool_eq. auto.
  - apply Qeq_eq_bool. auto.
Qed.

(** Claim C5.  [__call__] raises the empty-input error exactly when every
    element of the input array is zero: an all-zero volume is rejected with
    this error, and for a volume with a non-zero element the check passes, so
    that an exception raised later in the analysis is a different one. *)
Theorem empty_volume_error (self : FracND) (a : ndarray Q) (g : rng_state) :
  fst (fst (call self a g)) = Raise EmptyInputError
  <-> Forall (fun x => x == 0) (ravel a).
Proof.
  rewrite <- all_zero_iff. unfold call.
  destruct (forallb (fun x => Qeq_bool x 0) (ravel a)).
  - split; reflexivity.
  - split; [|discriminate]. intros H. exfalso. revert H.
    pose proof (default_max_box_size_not_empty (shape a)) as H0.
    destruct (match max_box_size self with
              | None => default_max_box_size (shape a)
              | Some m => Ok m
              end) as [m|e] eqn:Em.
    2:{ cbn [fst]. destruct (max_box_size self); [discriminate|].
        intros E. injection E as ->. now apply H0. }
    pose proof (scale_sequence_not_empty (set_max_box_size self m) m) as H1.
    destruct (scale_sequence (set_max_box_size self m) m) as [sc|e];
      [|raised_elsewhere H1].
    set (self1 := set_series (set_scales (set_max_box_size self m) sc) [] []).
    pose proof (sweep_not_empty self1 a (scales self1) g) as H2.
    destruct (sweep self1 a (scales self1) g) as [[[u|e] self2] g2];
      [|raised_elsewhere H2].
    pose proof (linear_fit_not_empty (map inject_Z (scales self2))
                  (map inject_Z (Ns self2)) true) as H3.
    destruct (linear_fit (map inject_Z (scales self2))
                (map inject_Z (Ns self2)) true) as [fit|e];
      [|raised_elsewhere H3].
    match goal with
    | |- context [match ?r with Ok _ => _ | Raise _ => _ end] =>
        assert (H4 : r <> Raise EmptyInputError);
        [|destruct r; [discriminate|raised_elsewhere H4]]
    end.
    apply linear_fit_float_not_empty.
Qed.

End EmptyCheck.

(** ** The scale sequence *)

Lemma Zunique_insert_In (x z : Z) (l : list Z) :
  In z (Zunique_insert x l) <-> z = x \/ In z l.
Proof.
  induction l as [|y l IH]; cbn [Zunique_insert].
  - cbn. intuition.
  - destruct (Z.compare_spec x y) as [->|H|H]; cbn [In].
    + intuition.
    + intuition.
    + rewrite IH. intuition.
Qed.


Lemma np_unique_Z_In (z : Z) (l : list Z) : In z (np_unique_Z l) <-> In z l.
Proof.
  unfold np_unique_Z. induction l as [|x l IH]; cbn [fold_right]; [tauto|].
  rewrite Zunique_insert_In, IH. cbn. intuition.
Qed.


Lemma root_bits_spec (x : Z) (b : positive) (nbits : nat) (r : Z) :
  (0 <= r)%Z -> (r ^ Z.pos b <= x)%Z ->
  (x < (r + 2 ^ Z.of_nat nbits) ^ Z.pos b)%Z ->
  let v := root_bits x b nbits r in
  (0 <= v)%Z /\ (v ^ Z.pos b <= x < (v + 1) ^ Z.pos b)%Z.
Proof.
  revert r. induction nbits as [|k IH]; intros r Hr Hlo Hhi; cbn [root_bits].
  - cbv zeta. change (2 ^ Z.of_nat 0)%Z with 1%Z in Hhi. lia.
  - set (c := (r + 2 ^ Z.of_nat k)%Z).
    assert (Hpow : (2 ^ Z.of_nat (S k) = 2 ^ Z.of_nat k + 2 ^ Z.of_nat k)%Z).
    { rewrite Nat2Z.inj_succ, Z.pow_succ_r by lia. lia. }
    assert (H2k : (0 < 2 ^ Z.of_nat k)%Z) by (apply Z.pow_pos_nonneg; lia).
    destruct (Z.leb_spec (c ^ Z.pos b) x) as [Hc|Hc].
    + apply IH; [unfold c; lia|exact Hc|].
      unfold c. replace (r + 2 ^ Z.of_nat k + 2 ^ Z.of_nat k)%Z
        with (r + 2 ^ Z.of_nat (S k))%Z by lia. exact Hhi.
    + apply IH; [exact Hr|exact Hlo|exact Hc].
Qed.

(** [floor_pow2 a b] is the floor of 2 to the power [a / b]. *)
Lemma floor_pow2_spec (a : Z) (b : positive) :
  let v := floor_pow2 a b in
  if (a <? 0)%Z then v = 0%Z
  else (0 <= v)%Z /\ (v ^ Z.pos b <= 2 ^ a < (v + 1) ^ Z.pos b)%Z.
Proof.
  unfold floor_pow2. destruct (Z.ltb_spec a 0) as [Ha|Ha]; [reflexivity|].
  apply root_bits_spec.
  - lia.
  - rewrite Z.pow_0_l by lia. apply Z.pow_nonneg. lia.
  - rewrite Z.add_0_l.
    assert (Hq : (0 <= a / Z.pos b)%Z) by (apply Z.div_pos; lia).
    rewrite Nat2Z.inj_succ, Z2Nat.id by exact Hq.
    rewrite <- Z.pow_mul_r by lia.
    apply Z.pow_lt_mono_r; [lia|nia|].
    pose proof (Z.mul_succ_div_gt a (Z.pos b) ltac:(lia)). lia.
Qed.

Section Sweep.

Context {np : Numpy}.

Lemma same_config_refl (s : FracND) : same_config s s.
Proof. repeat split. Qed.

Lemma same_config_trans (s1 s2 s3 : FracND) :
  same_config s1 s2 -> same_config s2 s3 -> same_config s1 s3.
Proof.
  unfold same_config. intros [A [B [C [D E]]]] [A' [B' [C' [D' E']]]].
  repeat split; congruence.
Qed.

Lemma scan_windows_config (s1 s2 : FracND) a s d idxs g :
  same_config s1 s2 ->
  scan_windows s1 a s d idxs g = scan_windows s2 a s d idxs g.
Proof.
  intros [Hsub _]. revert g. induction idxs as [|i r IH]; intros g;
    cbn [scan_windows]; [reflexivity|].
  rewrite Hsub. destruct (subsample s2) as [p|].
  - destruct (Qle_bool 0 p && Qle_bool p 1); [|reflexivity].
    destruct (random_binomial p g) as [smpl g1].
    now rewrite IH.
  - now rewrite IH.
Qed.

Lemma mass_distribution_config (s1 s2 : FracND) xs :
  same_config s1 s2 -> mass_distribution s1 xs = mass_distribution s2 xs.
Proof.
  intros [_ [Hh [Hb _]]]. unfold mass_distribution, bin_count.
  now rewrite Hh, Hb.
Qed.

Lemma sliding_window_statistics_config (s1 s2 : FracND) a s d g :
  same_config s1 s2 ->
  sliding_window_statistics s1 a s d g = sliding_window_statistics s2 a s d g.
Proof.
  intros H. unfold sliding_window_statistics.
  destruct (axis_counts (shape a) s d) as [wc|e]; [|reflexivity].
  destruct (axis_counts (shape a) s s) as [bc|e]; [|reflexivity].
  destruct (np_ndindex wc) as [idxs|e]; [|reflexivity].
  rewrite (scan_windows_config s1 s2) by exact H.
  destruct H as [Hsub [Hh [Hb [Hst Hmp]]]]. rewrite Hsub, Hmp.
  destruct (scan_windows s2 a s d idxs g) as [res g'].
  f_equal. destruct res as [[|r rs]|e]; cbn [bind]; try reflexivity.
  destruct (negb (multiprocess s2)); [reflexivity|].
  destruct (int_of_scaled _ _) as [N|e]; cbn [bind]; [|reflexivity].
  rewrite Hh.
  rewrite (mass_distribution_config s1 s2) by (repeat split; tauto).
  reflexivity.
Qed.

Lemma sweep_spec (a : ndarray Q) (todo : list Z) :
  forall (self : FracND) (g : rng_state) r self' g',
    sweep self a todo g = (r, self', g') ->
    scales self' = scales self /\ same_config self' self
    /\ exists done : list (Z * fvalue),
        Ns self' = Ns self ++ map fst done
        /\ lacunarity_spectrum self' = lacunarity_spectrum self ++ map snd done
        /\ (length done <= length todo)%nat
        /\ (r = Ok tt -> length done = length todo)
        /\ forall i, (i < length done)%nat ->
             exists gi,
               fst (sliding_window_statistics self a (nth i todo 0%Z)
                      (step_of self (nth i todo 0%Z)) gi)
               = Ok (nth i done (0%Z, NaN)).
Proof.
  induction todo as [|sc rest IH]; intros self g r self' g' H;
    cbn [sweep] in H.
  - injection H as <- <- <-. split; [reflexivity|].
    split; [apply same_config_refl|]. exists []. cbn [map length].
    rewrite !app_nil_r. repeat split; lia.
  - fold (step_of self sc) in H.
    destruct (sliding_window_statistics self a sc (step_of self sc) g)
      as [[[N lac]|e] g1] eqn:E.
    + apply IH in H. destruct H as [Hsc [Hcfg [done [HN [HL [Hlen [Hok Hi]]]]]]].
      set (self1 := set_series self (Ns self ++ [N])
                      (lacunarity_spectrum self ++ [lac])) in *.
      assert (Hc1 : same_config self1 self) by (repeat split).
      split; [exact Hsc|]. split; [eapply same_config_trans; eauto|].
      exists ((N, lac) :: done). cbn [map length fst snd].
      split; [rewrite HN; cbn; now rewrite <- app_assoc|].
      split; [rewrite HL; cbn; now rewrite <- app_assoc|].
      split; [lia|]. split; [intros Hr; rewrite (Hok Hr); reflexivity|].
      intros [|i] Hlt.
      * exists g. cbn [nth]. now rewrite E.
      * destruct (Hi i ltac:(lia)) as [gi Hgi]. exists gi. cbn [nth].
        rewrite <- Hgi.
        rewrite (sliding_window_statistics_config self1 self) by exact Hc1.
        reflexivity.
    + injection H as <- <- <-. split; [reflexivity|].
      split; [apply same_config_refl|]. exists []. cbn [map length].
      rewrite !app_nil_r. repeat split; try lia; discriminate.
Qed.

End Sweep.

Lemma floor_pow2_between (num den z lo hi : Z) :
  (0 < den)%Z -> (0 <= lo)%Z -> (lo * den <= num <= hi * den)%Z ->
  is_floor_pow2 num den z -> (2 ^ lo <= z <= 2 ^ hi)%Z.
Proof.
  intros Hden Hlo Hnum H. unfold is_floor_pow2 in H.
  assert (Hn0 : (0 <= num)%Z) by nia.
  destruct (Z.ltb_spec num 0); [lia|]. destruct H as [Hz [Hle Hlt]].
  assert (Hhi : (0 <= hi)%Z) by nia.
  assert (Eh : (2 ^ (hi * den) = (2 ^ hi) ^ den)%Z) by (apply Z.pow_mul_r; lia).
  assert (El : (2 ^ (lo * den) = (2 ^ lo) ^ den)%Z) by (apply Z.pow_mul_r; lia).
  assert (Ph : (0 < 2 ^ hi)%Z) by (apply Z.pow_pos_nonneg; lia).
  assert (Pl : (0 < 2 ^ lo)%Z) by (apply Z.pow_pos_nonneg; lia).
  assert (Mh : (2 ^ num <= 2 ^ (hi * den))%Z) by (apply Z.pow_le_mono_r; lia).
  assert (Ml : (2 ^ (lo * den) <= 2 ^ num)%Z) by (apply Z.pow_le_mono_r; lia).
  split.
  - destruct (Z_lt_le_dec z (2 ^ lo)) as [L|L]; [|exact L]. exfalso.
    assert ((z + 1) ^ den <= (2 ^ lo) ^ den)%Z by (apply Z.pow_le_mono_l; lia).
    lia.
  - destruct (Z_lt_le_dec (2 ^ hi) z) as [L|L]; [|exact L]. exfalso.
    assert ((2 ^ hi) ^ den < z ^ den)%Z by (apply Z.pow_lt_mono_l; lia).
    lia.
Qed.

Lemma floor_pow2_exact (e : Z) (b : positive) :
  (0 <= e)%Z -> floor_pow2 (e * Z.pos b) b = (2 ^ e)%Z.
Proof.
  intros He. pose proof (floor_pow2_spec (e * Z.pos b) b) as H. cbv zeta in H.
  assert (P : is_floor_pow2 (e * Z.pos b) (Z.pos b) (floor_pow2 (e * Z.pos b) b))
    by exact H.
  apply (floor_pow2_between _ _ _ e e) in P; lia.
Qed.

Lemma floor_pow2_mono (a1 a2 : Z) (b : positive) :
  (a1 <= a2)%Z -> (floor_pow2 a1 b <= floor_pow2 a2 b)%Z.
Proof.
  intros Ha.
  pose proof (floor_pow2_spec a1 b) as H1.
  pose proof (floor_pow2_spec a2 b) as H2. cbv zeta in H1, H2.
  destruct (Z.ltb_spec a1 0) as [N1|N1].
  - rewrite H1. destruct (Z.ltb_spec a2 0); lia.
  - destruct (Z.ltb_spec a2 0) as [N2|N2]; [lia|].
    destruct H1 as [P1 [L1 _]]. destruct H2 as [P2 [_ U2]].
    assert (M : (2 ^ a1 <= 2 ^ a2)%Z) by (apply Z.pow_le_mono_r; lia).
    destruct (Z_lt_le_dec (floor_pow2 a2 b) (floor_pow2 a1 b)) as [L|L];
      [|exact L].
    exfalso.
    assert ((floor_pow2 a2 b + 1) ^ Z.pos b <= floor_pow2 a1 b ^ Z.pos b)%Z
      by (apply Z.pow_le_mono_l; lia).
    lia.
Qed.

(** The samples of the sweep: as many as asked for, running down from 2 to
    the power [start] to 2 to the power [stop]. *)
Lemma floor_logspace_sweep (start stop num : Z) (samples : list Z) :
  floor_logspace start stop num = Ok samples ->
  length samples = Z.to_nat num
  /\ ((stop <= start)%Z ->
      forall i j, (i <= j < length samples)%nat ->
        (nth j samples 0 <= nth i samples 0)%Z)
  /\ ((0 <= start)%Z -> (1 <= num)%Z -> nth 0 samples 0%Z = (2 ^ start)%Z)
  /\ ((0 <= stop)%Z -> (2 <= num)%Z ->
      nth (Z.to_nat num - 1) samples 0%Z = (2 ^ stop)%Z).
Proof.
  unfold floor_logspace. destruct (Z.ltb_spec num 0) as [|Hn]; [discriminate|].
  destruct (Z.eqb_spec num 1) as [->|H1]; intros [= <-].
  - split; [reflexivity|]. split.
    { intros _ i j Hij. cbn [length] in Hij.
      replace j with O by lia. replace i with O by lia. lia. }
    split.
    + intros Hs _. cbn [nth].
      replace start with (start * Z.pos 1)%Z at 1 by lia.
      now apply floor_pow2_exact.
    + intros _ H. lia.
  - set (f := fun i : nat =>
                floor_pow2 (start * (num - 1) + Z.of_nat i * (stop - start))
                           (Z.to_pos (num - 1))).
    assert (Hnth : forall i, (i < Z.to_nat num)%nat ->
              nth i (map f (seq 0 (Z.to_nat num))) 0%Z = f i).
    { intros i Hi. rewrite (nth_indep _ 0%Z (f O)) by
        (now rewrite length_map, length_seq).
      rewrite map_nth, seq_nth by exact Hi. reflexivity. }
    rewrite length_map, length_seq.
    split; [reflexivity|]. split.
    { intros Hss i j Hij. rewrite !Hnth by lia. unfold f.
      apply floor_pow2_mono. nia. }
    split.
    + intros Hs Hnum. rewrite Hnth by lia. unfold f.
      replace (start * (num - 1) + Z.of_nat 0 * (stop - start))%Z
        with (start * Z.pos (Z.to_pos (num - 1)))%Z
        by (rewrite Z2Pos.id by lia; lia).
      now apply floor_pow2_exact.
    + intros Hs Hnum. rewrite Hnth by lia. unfold f.
      replace (start * (num - 1)
               + Z.of_nat (Z.to_nat num - 1) * (stop - start))%Z
        with (stop * Z.pos (Z.to_pos (num - 1)))%Z
        by (rewrite Z2Pos.id by lia; nia).
      now apply floor_pow2_exact.
Qed.

Lemma floor_logspace_samples (start stop num : Z) (samples : list Z) :
  floor_logspace start stop num = Ok samples ->
  forall z, In z samples ->
    exists i, (0 <= i < num)%Z
      /\ is_floor_pow2
           (if (num =? 1)%Z then start else start * (num - 1) + i * (stop - start))%Z
           (if (num =? 1)%Z then 1 else num - 1)%Z z.
Proof.
  unfold floor_logspace. destruct (Z.ltb_spec num 0) as [|Hn]; [discriminate|].
  destruct (Z.eqb_spec num 1) as [->|H1]; intros [= <-] z Hz.
  - destruct Hz as [<-|[]]. exists 0%Z. split; [lia|].
    apply (floor_pow2_spec start 1).
  - apply in_map_iff in Hz. destruct Hz as [i [<- Hi]]. apply in_seq in Hi.
    exists (Z.of_nat i). split; [lia|].
    pose proof (floor_pow2_spec (start * (num - 1) + Z.of_nat i * (stop - start))
                  (Z.to_pos (num - 1))) as H.
    rewrite Z2Pos.id in H by lia. exact H.
Qed.

Section Call.

Context {np : Numpy}.

Lemma call_inv (self : FracND) (a : ndarray Q) (g : rng_state)
    r self' g' (m : Z) (samples : list Z) :
  call self a g = (r, self', g') ->
  ~ Forall (fun x => x == 0) (ravel a) ->
  match max_box_size self with
  | Some m' => m' = m
  | None => default_max_box_size (shape a) = Ok m
  end ->
  floor_logspace m (min_box_size self) (n_samples self) = Ok samples ->
  let self1 :=
    set_series (set_scales (set_max_box_size self m) (np_unique_Z samples))
               [] [] in
  exists r2 self2,
    sweep self1 a (np_unique_Z samples) g = (r2, self2, g')
    /\ scales self' = scales self2 /\ Ns self' = Ns self2
    /\ lacunarity_spectrum self' = lacunarity_spectrum self2
    /\ max_box_size self' = max_box_size self2
    /\ (r = Ok tt -> r2 = Ok tt).
Proof.
  intros H Hnz Hm Hs self1. unfold call in H.
  destruct (forallb (fun x => Qeq_bool x 0) (ravel a)) eqn:E.
  { apply all_zero_iff in E. contradiction. }
  assert (Em : match max_box_size self with
               | None => default_max_box_size (shape a)
               | Some m => Ok m
               end = Ok m)
    by (destruct (max_box_size self); congruence).
  rewrite Em in H. unfold scale_sequence in H.
  change (min_box_size (set_max_box_size self m)) with (min_box_size self) in H.
  change (n_samples (set_max_box_size self m)) with (n_samples self) in H.
  rewrite Hs in H. cbn [bind] in H.
  change (scales (set_series (set_scales (set_max_box_size self m)
                                (np_unique_Z samples)) [] []))
    with (np_unique_Z samples) in H.
  fold self1 in H.
  destruct (sweep self1 a (np_unique_Z samples) g) as [[r2 self2] g2] eqn:Esw.
  destruct r2 as [u|e].
  - destruct (linear_fit _ _ true) as [fit|e].
    + destruct (linear_fit_float _ _ false) as [fit'|e];
        injection H as <- <- <-; exists (Ok u), self2;
        repeat split; destruct u; reflexivity.
    + injection H as <- <- <-. exists (Ok u), self2.
      repeat split; discriminate.
  - injection H as <- <- <-. exists (Raise e), self2.
    repeat split; discriminate.
Qed.


End Call.

(** ** greyscale_to_binary *)

Lemma length_flatten {A} (k : nat) (sh : list nat) (t : tensor A k) :
  has_shape k sh t = true -> length (flatten k t) = nat_prod sh.
Proof.
  revert sh t. induction k as [|k IH]; intros sh t H.
  - destruct sh; [reflexivity|discriminate].
  - destruct sh as [|n ns]; [discriminate|].
    apply has_shape_cons in H. destruct H as [Hlen Hsub].
    cbn [flatten]. rewrite (length_flat_map_const _ (nat_prod ns)).
    + now rewrite Hlen.
    + intros x Hx. apply IH. now apply Hsub.
Qed.

Lemma flatten_tmap {A B} (f : A -> B) (k : nat) (t : tensor A k) :
  flatten k (tmap f k t) = map f (flatten k t).
Proof.
  revert t. induction k as [|k IH]; intros t; [reflexivity|].
  cbn [tmap flatten]. rewrite !flat_map_concat_map, map_map, concat_map, map_map.
  f_equal. apply map_ext. intros x. apply IH.
Qed.

Lemma tmap_tmap {A B C} (f : A -> B) (g : B -> C) (k : nat) (t : tensor A k) :
  tmap g k (tmap f k t) = tmap (fun x => g (f x)) k t.
Proof.
  revert t. induction k as [|k IH]; intros t; [reflexivity|].
  cbn [tmap]. rewrite map_map. apply map_ext. intros x. apply IH.
Qed.

Lemma has_shape_tmap {A B} (f : A -> B) (k : nat) (sh : list nat) (t : tensor A k) :
  has_shape k sh (tmap f k t) = has_shape k sh t.
Proof.
  revert sh t. induction k as [|k IH]; intros sh t; [reflexivity|].
  destruct sh as [|n ns]; [reflexivity|]. cbn [has_shape tmap].
  rewrite length_map. f_equal.
  induction t as [|x t IHt]; [reflexivity|].
  cbn [map forallb]. now rewrite IH, IHt.
Qed.

Lemma combine_app_eq {A B} (l1 l2 : list A) (r1 r2 : list B) :
  length l1 = length r1 ->
  combine (l1 ++ l2) (r1 ++ r2) = combine l1 r1 ++ combine l2 r2.
Proof.
  revert r1. induction l1 as [|x l1 IH]; intros [|y r1] H; try discriminate.
  - reflexivity.
  - cbn [app combine]. f_equal. apply IH. now injection H.
Qed.

Lemma bin_indices_blocks (k : nat) (ns : list nat) (l : list (tensor Z k)) (s : nat) :
  (forall x, In x l -> has_shape k ns x = true) ->
  map (fun iv => map Z.of_nat (fst iv) ++ [snd iv])
      (combine (flat_map (fun i => map (cons i) (ndindex ns)) (seq s (length l)))
               (flat_map (flatten k) l))
  = flat_map (fun p => map (cons (Z.of_nat (fst p)))
                           (bin_indices ns (flatten k (snd p))))
             (combine (seq s (length l)) l).
Proof.
  revert s. induction l as [|x l IH]; intros s H; [reflexivity|].
  cbn [length seq flat_map combine].
  rewrite combine_app_eq.
  - rewrite map_app, IH by (intros y Hy; apply H; now right).
    f_equal. cbn [fst snd]. unfold bin_indices.
    rewrite !map_map. clear.
    generalize (flatten k x) as vals. generalize (ndindex ns) as idxs.
    induction idxs as [|i idxs IH']; intros [|v vs]; try reflexivity.
    cbn [map combine fst snd app]. now rewrite IH'.
  - rewrite length_map, length_ndindex.
    symmetry. apply length_flatten. apply H. now left.
Qed.

Lemma scatter_raise (d : nat) (e : exn) (idxs : list (list Z)) :
  fold_left (fun acc idx => b <- acc ;; tset d idx 1%Z b) idxs (Raise e)
  = Raise e.
Proof. induction idxs as [|i r IH]; [reflexivity|]. cbn [fold_left bind]. exact IH. Qed.

Lemma scatter_cons (d : nat) (t : tensor Z d) (idx : list Z) (idxs : list (list Z)) :
  scatter_ones d t (idx :: idxs)
  = (b <- tset d idx 1%Z t ;; scatter_ones d b idxs).
Proof.
  unfold scatter_ones. cbn [fold_left bind].
  destruct (tset d idx 1%Z t) as [b|e]; cbn [bind]; [reflexivity|].
  apply scatter_raise.
Qed.

Lemma scatter_app (d : nat) (t : tensor Z d) (i1 i2 : list (list Z)) :
  scatter_ones d t (i1 ++ i2)
  = (b <- scatter_ones d t i1 ;; scatter_ones d b i2).
Proof.
  revert t. induction i1 as [|i r IH]; intros t; [reflexivity|].
  cbn [app]. rewrite !scatter_cons.
  destruct (tset d i 1%Z t) as [b|e]; cbn [bind]; [apply IH|reflexivity].
Qed.

Lemma firstn_prefix {A} (pre l : list A) : firstn (length pre) (pre ++ l) = pre.
Proof. induction pre as [|x pre IH]; [reflexivity|]. cbn. now rewrite IH. Qed.

Lemma skipn_prefix {A} (pre post : list A) (x : A) :
  skipn (S (length pre)) (pre ++ x :: post) = post.
Proof. induction pre as [|y pre IH]; [reflexivity|]. exact IH. Qed.

Lemma tset_entry (k : nat) (pre post : list (tensor Z k)) (x : tensor Z k)
    (rest : list Z) :
  tset (S k) (Z.of_nat (length pre) :: rest) 1%Z (pre ++ x :: post)
  = (x' <- tset k rest 1%Z x ;; Ok (pre ++ x' :: post)).
Proof.
  cbn [tset]. destruct (Z.ltb_spec (Z.of_nat (length pre)) 0); [lia|].
  rewrite length_app. cbn [length].
  destruct (Z.leb_spec 0 (Z.of_nat (length pre))); [|lia].
  destruct (Z.ltb_spec (Z.of_nat (length pre))
              (Z.of_nat (length pre + S (length post)))); [|lia].
  cbn [andb]. rewrite Nat2Z.id.
  rewrite nth_error_app2, Nat.sub_diag by lia. cbn [nth_error].
  destruct (tset k rest 1%Z x) as [x'|e]; cbn [bind]; [|reflexivity].
  now rewrite firstn_prefix, skipn_prefix.
Qed.

Lemma scatter_entry (k : nat) (pre post : list (tensor Z k)) (idxs : list (list Z))
    (x : tensor Z k) :
  scatter_ones (S k) (pre ++ x :: post)
               (map (cons (Z.of_nat (length pre))) idxs)
  = (x' <- scatter_ones k x idxs ;; Ok (pre ++ x' :: post)).
Proof.
  revert x. induction idxs as [|i r IH]; intros x; [reflexivity|].
  cbn [map]. rewrite !scatter_cons, tset_entry.
  destruct (tset k i 1%Z x) as [x'|e]; cbn [bind]; [apply IH|reflexivity].
Qed.

Lemma scatter_blocks (w k : nat) (ns : list nat) :
  (forall x : tensor Z k,
     has_shape k ns x = true ->
     Forall (fun v => 0 <= v < Z.of_nat w)%Z (flatten k x) ->
     scatter_ones (S k) (tfull 0%Z (S k) (ns ++ [w])) (bin_indices ns (flatten k x))
     = Ok (tonehot w k x)) ->
  forall (l : list (tensor Z k)) (pre : list (tensor Z (S k))),
    (forall x, In x l -> has_shape k ns x = true) ->
    Forall (fun v => 0 <= v < Z.of_nat w)%Z (flat_map (flatten k) l) ->
    scatter_ones (S (S k))
      (pre ++ repeat (tfull 0%Z (S k) (ns ++ [w])) (length l))
      (flat_map (fun p => map (cons (Z.of_nat (fst p)))
                              (bin_indices ns (flatten k (snd p))))
                (combine (seq (length pre) (length l)) l))
    = Ok (pre ++ map (tonehot w k) l).
Proof.
  intros Hone. induction l as [|x l IH]; intros pre Hsh Hv.
  - cbn. reflexivity.
  - cbn [length seq combine flat_map repeat map fst snd].
    cbn [flat_map] in Hv. apply Forall_app in Hv. destruct Hv as [Hvx Hvl].
    rewrite scatter_app, scatter_entry.
    rewrite Hone by (auto; apply Hsh; now left). cbn [bind].
    replace (pre ++ tonehot w k x :: repeat (tfull 0%Z (S k) (ns ++ [w])) (length l))
      with ((pre ++ [tonehot w k x])
            ++ repeat (tfull 0%Z (S k) (ns ++ [w])) (length l))
      by (now rewrite <- app_assoc).
    replace (S (length pre)) with (length (pre ++ [tonehot w k x]))
      by (rewrite length_app; cbn; lia).
    rewrite IH by (auto; intros y Hy; apply Hsh; now right).
    now rewrite <- app_assoc.
Qed.

Lemma scatter_onehot (w : nat) :
  forall (d : nat) (sh : list nat) (qt : tensor Z d),
    has_shape d sh qt = true ->
    Forall (fun v => 0 <= v < Z.of_nat w)%Z (flatten d qt) ->
    scatter_ones (S d) (tfull 0%Z (S d) (sh ++ [w])) (bin_indices sh (flatten d qt))
    = Ok (tonehot w d qt).
Proof.
  induction d as [|k IH]; intros sh qt Hsh Hv.
  - destruct sh; [|discriminate]. cbn [flatten] in *.
    inversion Hv as [|? ? Hq _]; subst.
    unfold bin_indices. cbn [ndindex combine map fst snd app].
    rewrite scatter_cons. cbn [tfull app tset tonehot].
    rewrite repeat_length.
    destruct (Z.ltb_spec qt 0); [lia|].
    destruct (Z.leb_spec 0 qt); [|lia].
    destruct (Z.ltb_spec qt (Z.of_nat w)); [|lia]. cbn [andb].
    cbn [bind].
    match goal with
    | |- context [nth_error ?l ?i] => destruct (nth_error l i) eqn:E
    end.
    + reflexivity.
    + apply nth_error_None in E. rewrite repeat_length in E. lia.
  - destruct sh as [|n ns]; [discriminate|].
    apply has_shape_cons in Hsh. destruct Hsh as [Hlen Hsub].
    unfold bin_indices. cbn [ndindex flatten].
    rewrite <- Hlen. rewrite bin_indices_blocks by exact Hsub.
    cbn [app tfull tonehot].
    apply (scatter_blocks w k ns (IH ns) qt []); assumption.
Qed.

Lemma firstn_repeat_le {A} (x : A) (n w : nat) :
  (n <= w)%nat -> firstn n (repeat x w) = repeat x n.
Proof.
  revert w. induction n as [|n IH]; intros [|w] H; try reflexivity; try lia.
  cbn. f_equal. apply IH. lia.
Qed.

Lemma skipn_repeat {A} (x : A) (n w : nat) :
  skipn n (repeat x w) = repeat x (w - n).
Proof.
  revert w. induction n as [|n IH]; intros [|w]; try reflexivity.
  cbn. apply IH.
Qed.

Lemma onehot_repeat (w : nat) (v : Z) :
  (0 <= v < Z.of_nat w)%Z ->
  onehot w v = repeat 0%Z (Z.to_nat v) ++ 1%Z :: repeat 0%Z (w - S (Z.to_nat v)).
Proof.
  intros H. unfold onehot. rewrite firstn_repeat_le by lia.
  now rewrite skipn_repeat.
Qed.

Lemma Zsum_app (l1 l2 : list Z) : Zsum (l1 ++ l2) = (Zsum l1 + Zsum l2)%Z.
Proof.
  unfold Zsum. induction l1 as [|x l1 IH]; cbn [app fold_right]; [reflexivity|].
  rewrite IH. lia.
Qed.

Lemma Zsum_zeros (n : nat) : Zsum (repeat 0%Z n) = 0%Z.
Proof. unfold Zsum. induction n as [|n IH]; cbn; [reflexivity|exact IH]. Qed.

Lemma Zsum_onehot (w : nat) (v : Z) :
  (0 <= v < Z.of_nat w)%Z -> Zsum (onehot w v) = 1%Z.
Proof.
  intros H. rewrite onehot_repeat by exact H.
  change (1%Z :: ?l) with ([1%Z] ++ l). rewrite !Zsum_app, !Zsum_zeros.
  reflexivity.
Qed.

Lemma argmax_from_zeros (best : Z) (bi i n : nat) :
  (0 <= best)%Z -> argmax_from best bi i (repeat 0%Z n) = bi.
Proof.
  intros H. revert i. induction n as [|n IH]; intros i; [reflexivity|].
  cbn [repeat argmax_from]. destruct (Z.ltb_spec best 0); [lia|]. apply IH.
Qed.

Lemma argmax_from_up (bi i n m : nat) :
  argmax_from 0 bi i (repeat 0%Z n ++ 1%Z :: repeat 0%Z m) = (i + n)%nat.
Proof.
  revert i. induction n as [|n IH]; intros i.
  - cbn [repeat app argmax_from]. cbn. rewrite argmax_from_zeros by lia. lia.
  - cbn [repeat app argmax_from]. cbn [Z.ltb Z.compare]. rewrite IH. lia.
Qed.

Lemma argmax_onehot (w : nat) (v : Z) :
  (0 <= v < Z.of_nat w)%Z -> Z.of_nat (argmax (onehot w v)) = v.
Proof.
  intros H. rewrite onehot_repeat by exact H.
  destruct (Z.to_nat v) as [|n] eqn:E.
  - cbn [repeat app argmax]. rewrite argmax_from_zeros by lia. lia.
  - cbn [repeat app argmax]. rewrite argmax_from_up. lia.
Qed.

Lemma tsum_last_onehot (w d : nat) (qt : tensor Z d) :
  Forall (fun v => 0 <= v < Z.of_nat w)%Z (flatten d qt) ->
  tsum_last d (tonehot w d qt) = tmap (fun _ => 1%Z) d qt.
Proof.
  revert qt. induction d as [|k IH]; intros qt H.
  - cbn [flatten] in H. inversion H; subst. now apply Zsum_onehot.
  - cbn [tsum_last tonehot tmap flatten] in *. rewrite map_map.
    apply map_ext_in. intros x Hx. apply IH.
    rewrite Forall_forall in *. intros v Hv. apply H.
    apply in_flat_map. eauto.
Qed.

Lemma targmax_last_onehot (w d : nat) (qt : tensor Z d) :
  Forall (fun v => 0 <= v < Z.of_nat w)%Z (flatten d qt) ->
  targmax_last d (tonehot w d qt) = qt.
Proof.
  revert qt. induction d as [|k IH]; intros qt H.
  - cbn [flatten] in H. inversion H; subst. now apply argmax_onehot.
  - cbn [targmax_last tonehot flatten] in *. rewrite map_map.
    rewrite <- (map_id qt) at 2.
    apply map_ext_in. intros x Hx. apply IH.
    rewrite Forall_forall in *. intros v Hv. apply H.
    apply in_flat_map. eauto.
Qed.

Lemma Zlist_max_ge (x : Z) (r : list Z) (y : Z) :
  In y (x :: r) -> (y <= Zlist_max x r)%Z.
Proof.
  unfold Zlist_max. induction r as [|z r IH]; cbn [fold_right]; intros H.
  - destruct H as [->|[]]. lia.
  - destruct H as [->|[->|H]].
    + specialize (IH (or_introl eq_refl)). lia.
    + lia.
    + specialize (IH (or_intror H)). lia.
Qed.

Lemma int_of_Q_nonneg (q : Q) : 0 <= q -> (0 <= int_of_Q q)%Z.
Proof.
  intros H. rewrite int_of_Q_floor by exact H.
  change 0%Z with (Qfloor 0). now apply Qfloor_resp_le.
Qed.

(** Claim C8, as the code computes it.  For a non-constant array and a
    non-negative number of levels, [greyscale_to_binary] returns the one-hot
    encoding of the rescaled, quantised field along a new last axis: the
    length of that axis is the largest quantised value plus one, the sum over
    it is 1 at every position, and the position of the maximum along it is
    the quantised field. *)
Theorem greyscale_to_binary_onehot (a : ndarray Q) (levels : Z) :
  well_formed a = true -> (0 <= levels)%Z ->
  (exists x y, In x (ravel a) /\ In y (ravel a) /\ ~ x == y) ->
  exists b q,
    greyscale_to_binary a levels = Ok b
    /\ quantised a levels = Ok q
    /\ shape b = shape a ++ [Z.to_nat (Zlist_max 0 (ravel q) + 1)]
    /\ sum_last_axis b = Ok (array_map (fun _ => 1%Z) q)
    /\ argmax_last_axis b = Ok q.
Proof.
  intros Hwf Hlev [x [y [Hx [Hy Hxy]]]].
  destruct (well_formed_inv a Hwf) as [Hrank [Hsh _]].
  unfold greyscale_to_binary, quantised.
  destruct (ravel a) as [|x0 r] eqn:Er; [destruct Hx|].
  cbn [np_min np_max bind].
  set (lo := Qlist_min x0 r). set (hi := Qlist_max x0 r).
  assert (Hlo : forall z, In z (x0 :: r) -> lo <= z) by (intros; now apply Qlist_min_le).
  assert (Hhi : forall z, In z (x0 :: r) -> z <= hi) by (intros; now apply Qlist_max_ge).
  assert (Hgap : 0 < hi - lo).
  { destruct (Qlt_le_dec lo hi) as [H|H]; [lra|].
    exfalso. apply Hxy.
    pose proof (Hlo x Hx). pose proof (Hhi x Hx).
    pose proof (Hlo y Hy). pose proof (Hhi y Hy). lra. }
  destruct (Qeq_bool (hi - lo) 0) eqn:E.
  { apply Qeq_bool_eq in E. lra. }
  set (f := fun x => int_of_Q ((x - lo) / (hi - lo) * inject_Z levels)).
  assert (Emap : array_map (fun x => int_of_Q (x * inject_Z levels))
                   (array_map (fun x => (x - lo) / (hi - lo)) a)
                 = array_map f a).
  { unfold array_map. cbn [ndim shape items]. now rewrite tmap_tmap. }
  rewrite Emap.
  assert (Erav : ravel (array_map f a) = map f (x0 :: r)).
  { unfold ravel, array_map. cbn [ndim items]. rewrite flatten_tmap.
    unfold ravel in Er. now rewrite Er. }
  assert (Hnonneg : forall v, In v (map f (x0 :: r)) -> (0 <= v)%Z).
  { intros v Hv. apply in_map_iff in Hv. destruct Hv as [z [<- Hz]].
    unfold f. apply int_of_Q_nonneg.
    apply Qmult_le_0_compat.
    - apply Qle_shift_div_l; [exact Hgap|]. specialize (Hlo z Hz). lra.
    - change 0 with (inject_Z 0). now rewrite <- Zle_Qle. }
  rewrite Erav. cbn [map].
  set (mx := Zlist_max (f x0) (map f r)).
  assert (Hmx : forall v, In v (map f (x0 :: r)) -> (v <= mx)%Z)
    by (intros; now apply Zlist_max_ge).
  assert (Hmx0 : (0 <= mx)%Z).
  { assert (Hin : In (f x0) (map f (x0 :: r))) by (now left).
    specialize (Hnonneg _ Hin). specialize (Hmx _ Hin). lia. }
  destruct (Z.ltb_spec (mx + 1) 0); [lia|].
  cbn [shape ndim array_map].
  set (w := Z.to_nat (mx + 1)).
  assert (Hrange : Forall (fun v => 0 <= v < Z.of_nat w)%Z
                          (flatten (ndim a) (tmap f (ndim a) (items a)))).
  { change (flatten (ndim a) (tmap f (ndim a) (items a)))
      with (ravel (array_map f a)).
    rewrite Erav. apply Forall_forall.
    intros v Hv. specialize (Hnonneg v Hv). specialize (Hmx v Hv).
    unfold w. lia. }
  change (map (fun iv => map Z.of_nat (fst iv) ++ [snd iv])
              (combine (ndindex (shape a)) (f x0 :: map f r)))
    with (bin_indices (shape a) (map f (x0 :: r))).
  rewrite <- Erav. unfold ravel at 1. cbn [ndim items array_map].
  rewrite (scatter_onehot w (ndim a) (shape a))
    by (auto; now rewrite has_shape_tmap).
  cbn [bind]. eexists. eexists. split; [reflexivity|].
  split; [reflexivity|].
  split.
  { cbn [shape]. f_equal. f_equal. unfold w. f_equal. f_equal.
    rewrite Erav. unfold mx, Zlist_max. cbn [map fold_right].
    assert (Hr : forall l b, (0 <= b)%Z ->
                   fold_right Z.max b l = Z.max b (fold_right Z.max 0%Z l)).
    { induction l as [|v vs IH]; intros b Hb; cbn [fold_right]; [lia|].
      rewrite (IH b Hb). lia. }
    rewrite (Hr (map f r) (f x0)); [reflexivity|].
    apply Hnonneg. now left. }
  split.
  - unfold sum_last_axis, array_map. cbn [ndim shape items].
    rewrite removelast_last, tsum_last_onehot by exact Hrange.
    now rewrite tmap_tmap.
  - unfold argmax_last_axis. cbn [ndim shape items].
    rewrite removelast_last, targmax_last_onehot by exact Hrange.
    reflexivity.
Qed.

(** ** crop_segmentation *)

Lemma In_combine_seq {A} (l : list A) (s i : nat) (x : A) :
  In (i, x) (combine (seq s (length l)) l)
  <-> (s <= i)%nat /\ nth_error l (i - s) = Some x.
Proof.
  revert s. induction l as [|y l IH]; intros s; cbn [length seq combine In].
  - split; [tauto|]. intros [_ H]. destruct (i - s)%nat; discriminate.
  - rewrite IH. split.
    + intros [H|[H1 H2]].
      * injection H as <- <-. rewrite Nat.sub_diag. split; [lia|reflexivity].
      * split; [lia|]. replace (i - s)%nat with (S (i - S s)) by lia. exact H2.
    + intros [H1 H2]. destruct (Nat.eq_dec s i) as [->|Hne].
      * rewrite Nat.sub_diag in H2. injection H2 as ->. now left.
      * right. split; [lia|].
        replace (i - s)%nat with (S (i - S s)) in H2 by lia. exact H2.
Qed.

Lemma tnonzero_spec (d : nat) (t : tensor Q d) (idx : list nat) :
  In idx (tnonzero d t) <-> exists v, tget d idx t = Some v /\ ~ v == 0.
Proof.
  revert t idx. induction d as [|k IH]; intros t idx.
  - cbn [tnonzero tget]. destruct (Qeq_bool t 0) eqn:E.
    + apply Qeq_bool_eq in E. split; [intros []|].
      intros [v [H Hv]]. destruct idx; [|discriminate H].
      injection H as <-. contradiction.
    + split.
      * intros [<-|[]]. exists t. split; [reflexivity|].
        intros H. apply Qeq_eq_bool in H. congruence.
      * intros [v [H _]]. destruct idx; [now left|discriminate H].
  - cbn [tnonzero tget]. rewrite in_flat_map. split.
    + intros [[i sub] [Hin H]]. cbn [fst snd] in H.
      apply in_map_iff in H. destruct H as [rest [<- Hrest]].
      apply In_combine_seq in Hin. destruct Hin as [_ Hn].
      rewrite Nat.sub_0_r in Hn. rewrite Hn. now apply IH.
    + intros [v [H Hv]]. destruct idx as [|i rest]; [discriminate H|].
      match type of H with
      | context [@nth_error ?T ?l ?j] =>
          remember (@nth_error T l j) as o eqn:En in *
      end.
      symmetry in En. destruct o as [sub|]; [|discriminate H].
      exists (i, sub). split.
      * apply In_combine_seq. rewrite Nat.sub_0_r. split; [lia|exact En].
      * cbn [fst snd]. apply in_map. apply IH. eauto.
Qed.

Lemma Qsum_app (l1 l2 : list Q) : Qsum (l1 ++ l2) == Qsum l1 + Qsum l2.
Proof.
  induction l1 as [|x l1 IH]; cbn [app].
  - unfold Qsum at 2. cbn. ring.
  - rewrite !Qsum_cons, IH. ring.
Qed.

Lemma Qsum_flat_map {A} (f : A -> list Q) (l : list A) :
  Qsum (flat_map f l) == Qsum (map (fun x => Qsum (f x)) l).
Proof.
  induction l as [|x l IH]; [reflexivity|].
  cbn [flat_map map]. rewrite Qsum_app, Qsum_cons, IH. reflexivity.
Qed.

Lemma tnonzero_nil_sum (d : nat) (t : tensor Q d) :
  tnonzero d t = [] -> Qsum (flatten d t) == 0.
Proof.
  revert t. induction d as [|k IH]; intros t H.
  - cbn [tnonzero flatten] in *. destruct (Qeq_bool t 0) eqn:E; [|discriminate].
    apply Qeq_bool_eq in E. unfold Qsum. cbn. rewrite E. ring.
  - cbn [flatten]. rewrite Qsum_flat_map.
    assert (Hall : forall i x, nth_error t i = Some x -> Qsum (flatten k x) == 0).
    { intros i x Hx. apply IH.
      destruct (tnonzero k x) as [|r rs] eqn:E; [reflexivity|].
      exfalso. assert (Hin : In (i :: r) (tnonzero (S k) t)).
      { cbn [tnonzero]. apply in_flat_map. exists (i, x). split.
        - apply In_combine_seq. rewrite Nat.sub_0_r. split; [lia|exact Hx].
        - cbn [fst snd]. rewrite E. now left. }
      rewrite H in Hin. destruct Hin. }
    clear H. induction t as [|x t IHt]; [reflexivity|].
    cbn [map]. rewrite Qsum_cons, (Hall 0%nat x eq_refl), IHt.
    + ring.
    + intros i y Hy. apply (Hall (S i)). exact Hy.
Qed.

(** A sum over a list restricted to a window outside of which every term
    vanishes. *)
Lemma Qsum_window {A} (F G : A -> Q) (l : list A) :
  forall off len : nat,
    (forall p x, nth_error l p = Some x ->
                 (off <= p < off + len)%nat -> G x == F x) ->
    (forall p x, nth_error l p = Some x ->
                 ~ (off <= p < off + len)%nat -> F x == 0) ->
    Qsum (map G (firstn len (skipn off l))) == Qsum (map F l).
Proof.
  induction l as [|x l IH]; intros off len Hin Hout.
  - rewrite skipn_nil, firstn_nil. reflexivity.
  - destruct off as [|off].
    + cbn [skipn]. destruct len as [|len].
      * cbn [firstn map]. rewrite Qsum_cons.
        rewrite (Hout 0%nat x eq_refl) by lia.
        rewrite <- (IH 0%nat 0%nat).
        -- cbn [skipn firstn map]. unfold Qsum. cbn. ring.
        -- intros p y Hy Hp. lia.
        -- intros p y Hy _. apply (Hout (S p) y Hy). lia.
      * cbn [firstn map]. rewrite !Qsum_cons.
        rewrite (Hin 0%nat x eq_refl) by lia.
        rewrite <- (IH 0%nat len).
        -- reflexivity.
        -- intros p y Hy Hp. apply (Hin (S p) y Hy). lia.
        -- intros p y Hy Hp. apply (Hout (S p) y Hy). lia.
    + cbn [skipn map]. rewrite Qsum_cons.
      rewrite (Hout 0%nat x eq_refl) by lia.
      rewrite (IH off len).
      * ring.
      * intros p y Hy Hp. apply (Hin (S p) y Hy). lia.
      * intros p y Hy Hp. apply (Hout (S p) y Hy). lia.
Qed.

Lemma slice_bounds_nat (lo hi n : nat) :
  slice_bounds (Z.of_nat lo) (Z.of_nat hi) n
  = (Nat.min lo n, Nat.min hi n - Nat.min lo n)%nat.
Proof.
  unfold slice_bounds.
  destruct (Z.ltb_spec (Z.of_nat lo) 0); [lia|].
  destruct (Z.ltb_spec (Z.of_nat hi) 0); [lia|].
  f_equal; lia.
Qed.

Lemma In_tnonzero_cons (k : nat) (l : list (tensor Q k)) (p : nat)
    (x : tensor Q k) (idx : list nat) :
  nth_error l p = Some x -> In idx (tnonzero k x) ->
  In (p :: idx) (tnonzero (S k) l).
Proof.
  intros Hx Hi. cbn [tnonzero]. apply in_flat_map. exists (p, x). split.
  - apply In_combine_seq. rewrite Nat.sub_0_r. split; [lia|exact Hx].
  - cbn [fst snd]. now apply in_map.
Qed.

Lemma flat_map_map {A B C} (f : B -> list C) (g : A -> B) (l : list A) :
  flat_map f (map g l) = flat_map (fun x => f (g x)) l.
Proof.
  induction l as [|x l IH]; [reflexivity|]. cbn [map flat_map]. now rewrite IH.
Qed.

Lemma nth_error_Some_lt {A} (l : list A) (p : nat) (x : A) :
  nth_error l p = Some x -> (p < length l)%nat.
Proof. intros H. apply nth_error_Some. congruence. Qed.

(** Slicing keeps the sum when every non-zero item lies inside the box. *)
Lemma Qsum_tslice (d : nat) :
  forall (bs : list (nat * nat)) (t : tensor Q d),
    (forall idx, In idx (tnonzero d t) -> within bs idx) ->
    Qsum (flatten d (tslice d (box_slices bs) t)) == Qsum (flatten d t).
Proof.
  induction d as [|k IH]; intros bs t H; [reflexivity|].
  destruct bs as [|[lo hi] bs]; [reflexivity|].
  cbn [box_slices map fst snd tslice flatten].
  rewrite slice_bounds_nat.
  rewrite flat_map_map, !Qsum_flat_map.
  apply (Qsum_window (fun x => Qsum (flatten k x))
           (fun x => Qsum (flatten k (tslice k (box_slices bs) x)))).
  - intros p x Hx _. apply IH. intros idx Hi.
    specialize (H (p :: idx) (In_tnonzero_cons k t p x idx Hx Hi)).
    cbn [within] in H. tauto.
  - intros p x Hx Hp. apply tnonzero_nil_sum.
    destruct (tnonzero k x) as [|idx r] eqn:E; [reflexivity|].
    exfalso. apply Hp.
    assert (Hi : In idx (tnonzero k x)) by (rewrite E; now left).
    specialize (H (p :: idx) (In_tnonzero_cons k t p x idx Hx Hi)).
    cbn [within] in H.
    match goal with
    | |- context [@length ?T t] =>
        pose proof (@nth_error_Some_lt T t p x Hx)
    end.
    lia.
Qed.

Lemma nth_error_slice {A B} (g : A -> B) (l : list A) (lo len i : nat) :
  (i < len)%nat ->
  nth_error (map g (firstn len (skipn lo l))) i
  = option_map g (nth_error l (lo + i)).
Proof.
  intros H. rewrite nth_error_map, nth_error_firstn, nth_error_skipn.
  destruct (Nat.ltb_spec i len); [reflexivity|lia].
Qed.

Lemma option_map_match {A B C} (g : A -> B) (o : option A)
    (f1 : B -> option C) (f2 : A -> option C) :
  (forall x, o = Some x -> f1 (g x) = f2 x) ->
  match option_map g o with Some y => f1 y | None => None end
  = match o with Some x => f2 x | None => None end.
Proof. intros H. destruct o; cbn; [now apply H|reflexivity]. Qed.

(** An item of the slice is the item of the array at the shifted index. *)
Lemma tget_tslice {A} (d : nat) :
  forall (bs : list (nat * nat)) (sh idx : list nat) (t : tensor A d),
    has_shape d sh t = true -> box_ok bs sh -> in_box bs idx ->
    tget d idx (tslice d (box_slices bs) t) = tget d (shift bs idx) t.
Proof.
  induction d as [|k IH]; intros bs sh idx t Hsh Hok Hin.
  - destruct bs as [|[lo hi] bs]; [|destruct sh; [destruct Hok|discriminate Hsh]].
    reflexivity.
  - destruct sh as [|n sh]; [discriminate Hsh|].
    apply has_shape_cons in Hsh. destruct Hsh as [Hlen Hsub].
    destruct bs as [|[lo hi] bs]; [destruct Hok|].
    destruct idx as [|i idx]; [destruct Hin|].
    cbn [box_ok in_box] in Hok, Hin. destruct Hok as [Hb Hok]. destruct Hin as [Hi Hin].
    cbn [box_slices map fst snd tslice shift tget].
    rewrite slice_bounds_nat, Hlen.
    rewrite !Nat.min_l by lia.
    rewrite nth_error_slice by exact Hi.
    apply option_map_match. intros sub E.
    apply (IH bs sh); auto. apply Hsub. eapply nth_error_In, E.
Qed.

Lemma slice_shape_box (bs : list (nat * nat)) :
  forall sh : list nat,
    box_ok bs sh ->
    slice_shape (box_slices bs) sh = map (fun b => (snd b - fst b)%nat) bs.
Proof.
  induction bs as [|[lo hi] bs IH]; intros [|n sh] Hok; try destruct Hok;
    try reflexivity.
  cbn [box_slices map fst snd slice_shape].
  rewrite slice_bounds_nat. rewrite !Nat.min_l by lia. cbn [snd].
  f_equal. now apply IH.
Qed.

Lemma has_shape_tslice {A} (d : nat) :
  forall (bs : list (nat * nat)) (sh : list nat) (t : tensor A d),
    has_shape d sh t = true -> box_ok bs sh ->
    has_shape d (map (fun b => (snd b - fst b)%nat) bs)
              (tslice d (box_slices bs) t) = true.
Proof.
  induction d as [|k IH]; intros bs sh t Hsh Hok.
  - destruct sh; [|discriminate Hsh].
    destruct bs as [|[lo hi] bs]; [reflexivity|destruct Hok].
  - destruct sh as [|n sh]; [discriminate Hsh|].
    apply has_shape_cons in Hsh. destruct Hsh as [Hlen Hsub].
    destruct bs as [|[lo hi] bs]; [destruct Hok|].
    cbn [box_ok] in Hok. destruct Hok as [Hb Hok].
    cbn [box_slices map fst snd tslice has_shape].
    rewrite slice_bounds_nat, Hlen. rewrite !Nat.min_l by lia.
    rewrite length_map, length_firstn, length_skipn, Hlen.
    rewrite Nat.min_l by lia. rewrite Nat.eqb_refl. cbn [andb].
    apply forallb_forall. intros y Hy. apply in_map_iff in Hy.
    destruct Hy as [x [<- Hx]]. apply (IH bs sh); [|exact Hok].
    apply Hsub. eapply In_window, Hx.
Qed.

Lemma tget_bounds {A} (d : nat) :
  forall (sh idx : list nat) (t : tensor A d) (v : A),
    has_shape d sh t = true -> tget d idx t = Some v -> Forall2 lt idx sh.
Proof.
  induction d as [|k IH]; intros sh idx t v Hsh H.
  - destruct sh; [|discriminate Hsh]. destruct idx; [constructor|discriminate H].
  - destruct sh as [|n sh]; [discriminate Hsh|].
    apply has_shape_cons in Hsh. destruct Hsh as [Hlen Hsub].
    destruct idx as [|i idx]; [discriminate H|]. cbn [tget] in H.
    as_list t.
    destruct (nth_error t i) as [sub|] eqn:E; [|discriminate H].
    constructor.
    + rewrite <- Hlen. eapply nth_error_Some_lt, E.
    + apply (IH sh idx sub v); [|exact H]. apply Hsub.
      eapply nth_error_In, E.
Qed.

Lemma tget_flatten {A} (d : nat) :
  forall (t : tensor A d) (x : A),
    In x (flatten d t) <-> exists idx, tget d idx t = Some x.
Proof.
  induction d as [|k IH]; intros t x.
  - cbn [flatten tget]. split.
    + intros [<-|[]]. now exists [].
    + intros [[|i idx] H]; [injection H as <-; now left|discriminate H].
  - as_list t. cbn [flatten]. rewrite in_flat_map. split.
    + intros [sub [Hsub Hx]]. apply IH in Hx. destruct Hx as [idx Hidx].
      apply In_nth_error in Hsub. destruct Hsub as [i Hi].
      exists (i :: idx). cbn [tget]. now rewrite Hi.
    + intros [[|i idx] H]; [discriminate H|]. cbn [tget] in H.
      destruct (nth_error t i) as [sub|] eqn:E; [|discriminate H].
      exists sub. split; [eapply nth_error_In, E|]. apply IH. now exists idx.
Qed.

Lemma fold_min_spec (x : nat) (r : list nat) :
  let m := fold_right Nat.min x r in
  In m (x :: r) /\ forall y, In y (x :: r) -> (m <= y)%nat.
Proof.
  induction r as [|z r [IH1 IH2]]; cbn [fold_right].
  - split; [now left|]. intros y [<-|[]]. lia.
  - cbv zeta in *. split.
    + destruct (Nat.min_spec z (fold_right Nat.min x r)) as [[_ ->]|[_ ->]].
      * right. now left.
      * destruct IH1 as [H|H]; [now left|right; now right].
    + intros y [<-|[<-|H]].
      * specialize (IH2 x (or_introl eq_refl)). lia.
      * lia.
      * specialize (IH2 y (or_intror H)). lia.
Qed.

Lemma fold_max_spec (x : nat) (r : list nat) :
  let m := fold_right Nat.max x r in
  In m (x :: r) /\ forall y, In y (x :: r) -> (y <= m)%nat.
Proof.
  induction r as [|z r [IH1 IH2]]; cbn [fold_right].
  - split; [now left|]. intros y [<-|[]]. lia.
  - cbv zeta in *. split.
    + destruct (Nat.max_spec z (fold_right Nat.max x r)) as [[_ ->]|[_ ->]].
      * destruct IH1 as [H|H]; [now left|right; now right].
      * right. now left.
    + intros y [<-|[<-|H]].
      * specialize (IH2 x (or_introl eq_refl)). lia.
      * lia.
      * specialize (IH2 y (or_intror H)). lia.
Qed.

(** The index inside the box that an index of the array corresponds to. *)
Lemma unshift (bs : list (nat * nat)) :
  forall idx : list nat,
    within bs idx -> length idx = length bs ->
    exists idx',
      in_box bs idx' /\ shift bs idx' = idx
      /\ forall ax, nth ax idx' O = (nth ax idx O - fst (nth ax bs (O, O)))%nat.
Proof.
  induction bs as [|[lo hi] bs IH]; intros [|i idx] Hw Hlen; try discriminate Hlen.
  - exists []. repeat split. intros [|ax]; reflexivity.
  - cbn [within] in Hw. destruct Hw as [Hi Hw].
    destruct (IH idx Hw ltac:(now injection Hlen)) as [idx' [Hb [Hs Hn]]].
    exists ((i - lo)%nat :: idx'). cbn [in_box shift]. repeat split.
    + lia.
    + exact Hb.
    + rewrite Hs. f_equal. lia.
    + intros [|ax]; cbn [nth fst]; [reflexivity|apply Hn].
Qed.

Lemma column_extrema (ax : nat) (i0 : list nat) (rest : list (list nat)) :
  let col := map (fun idx => nth ax idx O) rest in
  let mn := fold_right Nat.min (nth ax i0 O) col in
  let mx := fold_right Nat.max (nth ax i0 O) col in
  (exists idx, In idx (i0 :: rest) /\ nth ax idx O = mn)
  /\ (exists idx, In idx (i0 :: rest) /\ nth ax idx O = mx)
  /\ forall idx, In idx (i0 :: rest) -> (mn <= nth ax idx O <= mx)%nat.
Proof.
  intros col mn mx.
  destruct (fold_min_spec (nth ax i0 O) col) as [Hm1 Hm2].
  destruct (fold_max_spec (nth ax i0 O) col) as [HM1 HM2].
  fold mn in Hm1, Hm2. fold mx in HM1, HM2.
  change (nth ax i0 O :: col) with (map (fun idx => nth ax idx O) (i0 :: rest))
    in Hm1, Hm2, HM1, HM2.
  split; [|split].
  - apply in_map_iff in Hm1. destruct Hm1 as [idx [E H]]. eauto.
  - apply in_map_iff in HM1. destruct HM1 as [idx [E H]]. eauto.
  - intros idx Hidx.
    assert (Hin : In (nth ax idx O) (map (fun idx => nth ax idx O) (i0 :: rest)))
      by (apply (in_map (fun idx => nth ax idx O)); exact Hidx).
    specialize (Hm2 _ Hin). specialize (HM2 _ Hin). lia.
Qed.

Lemma tget_length {A} (d : nat) :
  forall (idx : list nat) (t : tensor A d) (v : A),
    tget d idx t = Some v -> length idx = d.
Proof.
  induction d as [|k IH]; intros idx t v H.
  - destruct idx; [reflexivity|discriminate H].
  - destruct idx as [|i idx]; [discriminate H|]. cbn [tget] in H. as_list t.
    destruct (nth_error t i) as [sub|]; [|discriminate H].
    cbn [length]. f_equal. eapply IH, H.
Qed.

Lemma Zprod_le (cs ns : list Z) :
  Forall2 (fun c n => 0 <= c <= n)%Z cs ns ->
  (0 <= Zprod cs <= Zprod ns)%Z.
Proof.
  induction 1 as [|c n cs ns Hc _ IH]; unfold Zprod in *; cbn [fold_right];
    [lia|nia].
Qed.

(** Claim C10.  For a 3-dimensional array with a non-zero element,
    [crop_segmentation] returns the sub-array between the least and the
    greatest index of a non-zero element along each axis.  The cropped array
    is the input read at the shifted indices, it contains every non-zero
    element of the input, so the total sum is preserved, and each of its six
    boundary slices contains a non-zero element. *)
Theorem crop_segmentation_bounding_box (a : ndarray Q) :
  well_formed a = true -> ndim a = 3%nat ->
  (exists x, In x (ravel a) /\ ~ x == 0) ->
  exists c lo hi,
    crop_segmentation a = Ok (c, lo, hi)
    /\ length lo = 3%nat /\ length hi = 3%nat
    /\ (forall ax, (ax < 3)%nat ->
          (exists idx v, tget (ndim a) idx (items a) = Some v /\ ~ v == 0
                         /\ nth ax idx O = nth ax lo O)
          /\ (exists idx v, tget (ndim a) idx (items a) = Some v /\ ~ v == 0
                            /\ S (nth ax idx O) = nth ax hi O)
          /\ (forall idx v, tget (ndim a) idx (items a) = Some v -> ~ v == 0 ->
                (nth ax lo O <= nth ax idx O < nth ax hi O)%nat))
    /\ well_formed c = true
    /\ shape c = map (fun b => (snd b - fst b)%nat) (combine lo hi)
    /\ (forall idx, in_box (combine lo hi) idx ->
          tget (ndim c) idx (items c)
          = tget (ndim a) (shift (combine lo hi) idx) (items a))
    /\ (forall idx v, tget (ndim a) idx (items a) = Some v -> ~ v == 0 ->
          exists idx', in_box (combine lo hi) idx'
                       /\ shift (combine lo hi) idx' = idx
                       /\ tget (ndim c) idx' (items c) = Some v)
    /\ Qsum (ravel c) == Qsum (ravel a)
    /\ (forall ax, (ax < 3)%nat ->
          (exists idx v, tget (ndim c) idx (items c) = Some v /\ ~ v == 0
                         /\ nth ax idx O = O)
          /\ (exists idx v, tget (ndim c) idx (items c) = Some v /\ ~ v == 0
                            /\ S (nth ax idx O) = nth ax (shape c) O)).
Proof.
  intros Hwf Hd [x [Hx Hx0]].
  destruct (well_formed_inv a Hwf) as [Hrank [Hsh Hsize]].
  destruct a as [d sh t]. cbn [ndim shape items] in *. subst d.
  unfold ravel in Hx. cbn [ndim items] in Hx.
  apply tget_flatten in Hx. destruct Hx as [idx0 Hidx0].
  assert (Hfound : In idx0 (tnonzero 3 t)) by (apply tnonzero_spec; eauto).
  unfold crop_segmentation, np_nonzero. cbn [ndim items seq map].
  destruct (tnonzero 3 t) as [|i0 rest] eqn:Efound; [destruct Hfound|].
  cbn [map np_min_nat np_max_nat sequence bind].
  pose proof (column_extrema 0 i0 rest) as H0.
  pose proof (column_extrema 1 i0 rest) as H1.
  pose proof (column_extrema 2 i0 rest) as H2.
  cbv zeta in H0, H1, H2.
  set (m0 := fold_right Nat.min (nth 0 i0 O) (map (fun idx => nth 0 idx O) rest)) in *.
  set (m1 := fold_right Nat.min (nth 1 i0 O) (map (fun idx => nth 1 idx O) rest)) in *.
  set (m2 := fold_right Nat.min (nth 2 i0 O) (map (fun idx => nth 2 idx O) rest)) in *.
  set (M0 := fold_right Nat.max (nth 0 i0 O) (map (fun idx => nth 0 idx O) rest)) in *.
  set (M1 := fold_right Nat.max (nth 1 i0 O) (map (fun idx => nth 1 idx O) rest)) in *.
  set (M2 := fold_right Nat.max (nth 2 i0 O) (map (fun idx => nth 2 idx O) rest)) in *.
  set (bs := [(m0, (M0 + 1)%nat); (m1, (M1 + 1)%nat); (m2, (M2 + 1)%nat)]).
  change [(Z.of_nat m0, Z.of_nat (M0 + 1)); (Z.of_nat m1, Z.of_nat (M1 + 1));
          (Z.of_nat m2, Z.of_nat (M2 + 1))] with (box_slices bs).
  assert (Hnz : forall idx, In idx (i0 :: rest)
                <-> exists v, tget 3 idx t = Some v /\ ~ v == 0).
  { intros idx. rewrite <- Efound. apply tnonzero_spec. }
  assert (Hcol : forall ax, (ax < 3)%nat ->
            let mn := nth ax [m0; m1; m2] O in
            let mx := nth ax [M0; M1; M2] O in
            (exists idx, In idx (i0 :: rest) /\ nth ax idx O = mn)
            /\ (exists idx, In idx (i0 :: rest) /\ nth ax idx O = mx)
            /\ forall idx, In idx (i0 :: rest) -> (mn <= nth ax idx O <= mx)%nat).
  { intros [|[|[|ax]]] Hax; try lia; cbn [nth]; assumption. }
  destruct sh as [|n0 [|n1 [|n2 [|n3 sh]]]]; try discriminate Hrank.
  assert (Hin_sh : forall idx, In idx (i0 :: rest) ->
            exists i j k, idx = [i; j; k]
                          /\ (i < n0)%nat /\ (j < n1)%nat /\ (k < n2)%nat).
  { intros idx Hidx. apply Hnz in Hidx. destruct Hidx as [v [Hv _]].
    pose proof (tget_bounds 3 _ _ _ _ Hsh Hv) as Hb.
    inversion Hb as [|i ? idx1 ? Hi Hb1]; subst.
    inversion Hb1 as [|j ? idx2 ? Hj Hb2]; subst.
    inversion Hb2 as [|k ? idx3 ? Hk Hb3]; subst.
    inversion Hb3; subst. exists i, j, k. repeat split; assumption. }
  assert (Hwithin : forall idx, In idx (i0 :: rest) -> within bs idx).
  { intros idx Hidx. destruct (Hin_sh idx Hidx) as [i [j [k [-> _]]]].
    destruct (Hcol 0%nat ltac:(lia)) as [_ [_ B0]].
    destruct (Hcol 1%nat ltac:(lia)) as [_ [_ B1]].
    destruct (Hcol 2%nat ltac:(lia)) as [_ [_ B2]].
    specialize (B0 _ Hidx). specialize (B1 _ Hidx). specialize (B2 _ Hidx).
    cbn [nth] in B0, B1, B2. cbn [within bs]. unfold bs. cbn [within]. lia. }
  assert (Hok : box_ok bs [n0; n1; n2]).
  { destruct (Hcol 0%nat ltac:(lia)) as [_ [[j0 [J0 E0]] B0]].
    destruct (Hcol 1%nat ltac:(lia)) as [_ [[j1 [J1 E1]] B1]].
    destruct (Hcol 2%nat ltac:(lia)) as [_ [[j2 [J2 E2]] B2]].
    specialize (B0 _ J0). specialize (B1 _ J1). specialize (B2 _ J2).
    destruct (Hin_sh j0 J0) as [a0 [b0 [c0 [-> [? [? ?]]]]]].
    destruct (Hin_sh j1 J1) as [a1 [b1 [c1 [-> [? [? ?]]]]]].
    destruct (Hin_sh j2 J2) as [a2 [b2 [c2 [-> [? [? ?]]]]]].
    cbn [nth] in *. unfold bs. cbn [box_ok]. lia. }
  pose proof (has_shape_tslice 3 bs [n0; n1; n2] t Hsh Hok) as Hcsh.
  pose proof (slice_shape_box bs [n0; n1; n2] Hok) as Hss.
  eexists. exists [m0; m1; m2], [(M0 + 1)%nat; (M1 + 1)%nat; (M2 + 1)%nat].
  split; [reflexivity|]. split; [reflexivity|]. split; [reflexivity|].
  change (combine [m0; m1; m2] [(M0 + 1)%nat; (M1 + 1)%nat; (M2 + 1)%nat])
    with bs.
  unfold getitem_slices. cbn [ndim shape items].
  assert (Hgetc : forall idx, in_box bs idx ->
            tget 3 idx (tslice 3 (box_slices bs) t) = tget 3 (shift bs idx) t)
    by (intros idx Hidx; now apply (tget_tslice 3 bs [n0; n1; n2])).
  assert (Hback : forall idx v, tget 3 idx t = Some v -> ~ v == 0 ->
            exists idx', in_box bs idx' /\ shift bs idx' = idx
              /\ tget 3 idx' (tslice 3 (box_slices bs) t) = Some v
              /\ forall ax, nth ax idx' O
                            = (nth ax idx O - fst (nth ax bs (O, O)))%nat).
  { intros idx v Hv Hv0.
    assert (Hidx : In idx (i0 :: rest)) by (apply Hnz; eauto).
    destruct (unshift bs idx (Hwithin idx Hidx)) as [idx' [Hb [Hs Hn]]].
    { rewrite (tget_length 3 idx t v Hv). reflexivity. }
    exists idx'. split; [exact Hb|]. split; [exact Hs|]. split; [|exact Hn].
    rewrite Hgetc by exact Hb. now rewrite Hs. }
  split.
  { intros ax Hax. destruct (Hcol ax Hax) as [[j [Hj Ej]] [[j' [Hj' Ej']] B]].
    split; [|split].
    - apply Hnz in Hj. destruct Hj as [v [Hv Hv0]]. exists j, v.
      split; [exact Hv|]. split; [exact Hv0|exact Ej].
    - apply Hnz in Hj'. destruct Hj' as [v [Hv Hv0]]. exists j', v.
      split; [exact Hv|]. split; [exact Hv0|]. rewrite Ej'.
      destruct ax as [|[|[|ax]]]; try lia; cbn [nth]; lia.
    - intros idx v Hv Hv0.
      assert (Hidx : In idx (i0 :: rest)) by (apply Hnz; eauto).
      specialize (B idx Hidx).
      destruct ax as [|[|[|ax]]]; try lia; cbn [nth] in *; lia. }
  split.
  { unfold well_formed. cbn [ndim shape items]. rewrite Hss.
    rewrite Hcsh. cbn [length map Nat.eqb andb].
    apply Z.ltb_lt. eapply Z.le_lt_trans; [|exact Hsize].
    unfold bs in *. cbn [box_ok map fst snd] in *.
    apply Zprod_le. repeat constructor; lia. }
  split; [exact Hss|].
  split; [exact Hgetc|].
  split.
  { intros idx v Hv Hv0. destruct (Hback idx v Hv Hv0) as [idx' [? [? [? _]]]].
    eauto. }
  split.
  { unfold ravel. cbn [ndim items]. apply Qsum_tslice.
    intros idx Hidx. rewrite Efound in Hidx. now apply Hwithin. }
  intros ax Hax. destruct (Hcol ax Hax) as [[j [Hj Ej]] [[j' [Hj' Ej']] _]].
  split.
  - apply Hnz in Hj. destruct Hj as [v [Hv Hv0]].
    destruct (Hback j v Hv Hv0) as [idx' [_ [_ [Hc Hn]]]].
    exists idx', v. split; [exact Hc|]. split; [exact Hv0|]. rewrite Hn, Ej.
    destruct ax as [|[|[|ax]]]; try lia; cbn [nth fst bs]; lia.
  - apply Hnz in Hj'. destruct Hj' as [v [Hv Hv0]].
    destruct (Hback j' v Hv Hv0) as [idx' [_ [_ [Hc Hn]]]].
    exists idx', v. split; [exact Hc|]. split; [exact Hv0|].
    rewrite Hn, Ej', Hss.
    destruct (Hcol ax Hax) as [_ [_ B]].
    assert (Hidx : In j' (i0 :: rest)) by (apply Hnz; eauto).
    specialize (B j' Hidx). rewrite Ej' in B.
    destruct ax as [|[|[|ax]]]; try lia; cbn [nth fst snd bs map] in *; lia.
Qed.

(** ** The window function *)

Lemma binary_window_all_zero (l : list Q) :
  forallb (Z.eqb 0) (map (fun x => if Qlt_le_dec 0 x then 1%Z else 0%Z) l) = true
  <-> Forall (fun x => x <= 0) l.
Proof.
  induction l as [|x l IH]; cbn [map forallb].
  - split; [constructor|reflexivity].
  - rewrite andb_true_iff, IH. destruct (Qlt_le_dec 0 x) as [H|H]; cbn.
    + split; [intros [E _]; discriminate|].
      intros F. inversion F; subst. lra.
    + split; [intros [_ F]; now constructor|].
      intros F. inversion F; subst. now split.
Qed.

(** Property X1.  The window function flags a window exactly when it holds a strictly
    positive element; elements that are zero or negative never touch a
    window, although they count in its mass. *)
Theorem Worker_flags_positive_elements (w : ndarray Q) :
  (fst (Worker w) = 1%Z <-> exists x, In x (ravel w) /\ 0 < x)
  /\ (fst (Worker w) = 0%Z <-> Forall (fun x => x <= 0) (ravel w))
  /\ snd (Worker w) = Qsum (ravel w).
Proof.
  unfold Worker. cbn [fst snd].
  pose proof (binary_window_all_zero (ravel w)) as H.
  destruct (forallb (Z.eqb 0)
              (map (fun x => if Qlt_le_dec 0 x then 1%Z else 0%Z) (ravel w))) eqn:E.
  - assert (F : Forall (fun x => x <= 0) (ravel w)) by now apply H.
    split; [|split; [|reflexivity]].
    + split; [discriminate|]. intros [x [Hx Hp]].
      rewrite Forall_forall in F. specialize (F x Hx). lra.
    + split; [intros _; exact F|reflexivity].
  - assert (F : ~ Forall (fun x => x <= 0) (ravel w))
      by (intros F; apply H in F; discriminate).
    split; [|split; [|reflexivity]].
    + split; [intros _|reflexivity].
      apply neg_Forall_Exists_neg in F.
      * apply Exists_exists in F. destruct F as [x [Hx Hn]].
        exists x. split; [exact Hx|]. lra.
      * intros x. destruct (Qlt_le_dec 0 x); [right; lra|now left].
    + split; [discriminate|]. intros F'. contradiction.
Qed.

(** ** The range of the lacunarity *)

Lemma Qsum_nonneg (l : list Q) : Forall (fun x => 0 <= x) l -> 0 <= Qsum l.
Proof.
  induction 1 as [|x l Hx _ IH]; cbn; [lra|].
  change (0 <= x + Qsum l). lra.
Qed.

Lemma Qsquare_nonneg (x : Q) : 0 <= x * x.
Proof. nra. Qed.

Lemma In_combine_snd {A B} (l : list A) (r : list B) (p : A * B) :
  In p (combine l r) -> In (snd p) r.
Proof. destruct p as [x y]. intros H. eapply in_combine_r, H. Qed.

Lemma lacunarity_of_range (cs ps : list Q) :
  Forall (fun p => 0 <= p) ps ->
  match lacunarity_of cs ps with
  | Finite q => 1 <= q
  | NegInf => False
  | PosInf | NaN => True
  end.
Proof.
  intros Hp. unfold lacunarity_of.
  set (mean := Qsum (map (fun cp => snd cp * fst cp) (combine cs ps))).
  set (var := Qsum (map (fun cp => snd cp * ((fst cp - mean) * (fst cp - mean)))
                        (combine cs ps))).
  assert (Hvar : 0 <= var).
  { unfold var. apply Qsum_nonneg. apply Forall_forall. intros t Ht.
    apply in_map_iff in Ht. destruct Ht as [cp [<- Hcp]].
    apply In_combine_snd in Hcp. rewrite Forall_forall in Hp.
    specialize (Hp _ Hcp). apply Qmult_le_0_compat; [exact Hp|].
    apply Qsquare_nonneg. }
  unfold true_divide.
  destruct (Qeq_bool (mean * mean) 0) eqn:E.
  - destruct (Qcompare var 0) eqn:C; cbn; auto.
    apply Qlt_alt in C. lra.
  - cbn. apply Qeq_bool_neq in E.
    assert (Hmm : 0 < mean * mean).
    { assert (0 <= mean * mean) by apply Qsquare_nonneg.
      apply Qle_lteq in H. destruct H as [H|H]; [exact H|].
      exfalso. apply E. now symmetry. }
    assert (0 <= var / (mean * mean)).
    { apply Qle_shift_div_l; [exact Hmm|]. lra. }
    lra.
Qed.

Section WindowScan.

Context {np : Numpy}.

Lemma sliding_window_lacunarity_range (self : FracND) (a : ndarray Q) (s d : Z)
    (g : rng_state) (N : Z) (lac : fvalue) :
  fst (sliding_window_statistics self a s d g) = Ok (N, lac) ->
  match lac with
  | Finite q => 1 <= q
  | NegInf => False
  | PosInf | NaN => True
  end.
Proof.
  unfold sliding_window_statistics.
  destruct (axis_counts (shape a) s d) as [wc|]; [|discriminate].
  destruct (axis_counts (shape a) s s) as [bc|]; [|discriminate].
  destruct (np_ndindex wc) as [idxs|]; [|discriminate].
  destruct (scan_windows self a s d idxs g) as [res g'].
  cbn [fst]. destruct res as [results|]; [|discriminate].
  cbn [bind]. destruct results as [|r0 rs]; [discriminate|].
  set (results := r0 :: rs).
  destruct (negb (multiprocess self)); [discriminate|].
  destruct (int_of_scaled _ _) as [n|]; [|discriminate].
  cbn [bind].
  destruct (Z.eqb_spec (np_sum_int (map fst results)) 0).
  - destruct (histogram self); [discriminate|].
    intros [= _ <-]. exact I.
  - destruct (mass_distribution self _) as [[cs ps]|] eqn:E; [|discriminate].
    cbn [bind fst snd]. intros [= _ <-].
    apply lacunarity_of_range.
    apply mass_distribution_probabilities in E; [|discriminate].
    destruct E as [_ E]. eapply Forall_impl; [|exact E].
    intros p Hp. cbn in Hp. lra.
Qed.

(** Property X2.  Whenever the scan of one scale returns, the lacunarity it returns
    is NaN, plus infinity or a number that is at least 1; it is never below
    1. *)
Theorem lacunarity_at_least_one (self : FracND) (a : ndarray Q) (s d : Z)
    (g : rng_state) (N : Z) (lac : fvalue) :
  fst (sliding_window_statistics self a s d g) = Ok (N, lac) ->
  match lac with
  | Finite q => 1 <= q
  | NegInf => False
  | PosInf | NaN => True
  end.
Proof. apply sliding_window_lacunarity_range. Qed.

(** Property X3.  Without subsampling and with windows that fit, the box count is
    never negative and never exceeds the number of disjoint boxes of the
    volume. *)
Theorem box_count_at_most_disjoint_boxes (self : FracND) (a : ndarray Q)
    (s d : Z) (g : rng_state) (N : Z) (lac : fvalue) :
  subsample self = None -> well_formed a = true ->
  (0 < s)%Z -> (0 < d)%Z ->
  Forall (fun n => (s <= Z.of_nat n)%Z) (shape a) ->
  fst (sliding_window_statistics self a s d g) = Ok (N, lac) ->
  (0 <= N <= Zprod (map (fun n => ((Z.of_nat n - s) / s + 1)%Z) (shape a)))%Z.
Proof.
  intros Hsub Hwf Hs Hd Hfit H.
  pose proof (sliding_window_statistics_pool _ _ _ _ _ _ H) as Hmp.
  rewrite sliding_window_statistics_scan in H by assumption. cbn [fst] in H.
  apply scan_outcome_count in H. subst N. unfold box_count.
  set (T := Zsum (map fst (window_results a s d))).
  set (B := Zprod (map (fun n => ((Z.of_nat n - s) / s + 1)%Z) (shape a))).
  set (W := Zprod (map Z.of_nat (floor_counts (shape a) s d))).
  assert (HT : (0 <= T <= Z.of_nat (length (window_results a s d)))%Z).
  { unfold T. rewrite <- (length_map fst). apply Zsum_flags.
    apply Forall_forall. intros t Ht. apply in_map_iff in Ht.
    destruct Ht as [r [<- Hr]]. unfold window_results in Hr.
    apply in_map_iff in Hr. destruct Hr as [i [<- _]].
    apply Worker_touched_range. }
  rewrite window_results_length, <- Zprod_of_nat in HT. fold W in HT.
  assert (HW : (1 <= W)%Z).
  { unfold W. eapply Zprod_between. now apply floor_counts_range. }
  assert (HB : (1 <= B)%Z).
  { unfold B.
    replace (map (fun n => ((Z.of_nat n - s) / s + 1)%Z) (shape a))
      with (map Z.of_nat (floor_counts (shape a) s s)).
    - eapply Zprod_between. now apply floor_counts_range.
    - unfold floor_counts. rewrite map_map. apply map_ext_in.
      intros n Hn. rewrite Forall_forall in Hfit. specialize (Hfit n Hn).
      apply Z2Nat.id.
      assert (0 <= (Z.of_nat n - s) / s)%Z by (apply Z.div_pos; lia). lia. }
  split.
  - apply Z.div_pos; nia.
  - apply Z.div_le_upper_bound; nia.
Qed.

(** Property X4.  With the stride equal to the window size, that is in disjoint box
    counting, the box count is the number of touched boxes. *)
Theorem disjoint_box_count (self : FracND) (a : ndarray Q) (s : Z)
    (g : rng_state) (N : Z) (lac : fvalue) :
  subsample self = None -> well_formed a = true -> (0 < s)%Z ->
  Forall (fun n => (s <= Z.of_nat n)%Z) (shape a) ->
  fst (sliding_window_statistics self a s s g) = Ok (N, lac) ->
  N = Zsum (map (fun i => fst (Worker (window_at a s s i)))
                (ndindex (floor_counts (shape a) s s)))
  /\ N = Z.of_nat (length (filter (fun i => (fst (Worker (window_at a s s i)) =? 1)%Z)
                                  (ndindex (floor_counts (shape a) s s)))).
Proof.
  intros Hsub Hwf Hs Hfit H.
  pose proof (sliding_window_statistics_pool _ _ _ _ _ _ H) as Hmp.
  rewrite sliding_window_statistics_scan in H by assumption. cbn [fst] in H.
  apply scan_outcome_count in H. subst N. unfold box_count.
  assert (E : map (fun n => ((Z.of_nat n - s) / s + 1)%Z) (shape a)
              = map Z.of_nat (floor_counts (shape a) s s)).
  { unfold floor_counts. rewrite map_map. apply map_ext_in.
    intros n Hn. rewrite Forall_forall in Hfit. specialize (Hfit n Hn).
    symmetry. apply Z2Nat.id.
    assert (0 <= (Z.of_nat n - s) / s)%Z by (apply Z.div_pos; lia). lia. }
  rewrite E.
  assert (HW : (1 <= Zprod (map Z.of_nat (floor_counts (shape a) s s)))%Z).
  { eapply Zprod_between. now apply floor_counts_range. }
  rewrite Z.div_mul by lia.
  unfold window_results. rewrite map_map.
  split; [reflexivity|].
  induction (ndindex (floor_counts (shape a) s s)) as [|i l IH];
    [reflexivity|].
  cbn [map filter]. unfold Zsum in *. cbn [fold_right]. rewrite IH.
  pose proof (Worker_touched_range (window_at a s s i)) as Hr.
  destruct (Z.eqb_spec (fst (Worker (window_at a s s i))) 1) as [->|Hn].
  - cbn [length]. lia.
  - assert (fst (Worker (window_at a s s i)) = 0%Z) as -> by lia. lia.
Qed.

(** Property X5.  A window that exceeds some axis by at least the step size leaves
    no window position on that axis, and the scan raises [ValueError]. *)
Theorem oversized_window_raises (self : FracND) (a : ndarray Q) (s d : Z)
    (g : rng_state) :
  (0 < s)%Z -> (0 < d)%Z ->
  (exists n, In n (shape a) /\ (Z.of_nat n + d <= s)%Z) ->
  fst (sliding_window_statistics self a s d g) = Raise ValueError.
Proof.
  intros Hs Hd [n [Hn Hbig]].
  unfold sliding_window_statistics.
  rewrite !axis_counts_ok by lia.
  set (wc := map (fun n => (Z.quot (Z.of_nat n - s) d + 1)%Z) (shape a)).
  assert (Hc : exists c, In c wc /\ (c <= 0)%Z).
  { exists (Z.quot (Z.of_nat n - s) d + 1)%Z. split.
    - unfold wc. apply in_map_iff. now exists n.
    - assert (Z.quot (Z.of_nat n - s) d <= Z.quot (- d) d)%Z
        by (apply Z.quot_le_mono; lia).
      rewrite Z.quot_opp_l, Z.quot_same in H by lia. lia. }
  unfold np_ndindex.
  destruct (forallb (fun c => (0 <=? c)%Z) wc) eqn:E; [|reflexivity].
  assert (Hnil : ndindex (map Z.to_nat wc) = []).
  { destruct Hc as [c [Hin Hle]]. clear -Hin Hle.
    induction wc as [|c0 wc IH]; [destruct Hin|].
    cbn [map ndindex]. destruct Hin as [->|Hin].
    - replace (Z.to_nat c) with O by lia. reflexivity.
    - rewrite (IH Hin). induction (seq 0 (Z.to_nat c0)); [reflexivity|].
      cbn [flat_map map]. exact IHl. }
  rewrite Hnil. cbn [scan_windows fst bind]. reflexivity.
Qed.

End WindowScan.

(** ** The series handed to the fit *)

Lemma np_unique_table (xs : list Q) : np_unique xs = map fst (unique_table xs).
Proof.
  unfold np_unique, np_unique_counts, unique_table. now rewrite split_maps.
Qed.

Lemma unique_insert_keys (x : Q) (al : list (Q * Z)) (p : Q * Z) :
  In p (unique_insert x al) ->
  fst p = x \/ exists p', In p' al /\ fst p' = fst p.
Proof.
  induction al as [|[y c] al IH]; cbn [unique_insert].
  - intros [<-|[]]. now left.
  - destruct (Qcompare x y).
    + intros [<-|H]; right.
      * exists (y, c). split; [now left|reflexivity].
      * exists p. split; [now right|reflexivity].
    + intros [<-|H]; [now left|]. right. now exists p.
    + intros [<-|H].
      * right. exists (y, c). split; [now left|reflexivity].
      * destruct (IH H) as [E|[p' [Hp' E]]]; [now left|].
        right. exists p'. split; [now right|exact E].
Qed.

Lemma np_unique_incl (xs : list Q) (y : Q) : In y (np_unique xs) -> In y xs.
Proof.
  rewrite np_unique_table. unfold unique_table.
  induction xs as [|x xs IH]; cbn [fold_right]; [intros []|].
  intros H. apply in_map_iff in H. destruct H as [p [<- Hp]].
  apply unique_insert_keys in Hp. destruct Hp as [E|[p' [Hp' E]]].
  - left. now symmetry.
  - right. apply IH. apply in_map_iff. exists p'. now split.
Qed.

Lemma np_unique_support (xs : list Q) (x : Q) :
  In x xs -> exists y, In y (np_unique xs) /\ y == x.
Proof.
  intros H. destruct (unique_support xs x H) as [y [c [Hy E]]].
  exists y. split; [|exact E].
  rewrite np_unique_table. apply in_map_iff. now exists (y, c).
Qed.

Lemma unique_insert_sorted (x : Q) (al : list (Q * Z)) :
  StronglySorted (fun p q => fst p < fst q) al ->
  StronglySorted (fun p q => fst p < fst q) (unique_insert x al).
Proof.
  induction 1 as [|[y c] al Hs IH Hall]; cbn [unique_insert].
  - repeat constructor.
  - destruct (Qcompare_spec x y) as [E|L|G].
    + constructor; [exact Hs|exact Hall].
    + constructor; [now constructor|].
      constructor; [exact L|].
      eapply Forall_impl; [|exact Hall]. intros q Hq. cbn in *. lra.
    + constructor; [exact IH|].
      apply Forall_forall. intros p Hp.
      apply unique_insert_keys in Hp. destruct Hp as [E|[p' [Hp' E]]].
      * cbn. rewrite E. exact G.
      * rewrite Forall_forall in Hall. specialize (Hall p' Hp').
        cbn in *. now rewrite <- E.
Qed.

Lemma np_unique_sorted (xs : list Q) : StronglySorted Qlt (np_unique xs).
Proof.
  rewrite np_unique_table. unfold unique_table.
  assert (H : StronglySorted (fun p q => fst p < fst q)
                (fold_right unique_insert [] xs)).
  { induction xs as [|x xs IH]; cbn [fold_right]; [constructor|].
    now apply unique_insert_sorted. }
  induction H as [|p al Hs IH Hall]; cbn [map]; constructor; [exact IH|].
  apply Forall_forall. intros y Hy. apply in_map_iff in Hy.
  destruct Hy as [q [<- Hq]]. rewrite Forall_forall in Hall. now apply Hall.
Qed.

Lemma In_boolean_mask {A B} (h : B -> bool) (dA : A) (dB : B) (x : A) :
  forall (l : list A) (r : list B),
    length l = length r ->
    (In x (boolean_mask l (map h r))
     <-> exists j, (j < length r)%nat /\ h (nth j r dB) = true /\ nth j l dA = x).
Proof.
  induction l as [|a l IH]; intros [|b r] Hlen; try discriminate Hlen.
  - cbn. split; [intros []|intros [j [Hj _]]; lia].
  - cbn [map boolean_mask length]. injection Hlen as Hlen.
    specialize (IH r Hlen).
    assert (Hrest : (exists j, (j < S (length r))%nat
                       /\ h (nth j (b :: r) dB) = true /\ nth j (a :: l) dA = x)
                    <-> (h b = true /\ a = x)
                        \/ exists j, (j < length r)%nat
                             /\ h (nth j r dB) = true /\ nth j l dA = x).
    { split.
      - intros [[|j] [Hj [H1 H2]]]; [left; now split|].
        right. exists j. cbn in H1, H2. repeat split; [lia|assumption..].
      - intros [[H1 H2]|[j [Hj [H1 H2]]]].
        + exists O. cbn. repeat split; [lia|assumption..].
        + exists (S j). cbn. repeat split; [lia|assumption..]. }
    rewrite Hrest. destruct (h b) eqn:E.
    + cbn [In]. rewrite IH. split.
      * intros [->|H]; [left; now split|now right].
      * intros [[_ ->]|H]; [now left|now right].
    + rewrite IH. split; [now right|].
      intros [[H _]|H]; [discriminate|exact H].
Qed.

Lemma Qlist_min_attained (x : Q) (r : list Q) :
  exists y, In y (x :: r) /\ y == Qlist_min x r.
Proof.
  induction r as [|z r IH]; cbn [Qlist_min fold_right].
  - exists x. split; [now left|reflexivity].
  - destruct IH as [y [Hy E]]. fold (Qlist_min x r).
    destruct (Q.min_dec z (Qlist_min x r)) as [H|H].
    + exists z. split; [right; now left|now symmetry].
    + exists y. split.
      * destruct Hy as [<-|Hy]; [now left|right; now right].
      * now rewrite H.
Qed.

(** The smallest scale among those recorded with the value [v]. *)
Lemma selected_scale (scales vals : list Q) (v : Q) :
  length scales = length vals -> In v vals ->
  exists m,
    np_min (boolean_mask scales (map (fun x => Qeq_bool x v) vals)) = Ok m
    /\ (exists j, (j < length vals)%nat /\ nth j vals 0 == v
                  /\ nth j scales 0 == m)
    /\ forall j, (j < length vals)%nat -> nth j vals 0 == v ->
         m <= nth j scales 0.
Proof.
  intros Hlen Hv.
  pose proof (In_boolean_mask (fun x => Qeq_bool x v) 0 0) as M.
  destruct (boolean_mask scales (map (fun x => Qeq_bool x v) vals))
    as [|x r] eqn:E.
  - exfalso. destruct (In_nth _ _ 0 Hv) as [j [Hj Ej]].
    assert (H : In (nth j scales 0) (boolean_mask scales
                     (map (fun x => Qeq_bool x v) vals))).
    { apply (M _ scales vals Hlen). exists j. repeat split; [exact Hj|].
      rewrite Ej. apply Qeq_bool_iff. reflexivity. }
    rewrite E in H. destruct H.
  - cbn [np_min]. exists (Qlist_min x r). split; [reflexivity|]. split.
    + destruct (Qlist_min_attained x r) as [y [Hy Ey]].
      rewrite <- E in Hy. apply (M _ scales vals Hlen) in Hy.
      destruct Hy as [j [Hj [H1 H2]]]. exists j.
      repeat split; [exact Hj|now apply Qeq_bool_iff|].
      now rewrite H2.
    + intros j Hj Ej. apply Qlist_min_le. rewrite <- E.
      apply (M _ scales vals Hlen). exists j.
      repeat split; [exact Hj|now apply Qeq_bool_iff].
Qed.

Lemma scale_column (scales vals us : list Q) :
  length scales = length vals ->
  (forall v, In v us -> In v vals) ->
  exists S,
    fold_right
      (fun v acc =>
         rest <- acc ;;
         if Nat.eqb (length scales) (length vals) then
           m <- np_min (boolean_mask scales (map (fun x => Qeq_bool x v) vals)) ;;
           Ok (m :: rest)
         else Raise IndexError)
      (Ok []) us = Ok S
    /\ length S = length us
    /\ forall i, (i < length us)%nat ->
         (exists j, (j < length vals)%nat /\ nth j vals 0 == nth i us 0
                    /\ nth j scales 0 == nth i S 0)
         /\ forall j, (j < length vals)%nat -> nth j vals 0 == nth i us 0 ->
              nth i S 0 <= nth j scales 0.
Proof.
  intros Hlen. induction us as [|u us IH]; intros Hin.
  - exists []. split; [reflexivity|]. split; [reflexivity|].
    intros i Hi. cbn in Hi. lia.
  - destruct IH as [S [ES [HS Hall]]]; [intros v Hv; apply Hin; now right|].
    destruct (selected_scale scales vals u Hlen) as [m [Em [Hex Hmin]]];
      [apply Hin; now left|].
    exists (m :: S). cbn [fold_right]. rewrite ES. cbn [bind].
    rewrite Hlen, Nat.eqb_refl, Em. cbn [bind].
    split; [reflexivity|]. split; [cbn; now rewrite HS|].
    intros [|i] Hi; cbn [nth].
    + split; assumption.
    + apply Hall. cbn in Hi. lia.
Qed.

Lemma positive_suffix (us : list Q) :
  StronglySorted Qlt us ->
  boolean_mask us (map (fun v => negb (Qle_bool v 0)) us)
  = skipn (length (filter (fun v => Qle_bool v 0) us)) us.
Proof.
  induction 1 as [|u us Hs IH Hall]; [reflexivity|].
  cbn [map boolean_mask filter].
  destruct (Qle_bool u 0) eqn:E; cbn [negb length skipn]; [exact IH|].
  assert (Hpos : Forall (fun v => Qle_bool v 0 = false) us).
  { eapply Forall_impl; [|exact Hall]. intros v Hv. cbn in Hv.
    destruct (Qle_bool v 0) eqn:Ev; [|reflexivity].
    apply Qle_bool_iff in Ev.
    assert (~ u <= 0) by (intros H; apply Qle_bool_iff in H; congruence).
    lra. }
  assert (Hnone : filter (fun v => Qle_bool v 0) us = []).
  { clear -Hpos. induction Hpos as [|v us Hv _ IH]; [reflexivity|].
    cbn [filter]. now rewrite Hv. }
  rewrite Hnone in IH |- *. cbn [length skipn] in IH |- *. now rewrite IH.
Qed.

Lemma skipn_sorted {A} (R : A -> A -> Prop) (k : nat) :
  forall l, StronglySorted R l -> StronglySorted R (skipn k l).
Proof.
  induction k as [|k IH]; intros l Hs; [exact Hs|].
  destruct l as [|x l]; [constructor|]. cbn [skipn].
  apply IH. now inversion Hs.
Qed.

Lemma fit_series_equal_lengths (scales vals : list Q) :
  length scales = length vals ->
  let U := np_unique vals in
  let k := length (filter (fun v => Qle_bool v 0) U) in
  exists S',
    fit_series scales vals = Ok (firstn (length (skipn k U)) S', skipn k U)
    /\ length S' = length U
    /\ forall i, (i < length U)%nat ->
         (exists j, (j < length vals)%nat /\ nth j vals 0 == nth i U 0
                    /\ nth j scales 0 == nth i S' 0)
         /\ forall j, (j < length vals)%nat -> nth j vals 0 == nth i U 0 ->
              nth i S' 0 <= nth j scales 0.
Proof.
  intros Hlen U k.
  destruct (scale_column scales vals U Hlen) as [S' [ES [HS Hall]]];
    [intros v Hv; now apply np_unique_incl|].
  exists S'. split; [|split; assumption].
  unfold fit_series. fold U. rewrite ES. cbn [bind].
  now rewrite (positive_suffix U (np_unique_sorted vals)).
Qed.

(** Property X6.  When [linear_fit] gets as many scales as values, the values it
    fits are the distinct positive values in ascending order, and the scale
    at position [i] is the smallest scale recorded with the [i]-th distinct
    value of the whole series; so each fitted value is paired with the scale
    of the value that lies as many places before it as there are distinct
    values that are not positive. *)
Theorem fit_series_pairs (scales vals S V : list Q) :
  fit_series scales vals = Ok (S, V) ->
  let U := np_unique vals in
  let k := length (filter (fun v => Qle_bool v 0) U) in
  V = skipn k U
  /\ length S = length V
  /\ StronglySorted Qlt V
  /\ Forall (fun v => 0 < v) V
  /\ (forall v, In v V -> In v vals)
  /\ (forall x, In x vals -> 0 < x -> exists v, In v V /\ v == x)
  /\ forall i, (i < length S)%nat ->
       (exists j, (j < length vals)%nat /\ nth j vals 0 == nth i U 0
                  /\ nth j scales 0 == nth i S 0)
       /\ forall j, (j < length vals)%nat -> nth j vals 0 == nth i U 0 ->
            nth i S 0 <= nth j scales 0.
Proof.
  intros H U k. unfold fit_series in H. fold U in H.
  destruct (Nat.eqb_spec (length scales) (length vals)) as [Hlen|Hlen].
  - destruct (scale_column scales vals U Hlen) as [S' [ES [HS Hall]]];
      [intros v Hv; now apply np_unique_incl|].
    rewrite <- Hlen, Nat.eqb_refl in ES.
    rewrite ES in H. cbn [bind] in H.
    pose proof (positive_suffix U (np_unique_sorted vals)) as Ek. fold k in Ek.
    rewrite Ek in H. injection H as <- <-.
    assert (Hk : (k <= length U)%nat) by apply filter_length_le.
    assert (HV : forall v, In v (skipn k U) -> In v U /\ 0 < v).
    { intros v Hv. split; [eapply In_skipn, Hv|].
      rewrite <- Ek in Hv.
      pose proof (In_boolean_mask (fun v => negb (Qle_bool v 0)) 0 0 v U U
                    eq_refl) as M.
      apply M in Hv. destruct Hv as [j [_ [Hj <-]]].
      destruct (Qle_bool (nth j U 0) 0) eqn:E; [discriminate|].
      destruct (Qlt_le_dec 0 (nth j U 0)) as [L|L]; [exact L|].
      apply Qle_bool_iff in L. congruence. }
    split; [reflexivity|].
    split; [rewrite length_firstn, length_skipn; lia|].
    split; [apply skipn_sorted, np_unique_sorted|].
    split; [apply Forall_forall; intros v Hv; now apply HV|].
    split; [intros v Hv; apply np_unique_incl; now apply HV|].
    split.
    + intros x Hx Hpos. destruct (np_unique_support vals x Hx) as [y [Hy E]].
      exists y. split; [|exact E].
      rewrite <- Ek.
      destruct (In_nth _ _ 0 Hy) as [j [Hj Ej]].
      apply (In_boolean_mask (fun v => negb (Qle_bool v 0)) 0 0 y U U eq_refl).
      exists j. repeat split; [exact Hj| |exact Ej].
      fold U in Ej. rewrite Ej.
      destruct (Qle_bool y 0) eqn:Ey; [|reflexivity].
      apply Qle_bool_iff in Ey. lra.
    + intros i Hi. rewrite length_firstn, length_skipn in Hi.
      assert (Hi' : (i < length U)%nat) by lia.
      destruct (Hall i Hi') as [Hex Hmin].
      assert (En : nth i (firstn (length (skipn k U)) S') 0 = nth i S' 0).
      { rewrite length_skipn, nth_firstn.
        destruct (Nat.ltb_spec i (length U - k)); [reflexivity|lia]. }
      rewrite En. split; assumption.
  - subst k U. destruct (np_unique vals) as [|u U] eqn:EU.
    + cbn in H. injection H as <- <-. cbn.
      repeat split; try constructor; try (intros; cbn in *; lia);
        try contradiction.
      intros x Hx _. destruct (np_unique_support vals x Hx) as [y [Hy _]].
      rewrite EU in Hy. destruct Hy.
    + exfalso. cbn [fold_right bind] in H.
      destruct (fold_right _ _ U) as [rest|]; cbn [bind] in H; discriminate.
Qed.

Lemma scale_column_mismatch (scales vals us : list Q) :
  length scales <> length vals -> us <> [] ->
  fold_right
    (fun v acc =>
       rest <- acc ;;
       if Nat.eqb (length scales) (length vals) then
         m <- np_min (boolean_mask scales (map (fun x => Qeq_bool x v) vals)) ;;
         Ok (m :: rest)
       else Raise IndexError)
    (Ok []) us = Raise IndexError.
Proof.
  intros Hlen. apply Nat.eqb_neq in Hlen.
  induction us as [|u us IH]; intros Hne; [contradiction|].
  cbn [fold_right]. destruct us as [|u' us].
  - cbn. now rewrite Hlen.
  - rewrite IH by discriminate. reflexivity.
Qed.

(** *** A value series with infinities and NaN *)

Lemma funique_insert_In (x v : fvalue) (l : list fvalue) :
  In v (funique_insert x l) -> v = x \/ In v l.
Proof.
  induction l as [|y l IH]; cbn [funique_insert].
  - intros [<-|[]]. now left.
  - destruct (fcompare x y).
    + intros H. now right.
    + intros [<-|H]; [now left|now right].
    + intros [<-|H]; [right; now left|].
      destruct (IH H) as [->|H']; [now left|right; now right].
Qed.

Lemma funique_insert_keeps (x v : fvalue) (l : list fvalue) :
  In v l -> In v (funique_insert x l).
Proof.
  induction l as [|y l IH]; [intros []|].
  cbn [funique_insert]. intros H. destruct (fcompare x y).
  - exact H.
  - now right.
  - destruct H as [<-|H]; [now left|right; now apply IH].
Qed.

Lemma funique_insert_nan (l : list fvalue) : In NaN (funique_insert NaN l).
Proof.
  induction l as [|y l IH]; [now left|].
  cbn [funique_insert]. destruct y; cbn [fcompare]; try (right; exact IH).
  now left.
Qed.

Lemma np_unique_f_incl (vals : list fvalue) (v : fvalue) :
  In v (np_unique_f vals) -> In v vals.
Proof.
  unfold np_unique_f. induction vals as [|x vals IH]; [intros []|].
  cbn [fold_right]. intros H. apply funique_insert_In in H.
  destruct H as [->|H]; [now left|right; now apply IH].
Qed.

Lemma np_unique_f_nan (vals : list fvalue) :
  In NaN vals -> In NaN (np_unique_f vals).
Proof.
  unfold np_unique_f. induction vals as [|x vals IH]; [intros []|].
  cbn [fold_right]. intros [->|H].
  - apply funique_insert_nan.
  - apply funique_insert_keeps. now apply IH.
Qed.

Lemma np_unique_f_nonempty (vals : list fvalue) :
  vals <> [] -> np_unique_f vals <> [].
Proof.
  destruct vals as [|x vals]; [congruence|]. intros _.
  unfold np_unique_f. cbn [fold_right].
  destruct (fold_right funique_insert [] vals) as [|y l];
    cbn [funique_insert]; [discriminate|].
  destruct (fcompare x y); discriminate.
Qed.

Lemma feqb_refl (v : fvalue) : v <> NaN -> feqb v v = true.
Proof.
  destruct v as [q| | |]; cbn [feqb]; try reflexivity; [|congruence].
  intros _. apply Qeq_bool_iff. reflexivity.
Qed.

Lemma feqb_nan (x : fvalue) : feqb x NaN = false.
Proof. now destruct x. Qed.

Lemma selected_scale_float (scales : list Q) (vals : list fvalue)
    (v : fvalue) :
  length scales = length vals -> In v vals -> v <> NaN ->
  exists m,
    np_min (boolean_mask scales (map (fun x => feqb x v) vals)) = Ok m.
Proof.
  intros Hlen Hv Hnan.
  destruct (In_nth _ _ NaN Hv) as [j [Hj Ej]].
  assert (Hin : In (nth j scales 0)
                   (boolean_mask scales (map (fun x => feqb x v) vals))).
  { apply (In_boolean_mask (fun x => feqb x v) 0 NaN); [exact Hlen|].
    exists j. split; [exact Hj|]. split; [|reflexivity].
    rewrite Ej. now apply feqb_refl. }
  destruct (boolean_mask scales _) as [|m l]; [destruct Hin|].
  eexists. reflexivity.
Qed.

Lemma selected_scale_nan (scales : list Q) (vals : list fvalue) :
  np_min (boolean_mask scales (map (fun x => feqb x NaN) vals))
  = Raise ValueError.
Proof.
  replace (boolean_mask scales (map (fun x => feqb x NaN) vals)) with (@nil Q);
    [reflexivity|].
  revert scales. induction vals as [|x vals IH]; intros [|c scales];
    try reflexivity.
  cbn [map boolean_mask]. rewrite feqb_nan. apply IH.
Qed.

(** The selection of the scales, value by value: it fails exactly on a
    NaN. *)
Lemma scale_column_float (scales : list Q) (vals us : list fvalue) :
  length scales = length vals ->
  (forall v, In v us -> In v vals) ->
  match fold_right
          (fun v acc =>
             rest <- acc ;;
             if Nat.eqb (length scales) (length vals) then
               m <- np_min (boolean_mask scales
                              (map (fun x => feqb x v) vals)) ;;
               Ok (m :: rest)
             else Raise IndexError)
          (Ok []) us with
  | Ok col => ~ In NaN us /\ length col = length us
  | Raise e => e = ValueError /\ In NaN us
  end.
Proof.
  intros Hlen. pose proof Hlen as Hb. apply Nat.eqb_eq in Hb.
  induction us as [|u us IH]; intros Hin; cbn [fold_right].
  - split; [intros []|reflexivity].
  - specialize (IH (fun v Hv => Hin v (or_intror Hv))).
    destruct (fold_right _ (Ok []) us) as [S|e]; cbn [bind].
    + destruct IH as [Hno HS]. rewrite Hb.
      destruct u as [q| | |].
      * destruct (selected_scale_float scales vals (Finite q) Hlen
                    (Hin _ (or_introl eq_refl)) ltac:(discriminate))
          as [m ->].
        cbn [bind length]. split; [|now rewrite HS].
        intros [E|E]; [discriminate E|now apply Hno].
      * destruct (selected_scale_float scales vals PosInf Hlen
                    (Hin _ (or_introl eq_refl)) ltac:(discriminate))
          as [m ->].
        cbn [bind length]. split; [|now rewrite HS].
        intros [E|E]; [discriminate E|now apply Hno].
      * destruct (selected_scale_float scales vals NegInf Hlen
                    (Hin _ (or_introl eq_refl)) ltac:(discriminate))
          as [m ->].
        cbn [bind length]. split; [|now rewrite HS].
        intros [E|E]; [discriminate E|now apply Hno].
      * rewrite selected_scale_nan. cbn [bind].
        split; [reflexivity|now left].
    + destruct IH as [-> HN]. split; [reflexivity|now right].
Qed.

Lemma scale_column_float_mismatch (scales : list Q) (vals us : list fvalue) :
  length scales <> length vals -> us <> [] ->
  fold_right
    (fun v acc =>
       rest <- acc ;;
       if Nat.eqb (length scales) (length vals) then
         m <- np_min (boolean_mask scales (map (fun x => feqb x v) vals)) ;;
         Ok (m :: rest)
       else Raise IndexError)
    (Ok []) us = Raise IndexError.
Proof.
  intros Hlen. apply Nat.eqb_neq in Hlen.
  induction us as [|u us IH]; intros Hne; [contradiction|].
  cbn [fold_right]. destruct us as [|u' us].
  - cbn. now rewrite Hlen.
  - rewrite IH by discriminate. reflexivity.
Qed.

(** A series that the preprocessing accepts holds no NaN. *)
Lemma fit_series_float_no_nan (scales : list Q) (vals : list fvalue) sv :
  fit_series_float scales vals = Ok sv -> ~ In NaN vals.
Proof.
  unfold fit_series_float. intros H HN.
  destruct (Nat.eq_dec (length scales) (length vals)) as [Hlen|Hlen].
  - pose proof (scale_column_float scales vals (np_unique_f vals) Hlen
                  (np_unique_f_incl vals)) as C.
    destruct (fold_right _ (Ok []) (np_unique_f vals)) as [S|e];
      [|discriminate H].
    destruct C as [C _]. apply C. now apply np_unique_f_nan.
  - rewrite (scale_column_float_mismatch scales vals (np_unique_f vals) Hlen)
      in H; [discriminate H|].
    apply np_unique_f_nonempty. intros ->. destruct HN.
Qed.

Lemma boolean_mask_map {A B} (f : A -> B) (l : list A) (mask : list bool) :
  boolean_mask (map f l) mask = map f (boolean_mask l mask).
Proof.
  revert mask. induction l as [|x l IH]; intros [|b mask]; try reflexivity.
  cbn [map boolean_mask]. destruct b; cbn [map]; now rewrite IH.
Qed.

Lemma funique_insert_finite (x : Q) (al : list (Q * Z)) :
  funique_insert (Finite x) (map Finite (map fst al))
  = map Finite (map fst (unique_insert x al)).
Proof.
  induction al as [|[y c] al IH]; [reflexivity|].
  cbn [map fst funique_insert unique_insert fcompare].
  destruct (Qcompare x y); cbn [map fst]; [reflexivity..|].
  now rewrite IH.
Qed.

Lemma np_unique_f_finite (vals : list Q) :
  np_unique_f (map Finite vals) = map Finite (np_unique vals).
Proof.
  rewrite np_unique_table. unfold np_unique_f, unique_table.
  induction vals as [|x vals IH]; [reflexivity|].
  cbn [map fold_right]. rewrite IH. apply funique_insert_finite.
Qed.

(** On a series of finite values the two readings of the first lines of
    [linear_fit] agree. *)
Lemma fit_series_float_finite (scales vals : list Q) :
  fit_series_float scales (map Finite vals)
  = match fit_series scales vals with
    | Ok (sc, vs) => Ok (sc, map Finite vs)
    | Raise e => Raise e
    end.
Proof.
  unfold fit_series_float, fit_series.
  rewrite np_unique_f_finite, length_map.
  set (U := np_unique vals).
  assert (E : fold_right
                (fun v acc =>
                   rest <- acc ;;
                   if Nat.eqb (length scales) (length vals) then
                     m <- np_min (boolean_mask scales
                                    (map (fun x => feqb x v)
                                         (map Finite vals))) ;;
                     Ok (m :: rest)
                   else Raise IndexError)
                (Ok []) (map Finite U)
              = fold_right
                  (fun v acc =>
                     rest <- acc ;;
                     if Nat.eqb (length scales) (length vals) then
                       m <- np_min (boolean_mask scales
                                      (map (fun x => Qeq_bool x v) vals)) ;;
                       Ok (m :: rest)
                     else Raise IndexError)
                  (Ok []) U).
  { induction U as [|u U IH]; [reflexivity|].
    cbn [map fold_right]. rewrite IH. rewrite map_map. reflexivity. }
  rewrite E. destruct (fold_right _ (Ok []) U) as [S|e]; [|reflexivity].
  cbn [bind]. rewrite map_map. cbn [fpositive].
  rewrite boolean_mask_map, length_map. reflexivity.
Qed.

(** Property X7.  The first lines of [linear_fit] fail in two cases only.  When
    the value series is not empty and the scale series has another length,
    the boolean selection raises [IndexError].  When the two series have the
    same length and a value is NaN, as a lacunarity can be, the selection
    for it is empty and [np.min] raises [ValueError]. *)
Theorem fit_series_raises (scales : list Q) (vals : list fvalue) (e : exn) :
  fit_series_float scales vals = Raise e
  <-> (e = IndexError /\ vals <> [] /\ length scales <> length vals)
      \/ (e = ValueError /\ length scales = length vals /\ In NaN vals).
Proof.
  unfold fit_series_float. split.
  - intros H.
    destruct (Nat.eq_dec (length scales) (length vals)) as [Hlen|Hlen].
    + right.
      pose proof (scale_column_float scales vals (np_unique_f vals) Hlen
                    (np_unique_f_incl vals)) as C.
      destruct (fold_right _ (Ok []) (np_unique_f vals)) as [S|e'];
        [discriminate H|].
      cbn [bind] in H. injection H as <-. destruct C as [-> C].
      split; [reflexivity|]. split; [exact Hlen|].
      now apply np_unique_f_incl.
    + left.
      destruct (np_unique_f vals) as [|u U] eqn:EU; [discriminate H|].
      rewrite (scale_column_float_mismatch scales vals (u :: U) Hlen) in H
        by discriminate.
      injection H as <-. repeat split; [|exact Hlen].
      intros ->. discriminate EU.
  - intros [[-> [Hne Hlen]]|[-> [Hlen HN]]].
    + rewrite (scale_column_float_mismatch scales vals (np_unique_f vals) Hlen);
        [reflexivity|].
      now apply np_unique_f_nonempty.
    + pose proof (scale_column_float scales vals (np_unique_f vals) Hlen
                    (np_unique_f_incl vals)) as C.
      destruct (fold_right _ (Ok []) (np_unique_f vals)) as [S|e'].
      * destruct C as [C _]. exfalso. apply C. now apply np_unique_f_nan.
      * destruct C as [-> _]. reflexivity.
Qed.

(** Property X8.  When every value is positive and the two series have the same
    length, nothing is discarded and each distinct value is fitted with the
    smallest scale at which it was recorded. *)
Theorem fit_series_positive (scales vals : list Q) :
  length scales = length vals -> Forall (fun v => 0 < v) vals ->
  exists S,
    fit_series scales vals = Ok (S, np_unique vals)
    /\ length S = length (np_unique vals)
    /\ forall i, (i < length S)%nat ->
         (exists j, (j < length vals)%nat
                    /\ nth j vals 0 == nth i (np_unique vals) 0
                    /\ nth j scales 0 == nth i S 0)
         /\ forall j, (j < length vals)%nat ->
              nth j vals 0 == nth i (np_unique vals) 0 ->
              nth i S 0 <= nth j scales 0.
Proof.
  intros Hlen Hpos.
  destruct (fit_series_equal_lengths scales vals Hlen) as [S [E [HS Hall]]].
  assert (Hk : filter (fun v => Qle_bool v 0) (np_unique vals) = []).
  { assert (F : Forall (fun v => 0 < v) (np_unique vals)).
    { apply Forall_forall. intros v Hv. apply np_unique_incl in Hv.
      rewrite Forall_forall in Hpos. now apply Hpos. }
    clear -F. induction F as [|v l Hv _ IH]; [reflexivity|]. cbn [filter].
    destruct (Qle_bool v 0) eqn:Ev; [|exact IH].
    apply Qle_bool_iff in Ev. lra. }
  rewrite Hk in E. cbn [length skipn] in E.
  rewrite <- HS, firstn_all in E.
  exists S. split; [exact E|]. split; [exact HS|].
  intros i Hi. apply Hall. now rewrite <- HS.
Qed.

(** ** The state that [__call__] keeps *)

Section CallState.

Context {np : Numpy}.

Lemma same_parameters_config (s1 s2 : FracND) :
  same_parameters s1 s2 -> same_config s1 s2.
Proof. unfold same_parameters, same_config. tauto. Qed.

Lemma set_series_eta (self : FracND) :
  set_series self (Ns self) (lacunarity_spectrum self) = self.
Proof. now destruct self. Qed.

(** The loop over the scales replaces the two series and nothing else. *)
Lemma sweep_frame (a : ndarray Q) (todo : list Z) :
  forall (self : FracND) (g : rng_state) r self' g',
    sweep self a todo g = (r, self', g') ->
    self' = set_series self (Ns self') (lacunarity_spectrum self').
Proof.
  induction todo as [|sc rest IH]; intros self g r self' g' H;
    cbn [sweep] in H.
  - injection H as <- <- <-. symmetry. apply set_series_eta.
  - destruct (sliding_window_statistics self a sc _ g) as [[[N lac]|e] g1].
    + apply IH in H. rewrite H at 1. reflexivity.
    + injection H as <- <- <-. symmetry. apply set_series_eta.
Qed.

(** The loop reads the parameters and the series so far, nothing else. *)
Lemma sweep_determined (a : ndarray Q) (todo : list Z) :
  forall (s1 s2 : FracND) (g : rng_state),
    same_config s1 s2 -> Ns s1 = Ns s2 ->
    lacunarity_spectrum s1 = lacunarity_spectrum s2 ->
    fst (fst (sweep s1 a todo g)) = fst (fst (sweep s2 a todo g))
    /\ snd (sweep s1 a todo g) = snd (sweep s2 a todo g)
    /\ Ns (snd (fst (sweep s1 a todo g))) = Ns (snd (fst (sweep s2 a todo g)))
    /\ lacunarity_spectrum (snd (fst (sweep s1 a todo g)))
       = lacunarity_spectrum (snd (fst (sweep s2 a todo g))).
Proof.
  induction todo as [|sc rest IH]; intros s1 s2 g Hc HN HL; cbn [sweep].
  - cbn. auto.
  - destruct Hc as [Hsub [Hh [Hb [Hst Hmp]]]]. rewrite Hst.
    rewrite (sliding_window_statistics_config s1 s2) by (repeat split; assumption).
    destruct (sliding_window_statistics s2 a sc _ g) as [[[N lac]|e] g1].
    + apply IH; cbn; [repeat split; assumption|congruence..].
    + cbn. auto.
Qed.

(** Without subsampling the generator is not used. *)
Lemma scan_windows_rng (self : FracND) a s d idxs g1 g2 :
  subsample self = None ->
  fst (scan_windows self a s d idxs g1) = fst (scan_windows self a s d idxs g2)
  /\ snd (scan_windows self a s d idxs g1) = g1.
Proof.
  intros Hsub. rewrite !scan_windows_all by exact Hsub. now split.
Qed.

Lemma sliding_window_statistics_rng (self : FracND) a s d g1 g2 :
  subsample self = None ->
  fst (sliding_window_statistics self a s d g1)
  = fst (sliding_window_statistics self a s d g2)
  /\ snd (sliding_window_statistics self a s d g1) = g1.
Proof.
  intros Hsub. unfold sliding_window_statistics.
  destruct (axis_counts (shape a) s d) as [wc|e]; [|now split].
  destruct (axis_counts (shape a) s s) as [bc|e]; [|now split].
  destruct (np_ndindex wc) as [idxs|e]; [|now split].
  rewrite !scan_windows_all by exact Hsub. now split.
Qed.

Lemma sweep_rng (a : ndarray Q) (todo : list Z) :
  forall (self : FracND) (g1 g2 : rng_state),
    subsample self = None ->
    fst (sweep self a todo g1) = fst (sweep self a todo g2)
    /\ snd (sweep self a todo g1) = g1.
Proof.
  induction todo as [|sc rest IH]; intros self g1 g2 Hsub; cbn [sweep].
  - now split.
  - destruct (sliding_window_statistics_rng self a sc
                (match stride self with None => sc | Some s => s end)
                g1 g2 Hsub) as [E1 E2].
    destruct (sliding_window_statistics self a sc _ g1) as [r1 h1].
    destruct (sliding_window_statistics self a sc _ g2) as [r2 h2].
    cbn [fst snd] in E1, E2. subst r2 h1.
    destruct r1 as [[N lac]|e]; [|now split].
    apply IH. exact Hsub.
Qed.

Lemma call_frame (self : FracND) (a : ndarray Q) (g : rng_state) r self' g' :
  call self a g = (r, self', g') ->
  same_parameters self' self
  /\ (max_box_size self' = max_box_size self
      \/ max_box_size self = None
         /\ exists m, default_max_box_size (shape a) = Ok m
                      /\ max_box_size self' = Some m).
Proof.
  unfold call. intros H.
  destruct (forallb _ (ravel a)).
  { injection H as <- <- <-. split; [repeat split|now left]. }
  assert (Hmax : forall m,
            match max_box_size self with
            | None => default_max_box_size (shape a)
            | Some m => Ok m
            end = Ok m ->
            Some m = max_box_size self
            \/ max_box_size self = None
               /\ exists m', default_max_box_size (shape a) = Ok m'
                             /\ Some m = Some m').
  { intros m E. destruct (max_box_size self) as [m0|].
    - left. congruence.
    - right. split; [reflexivity|]. now exists m. }
  destruct (match max_box_size self with
            | None => default_max_box_size (shape a)
            | Some m => Ok m
            end) as [m|e].
  2:{ injection H as <- <- <-. split; [repeat split|now left]. }
  specialize (Hmax m eq_refl).
  destruct (scale_sequence (set_max_box_size self m) m) as [s|e].
  2:{ injection H as <- <- <-. split; [repeat split|exact Hmax]. }
  destruct (sweep _ a _ g) as [[r2 self3] g3] eqn:Esw.
  apply sweep_frame in Esw.
  destruct r2 as [u|e].
  2:{ injection H as <- <- <-. rewrite Esw.
      split; [repeat split|exact Hmax]. }
  destruct (linear_fit _ _ true) as [fit|e].
  2:{ injection H as <- <- <-. rewrite Esw.
      split; [repeat split|exact Hmax]. }
  destruct (linear_fit_float _ _ false) as [fit'|e];
    injection H as <- <- <-; rewrite Esw;
    (split; [repeat split|exact Hmax]).
Qed.

(** Property X9.  A call never changes the constructor arguments [min_box_size],
    [stride], [n_samples], [subsample], [multiprocess], [histogram] and
    [bins].  It changes [max_box_size] in one case only: when it was [None]
    it becomes the default computed from the shape of the array of this
    call, and it is never reset afterwards. *)
Theorem call_keeps_parameters (self : FracND) (a : ndarray Q)
    (g : rng_state) r self' g' :
  call self a g = (r, self', g') ->
  same_parameters self' self
  /\ (forall m, max_box_size self = Some m -> max_box_size self' = Some m)
  /\ (max_box_size self = None ->
      max_box_size self' = None
      \/ exists m, default_max_box_size (shape a) = Ok m
                   /\ max_box_size self' = Some m)
  /\ (forall b h r2 self2 h2,
        call self' b h = (r2, self2, h2) ->
        max_box_size self' <> None ->
        max_box_size self2 = max_box_size self').
Proof.
  intros H. destruct (call_frame _ _ _ _ _ _ H) as [Hp Hm].
  split; [exact Hp|]. split; [|split].
  - intros m E. destruct Hm as [Hm|[Hm _]]; congruence.
  - intros E. destruct Hm as [Hm|[_ Hm]]; [left; congruence|now right].
  - intros b h r2 self2 h2 H2 Hne.
    destruct (call_frame _ _ _ _ _ _ H2) as [_ [E|[E _]]];
      [exact E|contradiction].
Qed.

(** The outcome of a call depends on the estimator only through its
    constructor arguments and the exponent of the largest scale. *)
Lemma call_determined (s1 s2 : FracND) (a : ndarray Q)
    (g : rng_state) :
  same_parameters s1 s2 ->
  effective_max_box_size s1 a = effective_max_box_size s2 a ->
  fst (fst (call s1 a g)) = fst (fst (call s2 a g))
  /\ snd (call s1 a g) = snd (call s2 a g)
  /\ (fst (fst (call s1 a g)) = Ok tt ->
      snd (fst (call s1 a g)) = snd (fst (call s2 a g))).
Proof.
  intros Hp Heff. unfold effective_max_box_size in Heff. unfold call.
  destruct (forallb _ (ravel a)).
  { cbn. repeat split. discriminate. }
  rewrite Heff.
  destruct (match max_box_size s2 with
            | None => default_max_box_size (shape a)
            | Some m => Ok m
            end) as [m|e].
  2:{ cbn. repeat split. discriminate. }
  destruct Hp as [Hmin [Hst [Hn [Hsub [Hmp [Hh Hb]]]]]].
  assert (Eseq : scale_sequence (set_max_box_size s1 m) m
                 = scale_sequence (set_max_box_size s2 m) m).
  { unfold scale_sequence. cbn. now rewrite Hmin, Hn. }
  rewrite Eseq.
  destruct (scale_sequence (set_max_box_size s2 m) m) as [s|e].
  2:{ cbn. repeat split. discriminate. }
  set (u1 := set_series (set_scales (set_max_box_size s1 m) s) [] []).
  set (u2 := set_series (set_scales (set_max_box_size s2 m) s) [] []).
  destruct (sweep_determined a s u1 u2 g) as [Er [Eg [EN EL]]];
    [repeat split; cbn; assumption|reflexivity..|].
  change (scales u1) with s. change (scales u2) with s.
  destruct (sweep u1 a s g) as [[r1 t1] g1] eqn:E1.
  destruct (sweep u2 a s g) as [[r2 t2] g2] eqn:E2.
  cbn [fst snd] in Er, Eg, EN, EL. subst r2 g2.
  apply sweep_frame in E1, E2.
  assert (Es1 : scales t1 = s) by (rewrite E1; reflexivity).
  assert (Es2 : scales t2 = s) by (rewrite E2; reflexivity).
  destruct r1 as [u|e].
  2:{ cbn. repeat split. discriminate. }
  rewrite Es1, Es2, <- EN.
  destruct (linear_fit (map inject_Z s) (map inject_Z (Ns t1)) true) as [fit|e].
  2:{ cbn. repeat split. discriminate. }
  change (lacunarity_spectrum (set_FD_fit t1 fit)) with (lacunarity_spectrum t1).
  change (lacunarity_spectrum (set_FD_fit t2 fit)) with (lacunarity_spectrum t2).
  change (scales (set_FD_fit t1 fit)) with (scales t1).
  change (scales (set_FD_fit t2 fit)) with (scales t2).
  rewrite Es1, Es2, <- EL.
  destruct (linear_fit_float (map inject_Z s) (lacunarity_spectrum t1) false)
    as [fit'|e].
  2:{ cbn. repeat split. discriminate. }
  cbn [fst snd]. repeat split. intros _.
  rewrite E1, E2, <- EN, <- EL.
  unfold u1, u2, set_LD_fit, set_FD_fit, set_series, set_scales,
    set_max_box_size. cbn.
  now rewrite Hmin, Hst, Hn, Hsub, Hmp, Hh, Hb.
Qed.

Lemma call_rng (self : FracND) (a : ndarray Q) (g1 g2 : rng_state) :
  subsample self = None ->
  fst (call self a g1) = fst (call self a g2) /\ snd (call self a g1) = g1.
Proof.
  intros Hsub. unfold call.
  destruct (forallb _ (ravel a)); [now split|].
  destruct (match max_box_size self with
            | None => default_max_box_size (shape a)
            | Some m => Ok m
            end) as [m|e]; [|now split].
  destruct (scale_sequence (set_max_box_size self m) m) as [s|e]; [|now split].
  set (u := set_series (set_scales (set_max_box_size self m) s) [] []).
  destruct (sweep_rng a (scales u) u g1 g2 Hsub) as [E1 E2].
  destruct (sweep u a (scales u) g1) as [[r1 t1] h1].
  destruct (sweep u a (scales u) g2) as [[r2 t2] h2].
  cbn [fst snd] in E1, E2. injection E1 as <- <-. subst h1.
  destruct r1 as [x|e]; [|now split].
  destruct (linear_fit _ _ true) as [fit|e]; [|now split].
  destruct (linear_fit_float _ _ false) as [fit'|e]; now split.
Qed.

(** Property X10.  What an earlier call leaves in the estimator changes a later call
    only through [max_box_size].  When [max_box_size] was given to the
    constructor, or the default exponents of the two arrays agree, the call
    on the second array has the outcome that it has on the estimator as it
    was before the first call, and after a successful call the estimator is
    in the same state. *)
Theorem second_call_as_fresh (self : FracND) (v1 v2 : ndarray Q)
    (g : rng_state) r1 s1 g1 :
  call self v1 g = (r1, s1, g1) ->
  (max_box_size self = None ->
   default_max_box_size (shape v1) = default_max_box_size (shape v2)) ->
  fst (fst (call s1 v2 g1)) = fst (fst (call self v2 g1))
  /\ snd (call s1 v2 g1) = snd (call self v2 g1)
  /\ (fst (fst (call s1 v2 g1)) = Ok tt ->
      snd (fst (call s1 v2 g1)) = snd (fst (call self v2 g1))).
Proof.
  intros H Hdef. destruct (call_frame _ _ _ _ _ _ H) as [Hp Hm].
  apply call_determined; [exact Hp|].
  unfold effective_max_box_size.
  destruct Hm as [Hm|[Hnone [m [Em Hm]]]]; [now rewrite Hm|].
  rewrite Hm, Hnone, <- (Hdef Hnone). now symmetry.
Qed.

(** Property X11.  Without subsampling, analysing the same array again on the same
    estimator gives the same outcome, and after a successful analysis it
    leaves the estimator exactly as the first analysis left it. *)
Theorem call_repeatable (self : FracND) (a : ndarray Q) (g : rng_state)
    r s1 g1 :
  subsample self = None ->
  call self a g = (r, s1, g1) ->
  g1 = g
  /\ fst (fst (call s1 a g1)) = r
  /\ snd (call s1 a g1) = g1
  /\ (r = Ok tt -> snd (fst (call s1 a g1)) = s1).
Proof.
  intros Hsub H. destruct (call_frame _ _ _ _ _ _ H) as [Hp Hm].
  destruct (call_rng self a g g1 Hsub) as [Ef Eg].
  rewrite H in Ef, Eg. cbn [fst snd] in Ef, Eg. subst g1.
  destruct (call_determined s1 self a g Hp) as [Er [Es Et]].
  { unfold effective_max_box_size.
    destruct Hm as [Hm|[Hnone [m [Em Hm]]]]; [now rewrite Hm|].
    rewrite Hm, Hnone. now symmetry. }
  rewrite H in Er, Es, Et. cbn [fst snd] in Er, Es, Et.
  repeat split; try assumption.
  intros ->. now apply Et.
Qed.

End CallState.

(** ** The range of the scales *)

Lemma default_max_box_size_spec (sh : list nat) (m : Z) :
  default_max_box_size sh = Ok m ->
  (0 <= m)%Z
  /\ (forall n, In n sh -> (2 ^ m <= Z.of_nat n)%Z)
  /\ exists n, In n sh /\ (Z.of_nat n < 2 ^ (m + 1))%Z.
Proof.
  unfold default_max_box_size. destruct sh as [|n ns]; [discriminate|].
  destruct (fold_min_spec n ns) as [Hin Hle].
  set (k := fold_right Nat.min n ns) in *.
  destruct (Nat.eqb_spec k 0); [discriminate|]. intros [= <-].
  assert (Hk : (0 < Z.of_nat k)%Z) by lia.
  destruct (Z.log2_spec _ Hk) as [L U].
  split; [apply Z.log2_nonneg|]. split.
  - intros x Hx. specialize (Hle x Hx). lia.
  - exists k. split; [exact Hin|]. now rewrite <- Z.add_1_r in U.
Qed.

Section ScaleRange.

Context {np : Numpy}.

Lemma call_scales (self : FracND) (a : ndarray Q) (g : rng_state)
    r self' g' (m : Z) (samples : list Z) :
  call self a g = (r, self', g') ->
  ~ Forall (fun x => x == 0) (ravel a) ->
  effective_max_box_size self a = Ok m ->
  floor_logspace m (min_box_size self) (n_samples self) = Ok samples ->
  scales self' = np_unique_Z samples.
Proof.
  intros H Hne Hm Hs.
  assert (Hm' : match max_box_size self with
                | Some m' => m' = m
                | None => default_max_box_size (shape a) = Ok m
                end).
  { unfold effective_max_box_size in Hm.
    destruct (max_box_size self); [congruence|exact Hm]. }
  destruct (call_inv self a g r self' g' m samples H Hne Hm' Hs)
    as [r2 [self2 [Hsw [Esc _]]]].
  apply sweep_spec in Hsw. destruct Hsw as [E _].
  rewrite Esc, E. reflexivity.
Qed.

(** Property X12.  For exponents [0 <= min_box_size <= max] and at least one sample,
    every scale that a call scans lies between 2 to the power [min_box_size]
    and 2 to the power of the largest exponent; the largest of these two
    bounds is always scanned, the smallest whenever there are two samples or
    more.  With the default exponent no scanned window is longer than the
    shortest axis of the array. *)
Theorem scales_between_powers (self : FracND) (a : ndarray Q)
    (g : rng_state) r self' g' (m : Z) :
  call self a g = (r, self', g') ->
  ~ Forall (fun x => x == 0) (ravel a) ->
  effective_max_box_size self a = Ok m ->
  (0 <= min_box_size self <= m)%Z -> (1 <= n_samples self)%Z ->
  (forall z, In z (scales self') ->
     (2 ^ min_box_size self <= z <= 2 ^ m)%Z)
  /\ In (2 ^ m)%Z (scales self')
  /\ ((2 <= n_samples self)%Z -> In (2 ^ min_box_size self)%Z (scales self'))
  /\ (max_box_size self = None ->
      forall z n, In z (scales self') -> In n (shape a) ->
        (z <= Z.of_nat n)%Z).
Proof.
  intros H Hne Hm Hmin Hn.
  set (lo := min_box_size self) in *. set (n := n_samples self) in *.
  destruct (floor_logspace m lo n) as [samples|e] eqn:Es.
  2:{ exfalso. unfold floor_logspace in Es.
      destruct (Z.ltb_spec n 0); [lia|].
      destruct (n =? 1)%Z; discriminate. }
  pose proof (call_scales self a g r self' g' m samples H Hne Hm Es) as Esc.
  assert (Hall : forall z, In z (scales self') -> (2 ^ lo <= z <= 2 ^ m)%Z).
  { intros z Hz. rewrite Esc in Hz. apply (proj1 (np_unique_Z_In z samples)) in Hz.
    destruct (floor_logspace_samples m lo n samples Es z Hz) as [i [Hi P]].
    destruct (Z.eqb_spec n 1) as [E1|E1].
    - apply (floor_pow2_between _ _ _ lo m) in P; lia.
    - apply (floor_pow2_between _ _ _ lo m) in P; [exact P|lia..|nia]. }
  split; [exact Hall|]. split; [|split].
  - rewrite Esc. apply np_unique_Z_In. unfold floor_logspace in Es.
    destruct (Z.ltb_spec n 0); [lia|].
    destruct (Z.eqb_spec n 1) as [E1|E1]; injection Es as <-.
    + left. rewrite <- (floor_pow2_exact m 1) by lia. f_equal. lia.
    + apply in_map_iff. exists O. split; [|apply in_seq; lia].
      rewrite <- (floor_pow2_exact m (Z.to_pos (n - 1))) by lia.
      f_equal. rewrite Z2Pos.id by lia. lia.
  - intros Hn2. rewrite Esc. apply np_unique_Z_In. unfold floor_logspace in Es.
    destruct (Z.ltb_spec n 0); [lia|].
    destruct (Z.eqb_spec n 1) as [E1|E1]; [lia|]. injection Es as <-.
    apply in_map_iff. exists (Z.to_nat (n - 1)). split; [|apply in_seq; lia].
    rewrite <- (floor_pow2_exact lo (Z.to_pos (n - 1))) by lia.
    f_equal. rewrite Z2Pos.id, Z2Nat.id by lia. lia.
  - intros Hnone z k Hz Hk. specialize (Hall z Hz).
    unfold effective_max_box_size in Hm. rewrite Hnone in Hm.
    apply default_max_box_size_spec in Hm. destruct Hm as [_ [Hfit _]].
    specialize (Hfit k Hk). lia.
Qed.

End ScaleRange.

(** ** The binary array of greyscale_to_binary *)

Section PassesCheck.

Context {np : Numpy}.

Lemma call_passes_check (self : FracND) (a : ndarray Q) (g : rng_state) :
  (exists x, In x (ravel a) /\ ~ x == 0) ->
  fst (fst (call self a g)) <> Raise EmptyInputError.
Proof.
  intros [x [Hx Hx0]]. unfold call.
  destruct (forallb (fun x => Qeq_bool x 0) (ravel a)) eqn:E.
  { exfalso. apply all_zero_iff in E. rewrite Forall_forall in E.
    apply Hx0. now apply E. }
  pose proof (default_max_box_size_not_empty (shape a)) as H0.
  destruct (match max_box_size self with
            | None => default_max_box_size (shape a)
            | Some m => Ok m
            end) as [m|e] eqn:Em.
  2:{ cbn [fst]. destruct (max_box_size self); [discriminate|].
      intros E'. injection E' as ->. now apply H0. }
  pose proof (scale_sequence_not_empty (set_max_box_size self m) m) as H1.
  destruct (scale_sequence (set_max_box_size self m) m) as [sc|e];
    [|raised_elsewhere H1].
  set (self1 := set_series (set_scales (set_max_box_size self m) sc) [] []).
  pose proof (sweep_not_empty self1 a (scales self1) g) as H2.
  destruct (sweep self1 a (scales self1) g) as [[[u|e] self2] g2];
    [|raised_elsewhere H2].
  pose proof (linear_fit_not_empty (map inject_Z (scales self2))
                (map inject_Z (Ns self2)) true) as H3.
  destruct (linear_fit (map inject_Z (scales self2))
              (map inject_Z (Ns self2)) true) as [fit|e];
    [|raised_elsewhere H3].
  match goal with
  | |- context [match ?r with Ok _ => _ | Raise _ => _ end] =>
      assert (H4 : r <> Raise EmptyInputError);
      [|destruct r; [discriminate|raised_elsewhere H4]]
  end.
  apply linear_fit_float_not_empty.
Qed.

End PassesCheck.

Lemma Zlist_max_attained (x : Z) (r : list Z) : In (Zlist_max x r) (x :: r).
Proof.
  induction r as [|y r IH]; cbn [Zlist_max fold_right]; [now left|].
  fold (Zlist_max x r).
  destruct (Z.max_spec y (Zlist_max x r)) as [[_ ->]|[_ ->]].
  - destruct IH as [<-|IH]; [now left|right; now right].
  - right. now left.
Qed.

Lemma flatten_tonehot (w d : nat) (t : tensor Z d) :
  flatten (S d) (tonehot w d t) = flat_map (onehot w) (flatten d t).
Proof.
  induction d as [|k IH].
  - cbn. rewrite app_nil_r.
    induction (onehot w t) as [|b l IHl]; [reflexivity|].
    cbn. now rewrite IHl.
  - change (tensor Z (S k)) with (list (tensor Z k)) in t.
    change (flatten (S (S k)) (tonehot w (S k) t))
      with (flat_map (flatten (S k)) (map (tonehot w k) t)).
    change (flatten (S k) t) with (flat_map (flatten k) t).
    induction t as [|x t IHt]; [reflexivity|].
    cbn [map flat_map]. rewrite IH, IHt. now rewrite flat_map_app.
Qed.

Lemma length_onehot (w : nat) (v : Z) :
  (0 <= v < Z.of_nat w)%Z -> length (onehot w v) = w.
Proof.
  intros H. rewrite onehot_repeat by exact H.
  rewrite length_app. cbn [length]. rewrite !repeat_length. lia.
Qed.

Lemma has_shape_tonehot (w d : nat) :
  forall (sh : list nat) (t : tensor Z d),
    has_shape d sh t = true ->
    Forall (fun v => 0 <= v < Z.of_nat w)%Z (flatten d t) ->
    has_shape (S d) (sh ++ [w]) (tonehot w d t) = true.
Proof.
  induction d as [|k IH]; intros sh t Hsh Hr.
  - destruct sh; [|discriminate Hsh]. cbn in Hr. inversion Hr; subst.
    cbn [app tonehot]. cbn [has_shape].
    rewrite length_onehot by assumption. rewrite Nat.eqb_refl. cbn.
    induction (onehot w t); [reflexivity|]. cbn. exact IHl.
  - destruct sh as [|n ns]; [discriminate Hsh|].
    apply has_shape_cons in Hsh. destruct Hsh as [Hlen Hsub].
    change (tensor Z (S k)) with (list (tensor Z k)) in t.
    change (has_shape (S (S k)) (n :: ns ++ [w]) (map (tonehot w k) t) = true).
    cbn [has_shape]. rewrite length_map, Hlen, Nat.eqb_refl. cbn [andb].
    apply forallb_forall. intros y Hy. apply in_map_iff in Hy.
    destruct Hy as [x [<- Hx]]. apply IH; [now apply Hsub|].
    change (flatten (S k) t) with (flat_map (flatten k) t) in Hr.
    rewrite Forall_forall in Hr |- *. intros v Hv. apply Hr.
    apply in_flat_map. now exists x.
Qed.

Lemma onehot_entries (w : nat) (v : Z) :
  (0 <= v < Z.of_nat w)%Z ->
  Forall (fun b => b = 0%Z \/ b = 1%Z) (onehot w v).
Proof.
  intros H. rewrite onehot_repeat by exact H.
  apply Forall_app. split; [|constructor; [now right|]];
    apply Forall_forall; intros b Hb; apply repeat_spec in Hb; now left.
Qed.

(** What [greyscale_to_binary] returns, in closed form. *)
Lemma greyscale_to_binary_inv (a : ndarray Q) (levels : Z) :
  well_formed a = true -> (0 <= levels)%Z ->
  (exists x y, In x (ravel a) /\ In y (ravel a) /\ ~ x == y) ->
  exists f : Q -> Z,
    let w := Z.to_nat (levels + 1) in
    quantised a levels = Ok (array_map f a)
    /\ greyscale_to_binary a levels
       = Ok (mk_ndarray (S (ndim a)) (shape a ++ [w])
               (tonehot w (ndim a) (tmap f (ndim a) (items a))))
    /\ Forall (fun v => 0 <= v <= levels)%Z (map f (ravel a))
    /\ In levels (map f (ravel a))
    /\ In 0%Z (map f (ravel a)).
Proof.
  intros Hwf Hlev [x [y [Hx [Hy Hxy]]]].
  destruct (well_formed_inv a Hwf) as [Hrank [Hsh _]].
  unfold greyscale_to_binary, quantised.
  destruct (ravel a) as [|x0 r] eqn:Er; [destruct Hx|].
  cbn [np_min np_max bind].
  set (lo := Qlist_min x0 r). set (hi := Qlist_max x0 r).
  assert (Hlo : forall z, In z (x0 :: r) -> lo <= z) by (intros; now apply Qlist_min_le).
  assert (Hhi : forall z, In z (x0 :: r) -> z <= hi) by (intros; now apply Qlist_max_ge).
  assert (Hgap : 0 < hi - lo).
  { destruct (Qlt_le_dec lo hi) as [H|H]; [lra|].
    exfalso. apply Hxy.
    pose proof (Hlo x Hx). pose proof (Hhi x Hx).
    pose proof (Hlo y Hy). pose proof (Hhi y Hy). lra. }
  destruct (Qeq_bool (hi - lo) 0) eqn:E.
  { apply Qeq_bool_eq in E. lra. }
  set (f := fun x => int_of_Q ((x - lo) / (hi - lo) * inject_Z levels)).
  exists f. cbv zeta.
  assert (Emap : array_map (fun x => int_of_Q (x * inject_Z levels))
                   (array_map (fun x => (x - lo) / (hi - lo)) a)
                 = array_map f a).
  { unfold array_map. cbn [ndim shape items]. now rewrite tmap_tmap. }
  rewrite Emap.
  assert (Erav : ravel (array_map f a) = map f (x0 :: r)).
  { unfold ravel, array_map. cbn [ndim items]. rewrite flatten_tmap.
    unfold ravel in Er. now rewrite Er. }
  assert (Hlev' : 0 <= inject_Z levels)
    by (change 0 with (inject_Z 0); now rewrite <- Zle_Qle).
  assert (Hfrac : forall z, In z (x0 :: r) ->
                    0 <= (z - lo) / (hi - lo) /\ (z - lo) / (hi - lo) <= 1).
  { intros z Hz. specialize (Hlo z Hz). specialize (Hhi z Hz). split.
    - apply Qle_shift_div_l; [exact Hgap|]. lra.
    - apply Qle_shift_div_r; [exact Hgap|]. lra. }
  assert (Hrange : forall v, In v (map f (x0 :: r)) -> (0 <= v <= levels)%Z).
  { intros v Hv. apply in_map_iff in Hv. destruct Hv as [z [<- Hz]].
    destruct (Hfrac z Hz) as [F0 F1]. unfold f.
    assert (P : 0 <= (z - lo) / (hi - lo) * inject_Z levels)
      by (apply Qmult_le_0_compat; assumption).
    split; [now apply int_of_Q_nonneg|].
    rewrite int_of_Q_floor by exact P.
    rewrite <- (Qfloor_Z levels) at 2. apply Qfloor_resp_le. nra. }
  assert (Htop : In levels (map f (x0 :: r))).
  { destruct (Qlist_max_attained x0 r) as [z [Hz Ez]]. fold hi in Ez.
    apply in_map_iff. exists z. split; [|exact Hz]. unfold f.
    destruct (Hfrac z Hz) as [F0 F1].
    rewrite int_of_Q_floor by (apply Qmult_le_0_compat; assumption).
    rewrite <- (Qfloor_Z levels) at 2. apply Qfloor_comp.
    rewrite Ez. field. lra. }
  assert (Hbot : In 0%Z (map f (x0 :: r))).
  { destruct (Qlist_min_attained x0 r) as [z [Hz Ez]]. fold lo in Ez.
    apply in_map_iff. exists z. split; [|exact Hz]. unfold f.
    destruct (Hfrac z Hz) as [F0 F1].
    rewrite int_of_Q_floor by (apply Qmult_le_0_compat; assumption).
    change 0%Z with (Qfloor (inject_Z 0)). apply Qfloor_comp.
    rewrite Ez. field. lra. }
  rewrite Erav. cbn [map].
  set (mx := Zlist_max (f x0) (map f r)).
  assert (Emx : mx = levels).
  { pose proof (Zlist_max_attained (f x0) (map f r)) as Hin. fold mx in Hin.
    pose proof (Hrange mx Hin) as H1.
    pose proof (Zlist_max_ge (f x0) (map f r) levels Htop) as H2.
    fold mx in H2. lia. }
  rewrite Emx. destruct (Z.ltb_spec (levels + 1) 0); [lia|].
  cbn [shape ndim array_map].
  set (w := Z.to_nat (levels + 1)).
  assert (Hw : Forall (fun v => 0 <= v < Z.of_nat w)%Z
                      (flatten (ndim a) (tmap f (ndim a) (items a)))).
  { change (flatten (ndim a) (tmap f (ndim a) (items a)))
      with (ravel (array_map f a)).
    rewrite Erav. apply Forall_forall.
    intros v Hv. specialize (Hrange v Hv). unfold w. lia. }
  change (map (fun iv => map Z.of_nat (fst iv) ++ [snd iv])
              (combine (ndindex (shape a)) (f x0 :: map f r)))
    with (bin_indices (shape a) (map f (x0 :: r))).
  rewrite <- Erav. unfold ravel at 1. cbn [ndim items array_map].
  rewrite (scatter_onehot w (ndim a) (shape a))
    by (auto; now rewrite has_shape_tmap).
  cbn [bind]. split; [reflexivity|]. split; [reflexivity|].
  split; [apply Forall_forall; exact Hrange|]. split; assumption.
Qed.

Lemma Zsum_flat_map {A} (f : A -> list Z) (l : list A) :
  Zsum (flat_map f l) = Zsum (map (fun x => Zsum (f x)) l).
Proof.
  induction l as [|x l IH]; [reflexivity|].
  cbn [flat_map map]. rewrite Zsum_app, IH. reflexivity.
Qed.

Lemma Zsum_onehot_rows (w : nat) (l : list Z) :
  Forall (fun v => 0 <= v < Z.of_nat w)%Z l ->
  Zsum (map (fun v => Zsum (onehot w v)) l) = Z.of_nat (length l).
Proof.
  induction 1 as [|v l Hv _ IH]; [reflexivity|].
  cbn [map length]. change (Zsum (?x :: ?r)) with (x + Zsum r)%Z.
  rewrite IH, Zsum_onehot by exact Hv. lia.
Qed.

(** Property X13.  For a non-constant array and a non-negative number of levels the
    binary array has exactly [levels + 1] layers along the added axis, it is
    rectangular, its entries are 0 or 1, and it holds as many ones as the
    input has elements; the quantised values run from 0 to [levels], and both
    ends occur. *)
Theorem greyscale_to_binary_layers (a : ndarray Q) (levels : Z) :
  well_formed a = true -> (0 <= levels)%Z ->
  (exists x y, In x (ravel a) /\ In y (ravel a) /\ ~ x == y) ->
  exists b q,
    greyscale_to_binary a levels = Ok b
    /\ quantised a levels = Ok q
    /\ ndim b = S (ndim a)
    /\ shape b = shape a ++ [Z.to_nat (levels + 1)]
    /\ has_shape (ndim b) (shape b) (items b) = true
    /\ Forall (fun v => v = 0%Z \/ v = 1%Z) (ravel b)
    /\ Zsum (ravel b) = Z.of_nat (length (ravel a))
    /\ Forall (fun v => 0 <= v <= levels)%Z (ravel q)
    /\ In 0%Z (ravel q) /\ In levels (ravel q).
Proof.
  intros Hwf Hlev Hnc.
  destruct (greyscale_to_binary_inv a levels Hwf Hlev Hnc)
    as [f [Eq [Eb [Hr [Htop Hbot]]]]].
  destruct (well_formed_inv a Hwf) as [_ [Hsh _]].
  set (w := Z.to_nat (levels + 1)) in *.
  assert (Hw : Forall (fun v => 0 <= v < Z.of_nat w)%Z
                      (flatten (ndim a) (tmap f (ndim a) (items a)))).
  { rewrite flatten_tmap. eapply Forall_impl; [|exact Hr].
    intros v Hv. cbn in Hv. unfold w. lia. }
  assert (Erq : ravel (array_map f a) = map f (ravel a)).
  { unfold ravel, array_map. cbn [ndim items]. apply flatten_tmap. }
  eexists. eexists. split; [exact Eb|]. split; [exact Eq|].
  cbn [ndim shape items]. split; [reflexivity|]. split; [reflexivity|].
  split; [apply has_shape_tonehot; [now rewrite has_shape_tmap|exact Hw]|].
  unfold ravel at 1 2. cbn [ndim items]. rewrite flatten_tonehot.
  split; [|split].
  - apply Forall_forall. intros b Hb. apply in_flat_map in Hb.
    destruct Hb as [v [Hv Hb]]. rewrite Forall_forall in Hw.
    pose proof (onehot_entries w v (Hw v Hv)) as F.
    rewrite Forall_forall in F. now apply F.
  - rewrite Zsum_flat_map, flatten_tmap.
    fold (ravel a). rewrite flatten_tmap in Hw. fold (ravel a) in Hw.
    rewrite (Zsum_onehot_rows w _ Hw). now rewrite length_map.
  - rewrite Erq. repeat split; assumption.
Qed.

Section BinaryImage.

Context {np : Numpy}.

(** Property X14.  The binary array of a non-constant array is never rejected as
    empty by the estimator: a call on it does not raise the empty-input
    error. *)
Theorem binary_image_passes_empty_check (self : FracND) (a : ndarray Q)
    (levels : Z) (b : ndarray Z) (g : rng_state) :
  well_formed a = true -> (0 <= levels)%Z ->
  (exists x y, In x (ravel a) /\ In y (ravel a) /\ ~ x == y) ->
  greyscale_to_binary a levels = Ok b ->
  fst (fst (call self (array_map inject_Z b) g)) <> Raise EmptyInputError.
Proof.
  intros Hwf Hlev Hnc Hb.
  destruct (greyscale_to_binary_inv a levels Hwf Hlev Hnc)
    as [f [_ [Eb [Hr _]]]].
  rewrite Eb in Hb. injection Hb as <-.
  apply call_passes_check. exists (inject_Z 1). split; [|discriminate].
  unfold ravel, array_map. cbn [ndim items].
  rewrite flatten_tmap, flatten_tonehot, flatten_tmap.
  apply in_map. destruct Hnc as [x [_ [Hx _]]]. fold (ravel a).
  apply in_flat_map. exists (f x). split; [now apply in_map|].
  rewrite Forall_forall in Hr. specialize (Hr (f x) (in_map f _ _ Hx)).
  rewrite onehot_repeat by lia. apply in_or_app. right. now left.
Qed.

End BinaryImage.

(** ** Cropping *)

(** The box that [crop_segmentation] cuts out. *)
Lemma crop_segmentation_box (a : ndarray Q) :
  well_formed a = true -> ndim a = 3%nat ->
  (exists x, In x (ravel a) /\ ~ x == 0) ->
  exists bs,
    length bs = 3%nat
    /\ box_ok bs (shape a)
    /\ crop_segmentation a
       = Ok (getitem_slices a (box_slices bs), map fst bs, map snd bs)
    /\ (forall idx v, tget (ndim a) idx (items a) = Some v -> ~ v == 0 ->
          within bs idx)
    /\ forall ax, (ax < 3)%nat ->
         (exists idx v, tget (ndim a) idx (items a) = Some v /\ ~ v == 0
                        /\ nth ax idx O = fst (nth ax bs (O, O)))
         /\ (exists idx v, tget (ndim a) idx (items a) = Some v /\ ~ v == 0
                           /\ S (nth ax idx O) = snd (nth ax bs (O, O))).
Proof.
  intros Hwf Hd [x [Hx Hx0]].
  destruct (well_formed_inv a Hwf) as [Hrank [Hsh Hsize]].
  destruct a as [d sh t]. cbn [ndim shape items] in *. subst d.
  unfold ravel in Hx. cbn [ndim items] in Hx.
  apply tget_flatten in Hx. destruct Hx as [idx0 Hidx0].
  assert (Hfound : In idx0 (tnonzero 3 t)) by (apply tnonzero_spec; eauto).
  unfold crop_segmentation, np_nonzero. cbn [ndim items seq map].
  destruct (tnonzero 3 t) as [|i0 rest] eqn:Efound; [destruct Hfound|].
  cbn [map np_min_nat np_max_nat sequence bind].
  pose proof (column_extrema 0 i0 rest) as H0.
  pose proof (column_extrema 1 i0 rest) as H1.
  pose proof (column_extrema 2 i0 rest) as H2.
  cbv zeta in H0, H1, H2.
  set (m0 := fold_right Nat.min (nth 0 i0 O) (map (fun idx => nth 0 idx O) rest)) in *.
  set (m1 := fold_right Nat.min (nth 1 i0 O) (map (fun idx => nth 1 idx O) rest)) in *.
  set (m2 := fold_right Nat.min (nth 2 i0 O) (map (fun idx => nth 2 idx O) rest)) in *.
  set (M0 := fold_right Nat.max (nth 0 i0 O) (map (fun idx => nth 0 idx O) rest)) in *.
  set (M1 := fold_right Nat.max (nth 1 i0 O) (map (fun idx => nth 1 idx O) rest)) in *.
  set (M2 := fold_right Nat.max (nth 2 i0 O) (map (fun idx => nth 2 idx O) rest)) in *.
  set (bs := [(m0, (M0 + 1)%nat); (m1, (M1 + 1)%nat); (m2, (M2 + 1)%nat)]).
  change [(Z.of_nat m0, Z.of_nat (M0 + 1)); (Z.of_nat m1, Z.of_nat (M1 + 1));
          (Z.of_nat m2, Z.of_nat (M2 + 1))] with (box_slices bs).
  assert (Hnz : forall idx, In idx (i0 :: rest)
                <-> exists v, tget 3 idx t = Some v /\ ~ v == 0).
  { intros idx. rewrite <- Efound. apply tnonzero_spec. }
  assert (Hcol : forall ax, (ax < 3)%nat ->
            let mn := nth ax [m0; m1; m2] O in
            let mx := nth ax [M0; M1; M2] O in
            (exists idx, In idx (i0 :: rest) /\ nth ax idx O = mn)
            /\ (exists idx, In idx (i0 :: rest) /\ nth ax idx O = mx)
            /\ forall idx, In idx (i0 :: rest) -> (mn <= nth ax idx O <= mx)%nat).
  { intros [|[|[|ax]]] Hax; try lia; cbn [nth]; assumption. }
  destruct sh as [|n0 [|n1 [|n2 [|n3 sh]]]]; try discriminate Hrank.
  assert (Hin_sh : forall idx, In idx (i0 :: rest) ->
            exists i j k, idx = [i; j; k]
                          /\ (i < n0)%nat /\ (j < n1)%nat /\ (k < n2)%nat).
  { intros idx Hidx. apply Hnz in Hidx. destruct Hidx as [v [Hv _]].
    pose proof (tget_bounds 3 _ _ _ _ Hsh Hv) as Hb.
    inversion Hb as [|i ? idx1 ? Hi Hb1]; subst.
    inversion Hb1 as [|j ? idx2 ? Hj Hb2]; subst.
    inversion Hb2 as [|k ? idx3 ? Hk Hb3]; subst.
    inversion Hb3; subst. exists i, j, k. repeat split; assumption. }
  exists bs. split; [reflexivity|]. split; [|split; [reflexivity|split]].
  - destruct (Hcol 0%nat ltac:(lia)) as [_ [[j0 [J0 E0]] B0]].
    destruct (Hcol 1%nat ltac:(lia)) as [_ [[j1 [J1 E1]] B1]].
    destruct (Hcol 2%nat ltac:(lia)) as [_ [[j2 [J2 E2]] B2]].
    specialize (B0 _ J0). specialize (B1 _ J1). specialize (B2 _ J2).
    destruct (Hin_sh j0 J0) as [a0 [b0 [c0 [-> [? [? ?]]]]]].
    destruct (Hin_sh j1 J1) as [a1 [b1 [c1 [-> [? [? ?]]]]]].
    destruct (Hin_sh j2 J2) as [a2 [b2 [c2 [-> [? [? ?]]]]]].
    cbn [nth] in *. unfold bs. cbn [box_ok]. lia.
  - intros idx v Hv Hv0.
    assert (Hidx : In idx (i0 :: rest)) by (apply Hnz; eauto).
    destruct (Hin_sh idx Hidx) as [i [j [k [-> _]]]].
    destruct (Hcol 0%nat ltac:(lia)) as [_ [_ B0]].
    destruct (Hcol 1%nat ltac:(lia)) as [_ [_ B1]].
    destruct (Hcol 2%nat ltac:(lia)) as [_ [_ B2]].
    specialize (B0 _ Hidx). specialize (B1 _ Hidx). specialize (B2 _ Hidx).
    cbn [nth] in B0, B1, B2. unfold bs. cbn [within]. lia.
  - intros ax Hax. destruct (Hcol ax Hax) as [[j [Hj Ej]] [[j' [Hj' Ej']] _]].
    split.
    + apply Hnz in Hj. destruct Hj as [v [Hv Hv0]]. exists j, v.
      split; [exact Hv|]. split; [exact Hv0|]. rewrite Ej.
      destruct ax as [|[|[|ax]]]; try lia; reflexivity.
    + apply Hnz in Hj'. destruct Hj' as [v [Hv Hv0]]. exists j', v.
      split; [exact Hv|]. split; [exact Hv0|]. rewrite Ej'.
      destruct ax as [|[|[|ax]]]; try lia; cbn [nth bs snd]; lia.
Qed.

Lemma tslice_full {A} (d : nat) :
  forall (sh : list nat) (t : tensor A d),
    has_shape d sh t = true ->
    tslice d (box_slices (map (fun n => (O, n)) sh)) t = t.
Proof.
  induction d as [|k IH]; intros sh t Hsh; [reflexivity|].
  destruct sh as [|n ns]; [discriminate Hsh|].
  apply has_shape_cons in Hsh. destruct Hsh as [Hlen Hsub].
  change (tensor A (S k)) with (list (tensor A k)) in t.
  cbn [map box_slices fst snd tslice].
  rewrite slice_bounds_nat, Hlen, Nat.min_id. cbn [Nat.min skipn].
  rewrite Nat.sub_0_r, <- Hlen, firstn_all.
  rewrite <- (map_id t) at 2. apply map_ext_in.
  intros x Hx. apply IH. now apply Hsub.
Qed.

Lemma slice_shape_full (sh : list nat) :
  slice_shape (box_slices (map (fun n => (O, n)) sh)) sh = sh.
Proof.
  induction sh as [|n ns IH]; [reflexivity|].
  cbn [map box_slices fst snd slice_shape].
  rewrite slice_bounds_nat, Nat.min_id. cbn [Nat.min snd].
  rewrite Nat.sub_0_r. f_equal. exact IH.
Qed.

(** An array whose outer slices all hold a non-zero element is cropped to
    itself. *)
Lemma crop_tight (c : ndarray Q) :
  well_formed c = true -> ndim c = 3%nat ->
  (forall ax, (ax < 3)%nat ->
     (exists idx v, tget (ndim c) idx (items c) = Some v /\ ~ v == 0
                    /\ nth ax idx O = O)
     /\ (exists idx v, tget (ndim c) idx (items c) = Some v /\ ~ v == 0
                       /\ S (nth ax idx O) = nth ax (shape c) O)) ->
  crop_segmentation c = Ok (c, [O; O; O], shape c).
Proof.
  intros Hwf Hd Hedge.
  destruct (well_formed_inv c Hwf) as [Hrank [Hsh _]].
  assert (Hnz : exists x, In x (ravel c) /\ ~ x == 0).
  { destruct (Hedge O ltac:(lia)) as [[idx [v [Hv [Hv0 _]]]] _].
    exists v. split; [|exact Hv0]. apply tget_flatten. now exists idx. }
  destruct (crop_segmentation_box c Hwf Hd Hnz)
    as [bs [Hlen [Hok [Ecrop [Hin Hext]]]]].
  rewrite Ecrop.
  destruct c as [d sh t]. cbn [ndim shape items] in *. subst d.
  destruct sh as [|n0 [|n1 [|n2 [|n3 sh]]]]; try discriminate Hrank.
  destruct bs as [|[l0 h0] [|[l1 h1] [|[l2 h2] [|b bs]]]];
    try discriminate Hlen.
  cbn [box_ok] in Hok.
  assert (Hb : forall ax, (ax < 3)%nat ->
            fst (nth ax [(l0, h0); (l1, h1); (l2, h2)] (O, O)) = O
            /\ snd (nth ax [(l0, h0); (l1, h1); (l2, h2)] (O, O))
               = nth ax [n0; n1; n2] O).
  { intros ax Hax.
    destruct (Hedge ax Hax) as [[i [v [Hv [Hv0 Ei]]]] [j [u [Hu [Hu0 Ej]]]]].
    pose proof (Hin i v Hv Hv0) as Wi. pose proof (Hin j u Hu Hu0) as Wj.
    pose proof (tget_length 3 i t v Hv) as Li.
    pose proof (tget_length 3 j t u Hu) as Lj.
    destruct i as [|i0 [|i1 [|i2 [|]]]]; try discriminate Li.
    destruct j as [|j0 [|j1 [|j2 [|]]]]; try discriminate Lj.
    cbn [within] in Wi, Wj.
    destruct ax as [|[|[|ax]]]; try lia; cbn [nth fst snd] in *; lia. }
  destruct (Hb 0%nat ltac:(lia)) as [A0 B0].
  destruct (Hb 1%nat ltac:(lia)) as [A1 B1].
  destruct (Hb 2%nat ltac:(lia)) as [A2 B2].
  cbn [nth fst snd] in A0, B0, A1, B1, A2, B2. subst.
  cbn [map fst snd]. f_equal. f_equal. f_equal.
  unfold getitem_slices. cbn [ndim shape items].
  change (box_slices [(O, n0); (O, n1); (O, n2)])
    with (box_slices (map (fun n => (O, n)) [n0; n1; n2])).
  now rewrite slice_shape_full, (tslice_full 3 [n0; n1; n2] t Hsh).
Qed.

Lemma sequence_map {A B} (f : A -> Result B) (g : A -> B) (l : list A) :
  (forall x, In x l -> f x = Ok (g x)) ->
  sequence (map f l) = Ok (map g l).
Proof.
  induction l as [|x l IH]; intros H; [reflexivity|].
  cbn [map sequence]. rewrite (H x) by now left. cbn [bind].
  rewrite IH by (intros y Hy; apply H; now right). reflexivity.
Qed.

Lemma tnonzero_empty (a : ndarray Q) :
  tnonzero (ndim a) (items a) = []
  <-> Forall (fun x => x == 0) (ravel a).
Proof.
  split.
  - intros E. apply Forall_forall. intros x Hx.
    destruct (Qeq_dec x 0) as [H|H]; [exact H|]. exfalso.
    apply tget_flatten in Hx. destruct Hx as [idx Hidx].
    assert (Hin : In idx (tnonzero (ndim a) (items a)))
      by (apply tnonzero_spec; eauto).
    rewrite E in Hin. destruct Hin.
  - intros F. destruct (tnonzero (ndim a) (items a)) as [|idx r] eqn:E;
      [reflexivity|]. exfalso.
    assert (Hin : In idx (tnonzero (ndim a) (items a)))
      by (rewrite E; now left).
    apply tnonzero_spec in Hin. destruct Hin as [v [Hv Hv0]].
    apply Hv0. rewrite Forall_forall in F. apply F.
    apply tget_flatten. now exists idx.
Qed.

Lemma crop_segmentation_all_zero (a : ndarray Q) :
  (1 <= ndim a)%nat -> Forall (fun x => x == 0) (ravel a) ->
  crop_segmentation a = Raise ValueError.
Proof.
  intros Hd F. unfold crop_segmentation, np_nonzero.
  apply tnonzero_empty in F. rewrite F. clear F.
  destruct a as [d sh t]. cbn [ndim] in *.
  destruct d as [|k]; [lia|]. reflexivity.
Qed.

(** Property X15.  On an array with at least one axis, [crop_segmentation] raises
    [ValueError] when every element is zero, raises [IndexError] when there
    is a non-zero element but fewer than three axes, and otherwise returns,
    with one lower and one upper index for every axis. *)
Theorem crop_segmentation_outcome (a : ndarray Q) :
  (1 <= ndim a)%nat ->
  (Forall (fun x => x == 0) (ravel a) ->
   crop_segmentation a = Raise ValueError)
  /\ (~ Forall (fun x => x == 0) (ravel a) -> (ndim a < 3)%nat ->
      crop_segmentation a = Raise IndexError)
  /\ (~ Forall (fun x => x == 0) (ravel a) -> (3 <= ndim a)%nat ->
      exists c lo hi,
        crop_segmentation a = Ok (c, lo, hi)
        /\ length lo = ndim a /\ length hi = ndim a).
Proof.
  intros Hd. unfold crop_segmentation, np_nonzero.
  pose proof (tnonzero_empty a) as Hempty.
  destruct (tnonzero (ndim a) (items a)) as [|i0 rest].
  - assert (F : Forall (fun x => x == 0) (ravel a)) by now apply Hempty.
    split; [|split; intros H; contradiction].
    intros _. destruct (ndim a) as [|k]; [lia|].
    cbn [seq map np_min_nat sequence bind]. reflexivity.
  - assert (F : ~ Forall (fun x => x == 0) (ravel a))
      by (intros F; apply Hempty in F; discriminate).
    split; [intros H; contradiction|].
    set (cols := map (fun ax => map (fun idx => nth ax idx O) (i0 :: rest))
                     (seq 0 (ndim a))).
    assert (Hlen : length cols = ndim a)
      by (unfold cols; now rewrite length_map, length_seq).
    assert (Hcol : forall col, In col cols -> exists y r, col = y :: r).
    { intros col Hc. unfold cols in Hc. apply in_map_iff in Hc.
      destruct Hc as [ax [<- _]]. cbn [map]. eauto. }
    assert (Emin : sequence (map np_min_nat cols)
                   = Ok (map (fun col => match col with
                                         | [] => O
                                         | y :: r => fold_right Nat.min y r
                                         end) cols)).
    { apply sequence_map. intros col Hc.
      destruct (Hcol col Hc) as [y [r ->]]. reflexivity. }
    assert (Emax : sequence (map np_max_nat cols)
                   = Ok (map (fun col => match col with
                                         | [] => O
                                         | y :: r => fold_right Nat.max y r
                                         end) cols)).
    { apply sequence_map. intros col Hc.
      destruct (Hcol col Hc) as [y [r ->]]. reflexivity. }
    rewrite Emin, Emax. cbn [bind]. clearbody cols.
    destruct cols as [|c0 [|c1 [|c2 cols]]]; cbn [length] in Hlen;
      cbn [map].
    + lia.
    + split; [reflexivity|]. intros _ H. lia.
    + split; [reflexivity|]. intros _ H. lia.
    + split; [intros _ H; lia|]. intros _ _.
      eexists. eexists. eexists. split; [reflexivity|].
      cbn [length]. rewrite !length_map. cbn [length] in Hlen. now split.
Qed.

Lemma crop_success_nonzero (a : ndarray Q) r :
  (1 <= ndim a)%nat -> crop_segmentation a = Ok r ->
  exists x, In x (ravel a) /\ ~ x == 0.
Proof.
  intros Hd H.
  destruct (forallb (fun x => Qeq_bool x 0) (ravel a)) eqn:E.
  - apply all_zero_iff in E.
    rewrite (crop_segmentation_all_zero a Hd E) in H. discriminate H.
  - apply not_true_iff_false in E. rewrite all_zero_iff in E.
    apply neg_Forall_Exists_neg in E; [|intros x; apply Qeq_dec].
    apply Exists_exists in E. exact E.
Qed.

(** Property X16.  Cropping is idempotent: the array that [crop_segmentation]
    returns is cropped to itself, with all lower indices 0 and the upper
    indices equal to its shape. *)
Theorem crop_segmentation_idempotent (a c : ndarray Q) (lo hi : list nat) :
  well_formed a = true -> ndim a = 3%nat ->
  crop_segmentation a = Ok (c, lo, hi) ->
  crop_segmentation c = Ok (c, [O; O; O], shape c).
Proof.
  intros Hwf Hd Hcrop.
  assert (Hnz : exists x, In x (ravel a) /\ ~ x == 0)
    by (apply (crop_success_nonzero a _ ltac:(lia) Hcrop)).
  destruct (well_formed_inv a Hwf) as [Hrank [Hsh Hsize]].
  destruct (crop_segmentation_box a Hwf Hd Hnz)
    as [bs [Hlen [Hok [Ecrop [Hin Hext]]]]].
  rewrite Ecrop in Hcrop. injection Hcrop as <- <- <-.
  destruct a as [d sh t]. cbn [ndim shape items] in *. subst d.
  pose proof (has_shape_tslice 3 bs sh t Hsh Hok) as Hcsh.
  pose proof (slice_shape_box bs sh Hok) as Hss.
  destruct sh as [|n0 [|n1 [|n2 [|n3 sh]]]]; try discriminate Hrank.
  destruct bs as [|[l0 h0] [|[l1 h1] [|[l2 h2] [|b bs]]]];
    try discriminate Hlen.
  set (bs := [(l0, h0); (l1, h1); (l2, h2)]) in *.
  assert (Hback : forall idx v, tget 3 idx t = Some v -> ~ v == 0 ->
            exists idx', tget 3 idx' (tslice 3 (box_slices bs) t) = Some v
              /\ forall ax, nth ax idx' O
                            = (nth ax idx O - fst (nth ax bs (O, O)))%nat).
  { intros idx v Hv Hv0.
    destruct (unshift bs idx (Hin idx v Hv Hv0)) as [idx' [Hb [Hs Hn]]].
    { rewrite (tget_length 3 idx t v Hv). reflexivity. }
    exists idx'. split; [|exact Hn].
    rewrite (tget_tslice 3 bs [n0; n1; n2]) by assumption. now rewrite Hs. }
  apply crop_tight.
  - unfold well_formed, getitem_slices. cbn [ndim shape items].
    rewrite Hss, Hcsh. cbn [length map Nat.eqb andb].
    apply Z.ltb_lt. eapply Z.le_lt_trans; [|exact Hsize].
    unfold bs in *. cbn [box_ok map fst snd] in *.
    apply Zprod_le. repeat constructor; lia.
  - reflexivity.
  - unfold getitem_slices. cbn [ndim shape items]. rewrite Hss.
    intros ax Hax.
    destruct (Hext ax Hax) as [[i [v [Hv [Hv0 Ei]]]] [j [u [Hu [Hu0 Ej]]]]].
    split.
    + destruct (Hback i v Hv Hv0) as [i' [Hc Hn]]. exists i', v.
      split; [exact Hc|]. split; [exact Hv0|]. rewrite Hn, Ei. lia.
    + destruct (Hback j u Hu Hu0) as [j' [Hc Hn]]. exists j', u.
      split; [exact Hc|]. split; [exact Hu0|]. rewrite Hn.
      pose proof (Hin j u Hu Hu0) as Wj.
      pose proof (tget_length 3 j t u Hu) as Lj.
      destruct j as [|j0 [|j1 [|j2 [|]]]]; try discriminate Lj.
      unfold bs in *. cbn [within] in Wj.
      destruct ax as [|[|[|ax]]]; try lia; cbn [nth fst snd map] in *; lia.
Qed.

Lemma combine_fst_snd {A B} (l : list (A * B)) :
  combine (map fst l) (map snd l) = l.
Proof.
  induction l as [|[x y] l IH]; [reflexivity|]. cbn. now rewrite IH.
Qed.

(** Property X17.  An image of the shape of the segmentation, cropped with the
    indices that [crop_segmentation] returned, has the shape of the cropped
    segmentation, and equal indices of the two cropped arrays refer to equal
    positions of the two originals. *)
Theorem crop_image_aligned (seg img c : ndarray Q) (lo hi : list nat) :
  well_formed seg = true -> ndim seg = 3%nat ->
  well_formed img = true -> ndim img = 3%nat -> shape img = shape seg ->
  crop_segmentation seg = Ok (c, lo, hi) ->
  exists ci,
    crop_image img lo hi = Ok ci
    /\ well_formed ci = true
    /\ shape ci = shape c
    /\ forall idx, in_box (combine lo hi) idx ->
         tget (ndim ci) idx (items ci)
         = tget (ndim img) (shift (combine lo hi) idx) (items img)
         /\ tget (ndim c) idx (items c)
            = tget (ndim seg) (shift (combine lo hi) idx) (items seg).
Proof.
  intros Hwf Hd Hwfi Hdi Hshape Hcrop.
  assert (Hnz : exists x, In x (ravel seg) /\ ~ x == 0)
    by (apply (crop_success_nonzero seg _ ltac:(lia) Hcrop)).
  destruct (well_formed_inv seg Hwf) as [Hrank [Hsh Hsize]].
  destruct (well_formed_inv img Hwfi) as [Hranki [Hshi Hsizei]].
  destruct (crop_segmentation_box seg Hwf Hd Hnz)
    as [bs [Hlen [Hok [Ecrop _]]]].
  rewrite Ecrop in Hcrop. injection Hcrop as <- <- <-.
  rewrite combine_fst_snd.
  destruct seg as [d sh t]. destruct img as [di shi ti].
  cbn [ndim shape items] in *. subst d di shi.
  destruct bs as [|[l0 h0] [|[l1 h1] [|[l2 h2] [|b bs]]]];
    try discriminate Hlen.
  set (bs := [(l0, h0); (l1, h1); (l2, h2)]) in *.
  cbn [map fst snd crop_image ndim Nat.ltb Nat.leb].
  change [(Z.of_nat l0, Z.of_nat h0); (Z.of_nat l1, Z.of_nat h1);
          (Z.of_nat l2, Z.of_nat h2)] with (box_slices bs).
  eexists. split; [reflexivity|].
  unfold getitem_slices. cbn [ndim shape items].
  change [(Z.of_nat (fst (l0, h0)), Z.of_nat (snd (l0, h0)));
          (Z.of_nat (fst (l1, h1)), Z.of_nat (snd (l1, h1)));
          (Z.of_nat (fst (l2, h2)), Z.of_nat (snd (l2, h2)))]
    with (box_slices bs).
  pose proof (slice_shape_box bs sh Hok) as Hss.
  split; [|split; [reflexivity|]].
  - unfold well_formed. cbn [ndim shape items].
    rewrite Hss, (has_shape_tslice 3 bs sh ti Hshi Hok).
    destruct sh as [|n0 [|n1 [|n2 [|n3 sh]]]]; try discriminate Hrank.
    cbn [length map Nat.eqb andb].
    apply Z.ltb_lt. eapply Z.le_lt_trans; [|exact Hsize].
    unfold bs in *. cbn [box_ok map fst snd] in *.
    apply Zprod_le. repeat constructor; lia.
  - intros idx Hidx. split.
    + now apply (tget_tslice 3 bs sh).
    + now apply (tget_tslice 3 bs sh).
Qed.

Section CroppedSegmentation.

Context {np : Numpy}.

(** Property X18.  The array that [crop_segmentation] returns holds a non-zero
    element, so the estimator never rejects it as empty. *)
Theorem cropped_segmentation_passes_empty_check (self : FracND)
    (a c : ndarray Q) (lo hi : list nat) (g : rng_state) :
  well_formed a = true -> ndim a = 3%nat ->
  crop_segmentation a = Ok (c, lo, hi) ->
  (exists x, In x (ravel c) /\ ~ x == 0)
  /\ fst (fst (call self c g)) <> Raise EmptyInputError.
Proof.
  intros Hwf Hd Hcrop.
  assert (Hnz : exists x, In x (ravel a) /\ ~ x == 0)
    by (apply (crop_success_nonzero a _ ltac:(lia) Hcrop)).
  destruct (well_formed_inv a Hwf) as [Hrank [Hsh Hsize]].
  destruct (crop_segmentation_box a Hwf Hd Hnz)
    as [bs [Hlen [Hok [Ecrop [Hin Hext]]]]].
  rewrite Ecrop in Hcrop. injection Hcrop as <- <- <-.
  assert (Hc : exists x, In x (ravel (getitem_slices a (box_slices bs)))
                         /\ ~ x == 0).
  { destruct (Hext O ltac:(lia)) as [[idx [v [Hv [Hv0 _]]]] _].
    exists v. split; [|exact Hv0].
    destruct (unshift bs idx (Hin idx v Hv Hv0)) as [idx' [Hb [Hs _]]].
    { rewrite (tget_length _ idx _ v Hv). now rewrite Hlen, Hd. }
    unfold ravel, getitem_slices. cbn [ndim items].
    apply tget_flatten. exists idx'.
    rewrite (tget_tslice _ bs (shape a)) by assumption. now rewrite Hs. }
  split; [exact Hc|]. now apply call_passes_check.
Qed.

End CroppedSegmentation.

(** ** lacunarity_statistics *)

Lemma fold_fmin_finite (x : Q) (r : list Q) :
  fold_right fmin (Finite x) (map Finite r) = Finite (Qlist_min x r).
Proof.
  induction r as [|y r IH]; [reflexivity|].
  cbn [map fold_right Qlist_min]. rewrite IH. reflexivity.
Qed.

Lemma fold_fmax_finite (x : Q) (r : list Q) :
  fold_right fmax (Finite x) (map Finite r) = Finite (Qlist_max x r).
Proof.
  induction r as [|y r IH]; [reflexivity|].
  cbn [map fold_right Qlist_max]. rewrite IH. reflexivity.
Qed.

Lemma fsum_finite (l : list Q) : fsum (map Finite l) = Finite (Qsum l).
Proof.
  induction l as [|y l IH]; [reflexivity|].
  unfold fsum in *. cbn [map fold_right]. rewrite IH. reflexivity.
Qed.

Lemma Qsum_between (lo hi : Q) (l : list Q) :
  Forall (fun q => lo <= q <= hi) l ->
  inject_Z (Z.of_nat (length l)) * lo <= Qsum l
  /\ Qsum l <= inject_Z (Z.of_nat (length l)) * hi.
Proof.
  induction 1 as [|q l Hq _ IH].
  - cbn [length Qsum fold_right]. change (inject_Z (Z.of_nat 0)) with 0. lra.
  - cbn [length]. rewrite Nat2Z.inj_succ. unfold Z.succ.
    rewrite inject_Z_plus. change (Qsum (q :: l)) with (q + Qsum l).
    change (inject_Z 1) with 1. lra.
Qed.

Lemma fmin_at_least_one (x y : fvalue) :
  at_least_one x -> at_least_one y -> at_least_one (fmin x y).
Proof.
  destruct x as [p| | |], y as [q| | |]; cbn [at_least_one fmin]; try tauto.
  intros Hp Hq. now apply Q.min_glb.
Qed.

Lemma fmax_at_least_one (x y : fvalue) :
  at_least_one x -> at_least_one y -> at_least_one (fmax x y).
Proof.
  destruct x as [p| | |], y as [q| | |]; cbn [at_least_one fmax]; try tauto.
  intros Hp Hq. eapply Qle_trans; [exact Hp|]. apply Q.le_max_l.
Qed.

Lemma fold_at_least_one (f : fvalue -> fvalue -> fvalue) (x : fvalue)
    (r : list fvalue) :
  (forall u v, at_least_one u -> at_least_one v -> at_least_one (f u v)) ->
  at_least_one x -> Forall at_least_one r ->
  at_least_one (fold_right f x r).
Proof.
  intros Hf Hx Hr. induction Hr as [|y r Hy _ IH]; [exact Hx|].
  cbn [fold_right]. now apply Hf.
Qed.

Section Statistics.

Context {np : Numpy} {sq : Sqrt}.

Lemma call_success_inv (self : FracND) (a : ndarray Q) (g : rng_state)
    self' g' :
  call self a g = (Ok tt, self', g') ->
  ~ Forall (fun x => x == 0) (ravel a)
  /\ (exists m samples,
        effective_max_box_size self a = Ok m
        /\ floor_logspace m (min_box_size self) (n_samples self) = Ok samples)
  /\ ~ In NaN (lacunarity_spectrum self').
Proof.
  unfold call, effective_max_box_size. intros H.
  destruct (forallb (fun x => Qeq_bool x 0) (ravel a)) eqn:E;
    [discriminate H|].
  split.
  { intros F. apply all_zero_iff in F. congruence. }
  destruct (match max_box_size self with
            | None => default_max_box_size (shape a)
            | Some m => Ok m
            end) as [m|e]; [|discriminate H].
  unfold scale_sequence in H.
  change (min_box_size (set_max_box_size self m)) with (min_box_size self) in H.
  change (n_samples (set_max_box_size self m)) with (n_samples self) in H.
  destruct (floor_logspace m (min_box_size self) (n_samples self))
    as [samples|e] eqn:Efl; [|discriminate H].
  split; [exists m, samples; split; [reflexivity|exact Efl]|]. cbn [bind] in H.
  destruct (sweep _ a _ g) as [[[u|e] self2] g2]; [|discriminate H].
  destruct (linear_fit _ _ true) as [fit|e]; [|discriminate H].
  change (lacunarity_spectrum (set_FD_fit self2 fit))
    with (lacunarity_spectrum self2) in H.
  destruct (linear_fit_float _ (lacunarity_spectrum self2) false)
    as [fit'|e] eqn:Ef; [|discriminate H].
  injection H as <- <-. cbn [lacunarity_spectrum set_LD_fit set_FD_fit].
  unfold linear_fit_float in Ef.
  destruct (fit_series_float _ (lacunarity_spectrum self2)) as [sv|e] eqn:Es;
    [|discriminate Ef].
  exact (fit_series_float_no_nan _ _ _ Es).
Qed.

Lemma lacunarity_statistics_finite (self : FracND) (x : Q) (r : list Q) :
  lacunarity_spectrum self = map Finite (x :: r) ->
  exists mn mx mean sd,
    lacunarity_statistics self = Ok (Finite mn, Finite mx, Finite mean, sd)
    /\ (exists q, In q (x :: r) /\ q == mn)
    /\ (exists q, In q (x :: r) /\ q == mx)
    /\ (forall q, In q (x :: r) -> mn <= q <= mx)
    /\ mn <= mean <= mx
    /\ mean == Qsum (x :: r) / inject_Z (Z.of_nat (length (x :: r))).
Proof.
  intros E. unfold lacunarity_statistics. rewrite E.
  cbn [map np_min_f np_max_f bind].
  rewrite fold_fmin_finite, fold_fmax_finite.
  unfold np_mean_f at 1. change (Finite x :: map Finite r)
    with (map Finite (x :: r)) at 1 2.
  rewrite fsum_finite, length_map. cbn [fdiv_count].
  eexists. eexists. eexists. eexists. split; [reflexivity|].
  destruct (Qlist_min_attained x r) as [q1 [H1 E1]].
  destruct (Qlist_max_attained x r) as [q2 [H2 E2]].
  assert (Hall : forall q, In q (x :: r) ->
            Qlist_min x r <= q <= Qlist_max x r).
  { intros q Hq. split; [now apply Qlist_min_le|now apply Qlist_max_ge]. }
  split; [now exists q1|]. split; [now exists q2|]. split; [exact Hall|].
  split; [|reflexivity].
  destruct (Qsum_between (Qlist_min x r) (Qlist_max x r) (x :: r)) as [L U];
    [apply Forall_forall; exact Hall|].
  assert (Hn : 0 < inject_Z (Z.of_nat (length (x :: r)))).
  { change 0 with (inject_Z 0). rewrite <- Zlt_Qlt. cbn [length]. lia. }
  split.
  - apply Qle_shift_div_l; [exact Hn|]. lra.
  - apply Qle_shift_div_r; [exact Hn|]. lra.
Qed.

(** Property X19.  On a spectrum of finite values the statistics are finite, the
    minimum and the maximum are values of the spectrum that bound all the
    others, and the mean lies between them; on an empty spectrum the call
    raises [ValueError]. *)
Theorem lacunarity_statistics_bounds (self : FracND) (qs : list Q) :
  lacunarity_spectrum self = map Finite qs ->
  match qs with
  | [] => lacunarity_statistics self = Raise ValueError
  | _ :: _ =>
      exists mn mx mean sd,
        lacunarity_statistics self = Ok (Finite mn, Finite mx, Finite mean, sd)
        /\ (exists q, In q qs /\ q == mn) /\ (exists q, In q qs /\ q == mx)
        /\ (forall q, In q qs -> mn <= q <= mx)
        /\ mn <= mean <= mx
        /\ mean == Qsum qs / inject_Z (Z.of_nat (length qs))
  end.
Proof.
  intros E. destruct qs as [|x r].
  - unfold lacunarity_statistics. now rewrite E.
  - now apply lacunarity_statistics_finite.
Qed.

(** Property X20.  After a successful call with at least one sample the
    lacunarity series holds one value per scale, and each of them is plus
    infinity or a number that is at least 1: a NaN would have made the
    second fit raise.  The minimum and the maximum that
    [lacunarity_statistics] returns are of this kind too, and when every
    value is finite, [1 <= min <= max]. *)
Theorem statistics_after_call (self : FracND) (a : ndarray Q)
    (g : rng_state) self' g' :
  call self a g = (Ok tt, self', g') ->
  (1 <= n_samples self)%Z ->
  length (lacunarity_spectrum self') = length (scales self')
  /\ lacunarity_spectrum self' <> []
  /\ Forall at_least_one (lacunarity_spectrum self')
  /\ exists mn mx mean sd,
       lacunarity_statistics self' = Ok (mn, mx, mean, sd)
       /\ at_least_one mn /\ at_least_one mx
       /\ forall qs, lacunarity_spectrum self' = map Finite qs ->
            exists qmn qmx,
              mn = Finite qmn /\ mx = Finite qmx /\ 1 <= qmn /\ qmn <= qmx.
Proof.
  intros H Hn.
  destruct (call_success_inv self a g self' g' H)
    as [Hne [[m [samples [Hm Hs]]] Hnan]].
  assert (Hm' : match max_box_size self with
                | Some m' => m' = m
                | None => default_max_box_size (shape a) = Ok m
                end).
  { unfold effective_max_box_size in Hm.
    destruct (max_box_size self); [congruence|exact Hm]. }
  destruct (call_inv self a g (Ok tt) self' g' m samples H Hne Hm' Hs)
    as [r2 [self2 [Hsw [Esc [EN [EL [_ Hok]]]]]]].
  specialize (Hok eq_refl). subst r2.
  pose proof (sweep_spec _ _ _ _ _ _ _ Hsw)
    as [Esc2 [_ [done [HN [HL [_ [Hlen Hdone]]]]]]].
  specialize (Hlen eq_refl). cbn in HN, HL, Esc2.
  assert (Hlenq : length (lacunarity_spectrum self') = length (scales self')).
  { rewrite Esc, Esc2, <- Hlen, EL, HL. now rewrite length_map. }
  assert (Hrange : Forall at_least_one (lacunarity_spectrum self')).
  { apply Forall_forall. intros v Hv.
    destruct (In_nth _ _ NaN Hv) as [i [Hi Ei]].
    assert (Hi' : (i < length done)%nat).
    { rewrite <- (length_map snd), <- HL, <- EL. exact Hi. }
    destruct (Hdone i Hi') as [gi Hgi].
    destruct (nth i done (0%Z, NaN)) as [N lac] eqn:En.
    apply sliding_window_lacunarity_range in Hgi.
    assert (El : lac = v).
    { replace lac with (snd (nth i done (0%Z, NaN))) by now rewrite En.
      rewrite <- (map_nth snd). rewrite <- HL, <- EL. exact Ei. }
    subst lac. destruct v; cbn [at_least_one]; try exact Hgi; try exact I.
    apply Hnan. exact Hv. }
  assert (Hnonempty : lacunarity_spectrum self' <> []).
  { intros E. rewrite E in Hlenq. cbn [length] in Hlenq.
    rewrite Esc, Esc2 in Hlenq. cbn in Hlenq.
    assert (Hin : exists z, In z samples).
    { unfold floor_logspace in Hs.
      destruct (Z.ltb_spec (n_samples self) 0); [lia|].
      destruct (Z.eqb_spec (n_samples self) 1); injection Hs as <-.
      - eexists. now left.
      - eexists. apply in_map_iff. exists O. split; [reflexivity|].
        apply in_seq. lia. }
    destruct Hin as [z Hz]. apply np_unique_Z_In in Hz.
    destruct (np_unique_Z samples); [destruct Hz|discriminate Hlenq]. }
  split; [exact Hlenq|]. split; [exact Hnonempty|]. split; [exact Hrange|].
  unfold lacunarity_statistics.
  destruct (lacunarity_spectrum self') as [|x r] eqn:Esp; [contradiction|].
  cbn [np_min_f np_max_f bind].
  eexists. eexists. eexists. eexists. split; [reflexivity|].
  inversion Hrange as [|? ? Hx Hr]; subst.
  split; [apply fold_at_least_one; auto using fmin_at_least_one|].
  split; [apply fold_at_least_one; auto using fmax_at_least_one|].
  intros qs Eqs. destruct qs as [|q qs]; [discriminate Eqs|].
  assert (Esp' : lacunarity_spectrum self' = map Finite (q :: qs))
    by (rewrite Esp; exact Eqs).
  destruct (lacunarity_statistics_finite self' q qs Esp')
    as [mn [mx [mean [sd [Est [[q1 [H1 E1]] [_ [Hall [Hmean _]]]]]]]]].
  unfold lacunarity_statistics in Est. rewrite Esp in Est.
  cbn [np_min_f np_max_f bind] in Est. injection Est as Emn Emx _ _.
  exists mn, mx. split; [exact Emn|]. split; [exact Emx|].
  assert (Hq1 : 1 <= q1).
  { rewrite Eqs in Hrange. rewrite Forall_forall in Hrange.
    apply (Hrange (Finite q1)). now apply in_map. }
  split; [now rewrite <- E1|].
  destruct Hmean as [Hlo Hhi]. exact (Qle_trans _ _ _ Hlo Hhi).
Qed.

End Statistics.

(** ** The sequential mode *)

Section SequentialMode.

Context {np : Numpy}.

Lemma sliding_window_statistics_sequential_raises (self : FracND) a s d g :
  multiprocess self = false ->
  subsample self = None -> well_formed a = true ->
  (0 < s)%Z -> (0 < d)%Z ->
  Forall (fun n => (s <= Z.of_nat n)%Z) (shape a) ->
  fst (sliding_window_statistics self a s d g) = Raise AttributeError.
Proof.
  intros Hmp Hsub Hwf Hs Hd Hfit.
  pose proof (floor_counts_range _ _ _ Hs Hd Hfit) as HW.
  apply Zprod_between in HW.
  unfold sliding_window_statistics.
  rewrite !axis_counts_ok by lia.
  rewrite !quot_counts_floor by auto.
  unfold np_ndindex.
  replace (forallb _ (map Z.of_nat (floor_counts (shape a) s d))) with true.
  2:{ symmetry. apply forallb_forall. intros c Hc.
      apply in_map_iff in Hc. destruct Hc as [n [<- _]].
      apply Z.leb_le. lia. }
  rewrite map_map.
  rewrite (map_ext (fun x => Z.to_nat (Z.of_nat x)) (fun x => x))
    by (intros; apply Nat2Z.id).
  rewrite map_id.
  rewrite scan_windows_all by exact Hsub.
  fold (window_results a s d).
  pose proof (window_results_length a s d) as Hlen.
  rewrite Zprod_of_nat, <- Hlen in HW.
  cbn [fst bind].
  destruct (window_results a s d) as [|r0 rs]; [cbn [length] in HW; lia|].
  now rewrite Hmp.
Qed.

Lemma sweep_sequential (self : FracND) a todo g :
  multiprocess self = false -> todo <> [] ->
  fst (fst (sweep self a todo g)) <> Ok tt.
Proof.
  intros Hmp Hne. destruct todo as [|sc rest]; [contradiction|].
  cbn [sweep].
  pose proof (sliding_window_statistics_sequential self a sc
                (match stride self with None => sc | Some s => s end) g) as H.
  destruct (sliding_window_statistics self a sc _ g) as [[[N lac]|e] g'].
  - exfalso. exact (H (N, lac) Hmp eq_refl).
  - discriminate.
Qed.

(** Property X25.  With [multiprocess=False] no scan returns a result, whatever
    the array, the window and the other parameters; without subsampling and
    with a window that fits the exception is the [AttributeError] of line
    95, raised after every window was evaluated.  A call with at least one
    sample therefore never completes. *)
Theorem sequential_mode_never_returns (self : FracND) (a : ndarray Q)
    (s d : Z) (g : rng_state) :
  multiprocess self = false ->
  (forall r, fst (sliding_window_statistics self a s d g) <> Ok r)
  /\ (subsample self = None -> well_formed a = true ->
      (0 < s)%Z -> (0 < d)%Z ->
      Forall (fun n => (s <= Z.of_nat n)%Z) (shape a) ->
      fst (sliding_window_statistics self a s d g) = Raise AttributeError)
  /\ ((1 <= n_samples self)%Z -> fst (fst (call self a g)) <> Ok tt).
Proof.
  intros Hmp. split; [|split].
  - intros r. now apply sliding_window_statistics_sequential.
  - now apply sliding_window_statistics_sequential_raises.
  - intros Hn. unfold call.
    destruct (forallb _ (ravel a)); [discriminate|].
    destruct (match max_box_size self with
              | None => default_max_box_size (shape a)
              | Some m => Ok m
              end) as [m|e]; [|discriminate].
    unfold scale_sequence.
    change (min_box_size (set_max_box_size self m)) with (min_box_size self).
    change (n_samples (set_max_box_size self m)) with (n_samples self).
    destruct (floor_logspace m (min_box_size self) (n_samples self))
      as [samples|e] eqn:Es; [|discriminate].
    cbn [bind].
    set (self1 := set_series (set_scales (set_max_box_size self m)
                                (np_unique_Z samples)) [] []).
    assert (Hne : scales self1 <> []).
    { cbn [scales self1 set_series set_scales].
      destruct (floor_logspace_sweep _ _ _ _ Es) as [Hlen _].
      destruct samples as [|z samples]; [cbn [length] in Hlen; lia|].
      intros E. assert (Hz : In z (np_unique_Z (z :: samples)))
        by (apply np_unique_Z_In; now left).
      rewrite E in Hz. destruct Hz. }
    pose proof (sweep_sequential self1 a (scales self1) g Hmp Hne) as Hsw.
    destruct (sweep self1 a (scales self1) g) as [[[u|e] self2] g2].
    + exfalso. apply Hsw. now destruct u.
    + discriminate.
Qed.

End SequentialMode.

(** ** The analysis functions *)

Lemma unpack3_length (d : nat) (sh : list nat) (t : list (tensor Q d)) :
  (length t = 3%nat ->
   exists x y z, t = [x; y; z]
     /\ unpack3 (mk_ndarray (S d) sh t) = Returned (mk_ndarray d (tl sh) x))
  /\ (length t <> 3%nat ->
      unpack3 (mk_ndarray (S d) sh t) = Failed (Raised ValueError)).
Proof.
  split; intros H.
  - destruct t as [|x [|y [|z [|w t]]]]; try discriminate H.
    exists x, y, z. split; reflexivity.
  - destruct t as [|x [|y [|z [|w t]]]]; try reflexivity.
    now contradiction H.
Qed.

(** The first axis of a cropped segmentation is as long as the box is
    thick. *)
Lemma cropped_first_axis (seg c : ndarray Q) (lo hi : list nat) :
  well_formed seg = true -> ndim seg = 3%nat ->
  crop_segmentation seg = Ok (c, lo, hi) ->
  exists (sh : list nat) (t : list (tensor Q 2)),
    c = mk_ndarray 3 sh t
    /\ length t = (nth 0 hi O - nth 0 lo O)%nat
    /\ nth 0 sh O = (nth 0 hi O - nth 0 lo O)%nat.
Proof.
  intros Hwf Hd Hcrop.
  assert (Hnz : exists x, In x (ravel seg) /\ ~ x == 0)
    by (apply (crop_success_nonzero seg _ ltac:(lia) Hcrop)).
  destruct (well_formed_inv seg Hwf) as [Hrank [Hsh _]].
  destruct (crop_segmentation_box seg Hwf Hd Hnz)
    as [bs [Hlen [Hok [Ecrop _]]]].
  rewrite Ecrop in Hcrop. injection Hcrop as <- <- <-.
  destruct seg as [d sh t]. cbn [ndim shape items] in *. subst d.
  pose proof (has_shape_tslice 3 bs sh t Hsh Hok) as Hcsh.
  pose proof (slice_shape_box bs sh Hok) as Hss.
  unfold getitem_slices. cbn [ndim shape items]. rewrite Hss.
  destruct bs as [|[l0 h0] bs]; [discriminate Hlen|].
  eexists. eexists. split; [reflexivity|].
  cbn [map fst snd nth] in *.
  apply has_shape_cons in Hcsh. destruct Hcsh as [Hl _].
  split; [exact Hl|reflexivity].
Qed.

Section AnalyzerProperties.

Context {np : Numpy} {sq : Sqrt}.

(** Property X21.  [analyze_intensity_lacunarity] unpacks the cropped segmentation
    along its first axis.  It can only return when the bounding box of the
    segmentation is exactly three slices thick along the first axis. *)
Theorem intensity_analysis_needs_three_slices (FRACND_AVAILABLE : bool)
    (image_data seg_data : ndarray Q) (minima maxima : list nat)
    (modality : String.string) (config : option FractalConfig)
    (g : rng_state) (results : analysis_results) :
  well_formed seg_data = true -> ndim seg_data = 3%nat ->
  fst (analyze_intensity_lacunarity FRACND_AVAILABLE image_data seg_data
         minima maxima modality config g) = Returned results ->
  exists c lo hi,
    crop_segmentation seg_data = Ok (c, lo, hi)
    /\ (nth 0 hi O - nth 0 lo O = 3)%nat
    /\ nth 0 (shape c) O = 3%nat.
Proof.
  intros Hwf Hd H. unfold analyze_intensity_lacunarity in H.
  destruct (validate_fracnd FRACND_AVAILABLE); [|discriminate H].
  destruct (bind (first_volume image_data) _) as [ci|e]; [|discriminate H].
  destruct (crop_segmentation seg_data) as [[[c lo] hi]|e] eqn:Ec;
    [|discriminate H].
  exists c, lo, hi. split; [reflexivity|].
  destruct (cropped_first_axis seg_data c lo hi Hwf Hd Ec)
    as [sh [t [-> [Hlen Hsh]]]].
  destruct (Nat.eq_dec (length t) 3) as [E|E].
  - cbn [shape]. rewrite Hsh, <- Hlen. now split.
  - exfalso. destruct (unpack3_length 2 sh t) as [_ Hbad].
    rewrite (Hbad E) in H. discriminate H.
Qed.

(** Property X22.  When the bounding box of the segmentation is not exactly three
    slices thick along the first axis, [analyze_intensity_lacunarity] raises
    [ValueError] at the unpacking of the cropped segmentation, before the
    image is masked and before any estimator is built: the generator state
    is untouched. *)
Theorem intensity_analysis_fails_to_unpack (image_data seg_data : ndarray Q)
    (minima maxima : list nat) (modality : String.string)
    (config : option FractalConfig) (g : rng_state)
    (c cropped_image : ndarray Q) (lo hi : list nat) :
  well_formed seg_data = true -> ndim seg_data = 3%nat ->
  (image_data <- first_volume image_data ;;
   crop_image image_data minima maxima) = Ok cropped_image ->
  crop_segmentation seg_data = Ok (c, lo, hi) ->
  (nth 0 hi O - nth 0 lo O <> 3)%nat ->
  analyze_intensity_lacunarity true image_data seg_data minima maxima
    modality config g
  = (Failed (Raised ValueError), g).
Proof.
  intros Hwf Hd Himg Hcrop Hthick. unfold analyze_intensity_lacunarity.
  cbn [validate_fracnd]. rewrite Himg, Hcrop.
  destruct (cropped_first_axis seg_data c lo hi Hwf Hd Hcrop)
    as [sh [t [-> [Hlen _]]]].
  destruct (unpack3_length 2 sh t) as [_ Hbad].
  rewrite Hbad by (rewrite Hlen; exact Hthick). reflexivity.
Qed.

(** Property X23.  The cropped segmentation that [load_and_prepare_segmentation]
    returns is never rejected as empty by
    [analyze_segmentation_fractal_dimension]. *)
Theorem prepared_segmentation_is_not_empty (seg_data c : ndarray Q)
    (lo hi : list nat) (config : option FractalConfig) (g : rng_state) :
  well_formed seg_data = true -> ndim seg_data = 3%nat ->
  load_and_prepare_segmentation seg_data = Ok (c, lo, hi) ->
  fst (analyze_segmentation_fractal_dimension true c config g)
  <> Failed (Raised EmptyInputError).
Proof.
  intros Hwf Hd H. unfold load_and_prepare_segmentation in H.
  assert (Ev : first_volume seg_data = Ok seg_data).
  { destruct seg_data as [d sh t]. cbn [ndim] in Hd. subst d. reflexivity. }
  rewrite Ev in H. cbn [bind] in H.
  assert (Hnz : exists x, In x (ravel seg_data) /\ ~ x == 0)
    by (apply (crop_success_nonzero seg_data _ ltac:(lia) H)).
  destruct (crop_segmentation_box seg_data Hwf Hd Hnz)
    as [bs [Hlen [Hok [Ecrop [Hin Hext]]]]].
  rewrite Ecrop in H. injection H as <- <- <-.
  assert (Hc : exists x, In x (ravel (getitem_slices seg_data (box_slices bs)))
                         /\ ~ x == 0).
  { destruct (Hext O ltac:(lia)) as [[idx [v [Hv [Hv0 _]]]] _].
    exists v. split; [|exact Hv0].
    destruct (well_formed_inv seg_data Hwf) as [_ [Hsh _]].
    destruct (unshift bs idx (Hin idx v Hv Hv0)) as [idx' [Hb [Hs _]]].
    { rewrite (tget_length _ idx _ v Hv). now rewrite Hlen, Hd. }
    unfold ravel, getitem_slices. cbn [ndim items].
    apply tget_flatten. exists idx'.
    rewrite (tget_tslice _ bs (shape seg_data)) by assumption. now rewrite Hs. }
  unfold analyze_segmentation_fractal_dimension. cbn [validate_fracnd].
  unfold run_estimator.
  set (fc := init None 1 _ _ _ true None None).
  pose proof (call_passes_check fc _ g Hc) as Hp.
  destruct (call fc (getitem_slices seg_data (box_slices bs)) g)
    as [[[u|e] fc'] g'].
  - unfold lacunarity_statistics.
    destruct (lacunarity_spectrum fc'); cbn; discriminate.
  - cbn in Hp |- *. intros E. injection E as ->. now apply Hp.
Qed.

End AnalyzerProperties.

(** ** The code at concrete inputs *)

#[local] Existing Instance example_numpy.

Lemma row_8_not_empty : ~ Forall (fun x => x == 0) (ravel row_8).
Proof. intros H. inversion H as [|? ? H1 _]. discriminate H1. Qed.



(** Claim C8, counterexample to the sum reproducing the quantised field:
    for the row [0, 1, 2] and 2 levels the quantised field is [0, 1, 2] and
    the sum of the binary array over its last axis is [1, 1, 1]. *)
Lemma binary_layers_sum_to_one :
  exists b q s,
    greyscale_to_binary ramp_3 2 = Ok b
    /\ quantised ramp_3 2 = Ok q
    /\ sum_last_axis b = Ok s
    /\ ravel q = [0; 1; 2]%Z
    /\ ravel s = [1; 1; 1]%Z
    /\ ravel b = [1; 0; 0; 0; 1; 0; 0; 0; 1]%Z
    /\ s <> q.
Proof.
  eexists. eexists. eexists.
  split; [vm_compute; reflexivity|].
  split; [vm_compute; reflexivity|].
  split; [vm_compute; reflexivity|].
  split; [reflexivity|]. split; [reflexivity|]. split; [reflexivity|].
  intros E. apply (f_equal ravel) in E. discriminate E.
Qed.

(** Claim C4.  [linear_fit] aligns the scales with the retained values by
    cutting the scale list at its end, while the values it discards, being
    the smallest, are at the front.  For scales [2, 4, 8] and values
    [0, 5, 10] the fitted pairs are (2, 5) and (4, 10), although 5 was
    produced at scale 4 and 10 at scale 8.  When no value is discarded the
    pairing is the intended one, as for scales [8, 8, 4, 2] and counts
    [5, 5, 10, 40]. *)
Lemma fit_series_misaligned :
  fit_series [2; 4; 8] [0; 5; 10] = Ok ([2; 4], [5; 10])
  /\ fit_series [8; 8; 4; 2] [5; 5; 10; 40] = Ok ([8; 4; 2], [5; 10; 40]).
Proof. split; vm_compute; reflexivity. Qed.

(** Claim C9.  The default [max_box_size] computed by the first call is
    stored in the estimator and used by the next call: after the analysis of
    a row of 8 elements the same estimator scans a row of 16 elements at the
    scales 2 to 8 only, while a fresh estimator with the same configuration
    scans it up to scale 16, and the two count series differ. *)
Lemma second_call_keeps_first_max_box_size :
  exists s1 s2 s3,
    call disjoint_estimator row_8 tt = (Ok tt, s1, tt)
    /\ call s1 row_16 tt = (Ok tt, s2, tt)
    /\ call disjoint_estimator row_16 tt = (Ok tt, s3, tt)
    /\ max_box_size disjoint_estimator = None
    /\ max_box_size s1 = Some 3%Z
    /\ scales s2 = [2; 3; 4; 5; 6; 7; 8]%Z
    /\ Ns s2 = [5; 4; 4; 3; 2; 2; 2]%Z
    /\ scales s3 = [2; 3; 4; 5; 6; 7; 8; 9; 10; 11; 12; 14; 16]%Z
    /\ Ns s3 = [5; 4; 4; 3; 2; 2; 2; 1; 1; 1; 1; 1; 1]%Z
    /\ s2 <> s3.
Proof.
  eexists. eexists. eexists.
  split; [vm_compute; reflexivity|].
  split; [vm_compute; reflexivity|].
  split; [vm_compute; reflexivity|].
  split; [reflexivity|]. split; [reflexivity|]. split; [reflexivity|].
  split; [reflexivity|]. split; [reflexivity|]. split; [reflexivity|].
  intros E. apply (f_equal scales) in E. discriminate E.
Qed.

(** Claim C3.  With [multiprocess=False] the loop stores the tuples that
    [Worker] returns, and line 95 calls [get] on each of them: on a solid
    4 x 4 array, window size 2 and stride 1, the scan raises
    [AttributeError] after all 9 windows were evaluated, where the pool
    returns the box count 4, the 9 touched windows times 4 / 9. *)
Theorem sequential_scan_raises :
  multiprocess sequential_estimator = false
  /\ length (window_results solid_4x4 2 1) = 9%nat
  /\ fst (sliding_window_statistics sequential_estimator solid_4x4 2 1 tt)
     = Raise AttributeError
  /\ exists lac,
       fst (sliding_window_statistics default_estimator solid_4x4 2 1 tt)
       = Ok (4%Z, lac).
Proof.
  split; [reflexivity|]. split; [reflexivity|].
  split; [vm_compute; reflexivity|].
  eexists. vm_compute. reflexivity.
Qed.

(** Claim C6.  With [FracND(stride=None, multiprocess=False)] the solid
    4 x 4 array has no box count: the scans at scale 4 and at scale 1 raise
    [AttributeError], and so does the call; with the pool the counts are 1
    and 16. *)
Theorem solid_volume_sequential_raises :
  fst (sliding_window_statistics sequential_disjoint_estimator solid_4x4
         4 4 tt) = Raise AttributeError
  /\ fst (sliding_window_statistics sequential_disjoint_estimator solid_4x4
            1 1 tt) = Raise AttributeError
  /\ fst (fst (call sequential_disjoint_estimator solid_4x4 tt))
     = Raise AttributeError
  /\ exists lac4 lac1,
       fst (sliding_window_statistics disjoint_estimator solid_4x4 4 4 tt)
       = Ok (1%Z, lac4)
       /\ fst (sliding_window_statistics disjoint_estimator solid_4x4 1 1 tt)
          = Ok (16%Z, lac1).
Proof.
  split; [vm_compute; reflexivity|]. split; [vm_compute; reflexivity|].
  split; [vm_compute; reflexivity|].
  eexists. eexists. split; vm_compute; reflexivity.
Qed.

(** Claim C7.  With [FracND(multiprocess=False)] the array whose elements
    are all 3 gets no lacunarity: the scans at the window sizes 1 and 2
    raise [AttributeError]; with the pool both return the lacunarity 1. *)
Theorem homogeneous_field_sequential_raises :
  fst (sliding_window_statistics sequential_estimator threes_2x3 1 1 tt)
  = Raise AttributeError
  /\ fst (sliding_window_statistics sequential_estimator threes_2x3 2 1 tt)
     = Raise AttributeError
  /\ exists N1 lac1 N2 lac2,
       fst (sliding_window_statistics default_estimator threes_2x3 1 1 tt)
       = Ok (N1, lac1)
       /\ fst (sliding_window_statistics default_estimator threes_2x3 2 1 tt)
          = Ok (N2, lac2)
       /\ fvalue_eqb lac1 1 = true /\ fvalue_eqb lac2 1 = true.
Proof.
  split; [vm_compute; reflexivity|]. split; [vm_compute; reflexivity|].
  eexists. eexists. eexists. eexists.
  split; [vm_compute; reflexivity|]. split; [vm_compute; reflexivity|].
  split; vm_compute; reflexivity.
Qed.

(** ** The theorems at concrete inputs *)



Lemma solid_box_counts_witness :
  let self := disjoint_estimator in
  let a := solid_4x4 in
  let k := 2%nat in
  let g := tt in
  (multiprocess self = true /\ subsample self = None /\ well_formed a = true
   /\ shape a = repeat (2 ^ k)%nat (ndim a)
   /\ Forall (fun x => 0 < x) (ravel a))
  /\ (let top := (2 ^ Z.of_nat k)%Z in
      match fst (sliding_window_statistics self a top top g) with
      | Ok (N, _) => N = 1%Z
      | Raise _ =>
          histogram self = true
          /\ (bin_count self (normalised_masses a top top) < 1)%Z
      end
      /\ match fst (sliding_window_statistics self a 1 1 g) with
         | Ok (N, _) => N = (2 ^ (Z.of_nat k * Z.of_nat (ndim a)))%Z
         | Raise _ =>
             histogram self = true
             /\ (bin_count self (normalised_masses a 1 1) < 1)%Z
         end).
Proof.
  intros self a k g.
  assert (H0 : multiprocess self = true) by reflexivity.
  assert (H1 : subsample self = None) by reflexivity.
  assert (H2 : well_formed a = true) by (vm_compute; reflexivity).
  assert (H3 : shape a = repeat (2 ^ k)%nat (ndim a)) by reflexivity.
  assert (H4 : Forall (fun x => 0 < x) (ravel a))
    by (vm_compute; repeat constructor).
  exact (conj (conj H0 (conj H1 (conj H2 (conj H3 H4))))
              (solid_box_counts self a k g H0 H1 H2 H3 H4)).
Defined.

Lemma greyscale_to_binary_onehot_witness :
  let a := ramp_3 in
  let levels := 2%Z in
  (well_formed a = true /\ (0 <= levels)%Z
   /\ exists x y, In x (ravel a) /\ In y (ravel a) /\ ~ x == y)
  /\ exists b q,
       greyscale_to_binary a levels = Ok b
       /\ quantised a levels = Ok q
       /\ shape b = shape a ++ [Z.to_nat (Zlist_max 0 (ravel q) + 1)]
       /\ sum_last_axis b = Ok (array_map (fun _ => 1%Z) q)
       /\ argmax_last_axis b = Ok q.
Proof.
  intros a levels.
  assert (H1 : well_formed a = true) by (vm_compute; reflexivity).
  assert (H2 : (0 <= levels)%Z) by discriminate.
  assert (H3 : exists x y, In x (ravel a) /\ In y (ravel a) /\ ~ x == y).
  { exists 0, 1. split; [now left|]. split; [right; now left|].
    intros H. discriminate H. }
  exact (conj (conj H1 (conj H2 H3))
              (greyscale_to_binary_onehot a levels H1 H2 H3)).
Defined.

Lemma crop_segmentation_bounding_box_witness :
  let a := block_2x2x3 in
  (well_formed a = true /\ ndim a = 3%nat
   /\ exists x, In x (ravel a) /\ ~ x == 0)
  /\ exists c lo hi,
    crop_segmentation a = Ok (c, lo, hi)
    /\ length lo = 3%nat /\ length hi = 3%nat
    /\ (forall ax, (ax < 3)%nat ->
          (exists idx v, tget (ndim a) idx (items a) = Some v /\ ~ v == 0
                         /\ nth ax idx O = nth ax lo O)
          /\ (exists idx v, tget (ndim a) idx (items a) = Some v /\ ~ v == 0
                            /\ S (nth ax idx O) = nth ax hi O)
          /\ (forall idx v, tget (ndim a) idx (items a) = Some v -> ~ v == 0 ->
                (nth ax lo O <= nth ax idx O < nth ax hi O)%nat))
    /\ well_formed c = true
    /\ shape c = map (fun b => (snd b - fst b)%nat) (combine lo hi)
    /\ (forall idx, in_box (combine lo hi) idx ->
          tget (ndim c) idx (items c)
          = tget (ndim a) (shift (combine lo hi) idx) (items a))
    /\ (forall idx v, tget (ndim a) idx (items a) = Some v -> ~ v == 0 ->
          exists idx', in_box (combine lo hi) idx'
                       /\ shift (combine lo hi) idx' = idx
                       /\ tget (ndim c) idx' (items c) = Some v)
    /\ Qsum (ravel c) == Qsum (ravel a)
    /\ (forall ax, (ax < 3)%nat ->
          (exists idx v, tget (ndim c) idx (items c) = Some v /\ ~ v == 0
                         /\ nth ax idx O = O)
          /\ (exists idx v, tget (ndim c) idx (items c) = Some v /\ ~ v == 0
                            /\ S (nth ax idx O) = nth ax (shape c) O)).
Proof.
  intros a.
  assert (H1 : well_formed a = true) by (vm_compute; reflexivity).
  assert (H2 : ndim a = 3%nat) by reflexivity.
  assert (H3 : exists x, In x (ravel a) /\ ~ x == 0).
  { exists 5. split; [cbn; tauto|]. intros H. discriminate H. }
  exact (conj (conj H1 (conj H2 H3))
              (crop_segmentation_bounding_box a H1 H2 H3)).
Defined.

(** ** The further properties at concrete inputs *)

#[local] Existing Instance example_sqrt.

Lemma lacunarity_at_least_one_witness :
  exists N lac,
    fst (sliding_window_statistics default_estimator grid_2x3 1 1 tt)
    = Ok (N, lac)
    /\ match lac with
       | Finite q => 1 <= q
       | NegInf => False
       | PosInf | NaN => True
       end.
Proof.
  eexists. eexists.
  refine ((fun H => conj H
             (lacunarity_at_least_one default_estimator grid_2x3 1 1 tt _ _ H))
          _).
  vm_compute. reflexivity.
Defined.

Lemma box_count_at_most_disjoint_boxes_witness :
  let self := default_estimator in
  let a := grid_2x3 in
  let s := 1%Z in
  let d := 1%Z in
  exists N lac,
    (subsample self = None /\ well_formed a = true /\ (0 < s)%Z /\ (0 < d)%Z
     /\ Forall (fun n => (s <= Z.of_nat n)%Z) (shape a)
     /\ fst (sliding_window_statistics self a s d tt) = Ok (N, lac))
    /\ (0 <= N
        <= Zprod (map (fun n => ((Z.of_nat n - s) / s + 1)%Z) (shape a)))%Z.
Proof.
  intros self a s d.
  assert (H1 : subsample self = None) by reflexivity.
  assert (H2 : well_formed a = true) by (vm_compute; reflexivity).
  assert (H3 : (0 < s)%Z) by reflexivity.
  assert (H4 : (0 < d)%Z) by reflexivity.
  assert (H5 : Forall (fun n => (s <= Z.of_nat n)%Z) (shape a))
    by (repeat constructor; discriminate).
  eexists. eexists.
  refine ((fun H6 =>
             conj (conj H1 (conj H2 (conj H3 (conj H4 (conj H5 H6)))))
                  (box_count_at_most_disjoint_boxes self a s d tt _ _
                     H1 H2 H3 H4 H5 H6)) _).
  vm_compute. reflexivity.
Defined.

Lemma disjoint_box_count_witness :
  let self := disjoint_estimator in
  let a := row_8 in
  let s := 2%Z in
  exists N lac,
    (subsample self = None /\ well_formed a = true /\ (0 < s)%Z
     /\ Forall (fun n => (s <= Z.of_nat n)%Z) (shape a)
     /\ fst (sliding_window_statistics self a s s tt) = Ok (N, lac))
    /\ N = Zsum (map (fun i => fst (Worker (window_at a s s i)))
                     (ndindex (floor_counts (shape a) s s)))
    /\ N = Z.of_nat
             (length (filter (fun i => (fst (Worker (window_at a s s i)) =? 1)%Z)
                             (ndindex (floor_counts (shape a) s s)))).
Proof.
  intros self a s.
  assert (H1 : subsample self = None) by reflexivity.
  assert (H2 : well_formed a = true) by (vm_compute; reflexivity).
  assert (H3 : (0 < s)%Z) by reflexivity.
  assert (H4 : Forall (fun n => (s <= Z.of_nat n)%Z) (shape a))
    by (repeat constructor; discriminate).
  eexists. eexists.
  refine ((fun H5 =>
             conj (conj H1 (conj H2 (conj H3 (conj H4 H5))))
                  (disjoint_box_count self a s tt _ _ H1 H2 H3 H4 H5)) _).
  vm_compute. reflexivity.
Defined.

Lemma oversized_window_raises_witness :
  let self := default_estimator in
  let a := grid_2x3 in
  let s := 4%Z in
  let d := 1%Z in
  ((0 < s)%Z /\ (0 < d)%Z
   /\ exists n, In n (shape a) /\ (Z.of_nat n + d <= s)%Z)
  /\ fst (sliding_window_statistics self a s d tt) = Raise ValueError.
Proof.
  intros self a s d.
  assert (H1 : (0 < s)%Z) by reflexivity.
  assert (H2 : (0 < d)%Z) by reflexivity.
  assert (H3 : exists n, In n (shape a) /\ (Z.of_nat n + d <= s)%Z).
  { exists 2%nat. split; [now left|discriminate]. }
  exact (conj (conj H1 (conj H2 H3))
              (oversized_window_raises self a s d tt H1 H2 H3)).
Defined.

Lemma fit_series_pairs_witness :
  let scales := [2; 4; 8] in
  let vals := [0; 5; 10] in
  let S := [2; 4] in
  let V := [5; 10] in
  fit_series scales vals = Ok (S, V)
  /\ (let U := np_unique vals in
      let k := length (filter (fun v => Qle_bool v 0) U) in
      V = skipn k U
      /\ length S = length V
      /\ StronglySorted Qlt V
      /\ Forall (fun v => 0 < v) V
      /\ (forall v, In v V -> In v vals)
      /\ (forall x, In x vals -> 0 < x -> exists v, In v V /\ v == x)
      /\ forall i, (i < length S)%nat ->
           (exists j, (j < length vals)%nat /\ nth j vals 0 == nth i U 0
                      /\ nth j scales 0 == nth i S 0)
           /\ forall j, (j < length vals)%nat -> nth j vals 0 == nth i U 0 ->
                nth i S 0 <= nth j scales 0).
Proof.
  intros scales vals S V.
  assert (H : fit_series scales vals = Ok (S, V)) by (vm_compute; reflexivity).
  exact (conj H (fit_series_pairs scales vals S V H)).
Defined.

Lemma fit_series_positive_witness :
  let scales := [8; 8; 4; 2] in
  let vals := [5; 5; 10; 40] in
  (length scales = length vals /\ Forall (fun v => 0 < v) vals)
  /\ exists S,
       fit_series scales vals = Ok (S, np_unique vals)
       /\ length S = length (np_unique vals)
       /\ forall i, (i < length S)%nat ->
            (exists j, (j < length vals)%nat
                       /\ nth j vals 0 == nth i (np_unique vals) 0
                       /\ nth j scales 0 == nth i S 0)
            /\ forall j, (j < length vals)%nat ->
                 nth j vals 0 == nth i (np_unique vals) 0 ->
                 nth i S 0 <= nth j scales 0.
Proof.
  intros scales vals.
  assert (H1 : length scales = length vals) by reflexivity.
  assert (H2 : Forall (fun v => 0 < v) vals) by (repeat constructor).
  exact (conj (conj H1 H2) (fit_series_positive scales vals H1 H2)).
Defined.

Lemma call_keeps_parameters_witness :
  let self := disjoint_estimator in
  let a := row_8 in
  let out := call self a tt in
  let r := fst (fst out) in
  let self' := snd (fst out) in
  let g' := snd out in
  call self a tt = (r, self', g')
  /\ (same_parameters self' self
      /\ (forall m, max_box_size self = Some m -> max_box_size self' = Some m)
      /\ (max_box_size self = None ->
          max_box_size self' = None
          \/ exists m, default_max_box_size (shape a) = Ok m
                       /\ max_box_size self' = Some m)
      /\ (forall b h r2 self2 h2,
            call self' b h = (r2, self2, h2) ->
            max_box_size self' <> None ->
            max_box_size self2 = max_box_size self')).
Proof.
  intros self a out r self' g'.
  assert (Hp : forall x : Result unit * FracND * rng_state,
            x = (fst (fst x), snd (fst x), snd x))
    by (intros [[? ?] ?]; reflexivity).
  assert (H : call self a tt = (r, self', g')) by exact (Hp out).
  exact (conj H (call_keeps_parameters self a tt r self' g' H)).
Defined.

Lemma second_call_as_fresh_witness :
  let self := disjoint_estimator in
  let v1 := row_8 in
  let v2 := row_12 in
  let out := call self v1 tt in
  let r1 := fst (fst out) in
  let s1 := snd (fst out) in
  let g1 := snd out in
  (call self v1 tt = (r1, s1, g1)
   /\ (max_box_size self = None ->
       default_max_box_size (shape v1) = default_max_box_size (shape v2)))
  /\ (fst (fst (call s1 v2 g1)) = fst (fst (call self v2 g1))
      /\ snd (call s1 v2 g1) = snd (call self v2 g1)
      /\ (fst (fst (call s1 v2 g1)) = Ok tt ->
          snd (fst (call s1 v2 g1)) = snd (fst (call self v2 g1)))).
Proof.
  intros self v1 v2 out r1 s1 g1.
  assert (Hp : forall x : Result unit * FracND * rng_state,
            x = (fst (fst x), snd (fst x), snd x))
    by (intros [[? ?] ?]; reflexivity).
  assert (H1 : call self v1 tt = (r1, s1, g1)) by exact (Hp out).
  assert (H2 : max_box_size self = None ->
               default_max_box_size (shape v1) = default_max_box_size (shape v2))
    by (intros _; vm_compute; reflexivity).
  exact (conj (conj H1 H2) (second_call_as_fresh self v1 v2 tt r1 s1 g1 H1 H2)).
Defined.

Lemma call_repeatable_witness :
  let self := disjoint_estimator in
  let a := row_8 in
  let out := call self a tt in
  let r := fst (fst out) in
  let s1 := snd (fst out) in
  let g1 := snd out in
  (subsample self = None /\ call self a tt = (r, s1, g1))
  /\ (g1 = tt
      /\ fst (fst (call s1 a g1)) = r
      /\ snd (call s1 a g1) = g1
      /\ (r = Ok tt -> snd (fst (call s1 a g1)) = s1)).
Proof.
  intros self a out r s1 g1.
  assert (Hp : forall x : Result unit * FracND * rng_state,
            x = (fst (fst x), snd (fst x), snd x))
    by (intros [[? ?] ?]; reflexivity).
  assert (H1 : subsample self = None) by reflexivity.
  assert (H2 : call self a tt = (r, s1, g1)) by exact (Hp out).
  exact (conj (conj H1 H2) (call_repeatable self a tt r s1 g1 H1 H2)).
Defined.

Lemma scales_between_powers_witness :
  let self := disjoint_estimator in
  let a := row_8 in
  let out := call self a tt in
  let r := fst (fst out) in
  let self' := snd (fst out) in
  let g' := snd out in
  let m := 3%Z in
  (call self a tt = (r, self', g')
   /\ ~ Forall (fun x => x == 0) (ravel a)
   /\ effective_max_box_size self a = Ok m
   /\ (0 <= min_box_size self <= m)%Z /\ (1 <= n_samples self)%Z)
  /\ ((forall z, In z (scales self') ->
         (2 ^ min_box_size self <= z <= 2 ^ m)%Z)
      /\ In (2 ^ m)%Z (scales self')
      /\ ((2 <= n_samples self)%Z ->
          In (2 ^ min_box_size self)%Z (scales self'))
      /\ (max_box_size self = None ->
          forall z n, In z (scales self') -> In n (shape a) ->
            (z <= Z.of_nat n)%Z)).
Proof.
  intros self a out r self' g' m.
  assert (Hp : forall x : Result unit * FracND * rng_state,
            x = (fst (fst x), snd (fst x), snd x))
    by (intros [[? ?] ?]; reflexivity).
  assert (H1 : call self a tt = (r, self', g')) by exact (Hp out).
  assert (H2 : ~ Forall (fun x => x == 0) (ravel a)).
  { intros H. vm_compute in H. inversion H as [|? ? H0 _]. discriminate H0. }
  assert (H3 : effective_max_box_size self a = Ok m)
    by (vm_compute; reflexivity).
  assert (H4 : (0 <= min_box_size self <= m)%Z)
    by (split; discriminate).
  assert (H5 : (1 <= n_samples self)%Z) by discriminate.
  exact (conj (conj H1 (conj H2 (conj H3 (conj H4 H5))))
              (scales_between_powers self a tt r self' g' m H1 H2 H3 H4 H5)).
Defined.

Lemma greyscale_to_binary_layers_witness :
  let a := ramp_3 in
  let levels := 2%Z in
  (well_formed a = true /\ (0 <= levels)%Z
   /\ exists x y, In x (ravel a) /\ In y (ravel a) /\ ~ x == y)
  /\ exists b q,
       greyscale_to_binary a levels = Ok b
       /\ quantised a levels = Ok q
       /\ ndim b = S (ndim a)
       /\ shape b = shape a ++ [Z.to_nat (levels + 1)]
       /\ has_shape (ndim b) (shape b) (items b) = true
       /\ Forall (fun v => v = 0%Z \/ v = 1%Z) (ravel b)
       /\ Zsum (ravel b) = Z.of_nat (length (ravel a))
       /\ Forall (fun v => 0 <= v <= levels)%Z (ravel q)
       /\ In 0%Z (ravel q) /\ In levels (ravel q).
Proof.
  intros a levels.
  assert (H1 : well_formed a = true) by (vm_compute; reflexivity).
  assert (H2 : (0 <= levels)%Z) by discriminate.
  assert (H3 : exists x y, In x (ravel a) /\ In y (ravel a) /\ ~ x == y).
  { exists 0, 1. split; [now left|]. split; [right; now left|].
    intros H. discriminate H. }
  exact (conj (conj H1 (conj H2 H3)) (greyscale_to_binary_layers a levels H1 H2 H3)).
Defined.

Lemma binary_image_passes_empty_check_witness :
  let self := default_estimator in
  let a := ramp_3 in
  let levels := 2%Z in
  let b := mk_ndarray 2 [3%nat; 3%nat]
             [[1; 0; 0]; [0; 1; 0]; [0; 0; 1]]%Z in
  (well_formed a = true /\ (0 <= levels)%Z
   /\ (exists x y, In x (ravel a) /\ In y (ravel a) /\ ~ x == y)
   /\ greyscale_to_binary a levels = Ok b)
  /\ fst (fst (call self (array_map inject_Z b) tt)) <> Raise EmptyInputError.
Proof.
  intros self a levels b.
  assert (H1 : well_formed a = true) by (vm_compute; reflexivity).
  assert (H2 : (0 <= levels)%Z) by discriminate.
  assert (H3 : exists x y, In x (ravel a) /\ In y (ravel a) /\ ~ x == y).
  { exists 0, 1. split; [now left|]. split; [right; now left|].
    intros H. discriminate H. }
  assert (H4 : greyscale_to_binary a levels = Ok b) by (vm_compute; reflexivity).
  exact (conj (conj H1 (conj H2 (conj H3 H4)))
              (binary_image_passes_empty_check self a levels b tt H1 H2 H3 H4)).
Defined.

Lemma crop_segmentation_outcome_witness :
  let a := block_2x2x3 in
  (1 <= ndim a)%nat
  /\ ((Forall (fun x => x == 0) (ravel a) ->
       crop_segmentation a = Raise ValueError)
      /\ (~ Forall (fun x => x == 0) (ravel a) -> (ndim a < 3)%nat ->
          crop_segmentation a = Raise IndexError)
      /\ (~ Forall (fun x => x == 0) (ravel a) -> (3 <= ndim a)%nat ->
          exists c lo hi,
            crop_segmentation a = Ok (c, lo, hi)
            /\ length lo = ndim a /\ length hi = ndim a)).
Proof.
  intros a.
  assert (H : (1 <= ndim a)%nat) by (cbn; lia).
  exact (conj H (crop_segmentation_outcome a H)).
Defined.

Lemma crop_segmentation_idempotent_witness :
  let a := block_2x2x3 in
  let c := mk_ndarray 3 [2%nat; 1%nat; 2%nat] [[[5; 0]]; [[7; 2]]] in
  let lo := [0; 1; 1]%nat in
  let hi := [2; 2; 3]%nat in
  (well_formed a = true /\ ndim a = 3%nat
   /\ crop_segmentation a = Ok (c, lo, hi))
  /\ crop_segmentation c = Ok (c, [O; O; O], shape c).
Proof.
  intros a c lo hi.
  assert (H1 : well_formed a = true) by (vm_compute; reflexivity).
  assert (H2 : ndim a = 3%nat) by reflexivity.
  assert (H3 : crop_segmentation a = Ok (c, lo, hi)) by (vm_compute; reflexivity).
  exact (conj (conj H1 (conj H2 H3))
              (crop_segmentation_idempotent a c lo hi H1 H2 H3)).
Defined.

Lemma crop_image_aligned_witness :
  let seg := block_2x2x3 in
  let img := image_2x2x3 in
  let c := mk_ndarray 3 [2%nat; 1%nat; 2%nat] [[[5; 0]]; [[7; 2]]] in
  let lo := [0; 1; 1]%nat in
  let hi := [2; 2; 3]%nat in
  (well_formed seg = true /\ ndim seg = 3%nat
   /\ well_formed img = true /\ ndim img = 3%nat /\ shape img = shape seg
   /\ crop_segmentation seg = Ok (c, lo, hi))
  /\ exists ci,
       crop_image img lo hi = Ok ci
       /\ well_formed ci = true
       /\ shape ci = shape c
       /\ forall idx, in_box (combine lo hi) idx ->
            tget (ndim ci) idx (items ci)
            = tget (ndim img) (shift (combine lo hi) idx) (items img)
            /\ tget (ndim c) idx (items c)
               = tget (ndim seg) (shift (combine lo hi) idx) (items seg).
Proof.
  intros seg img c lo hi.
  assert (H1 : well_formed seg = true) by (vm_compute; reflexivity).
  assert (H2 : ndim seg = 3%nat) by reflexivity.
  assert (H3 : well_formed img = true) by (vm_compute; reflexivity).
  assert (H4 : ndim img = 3%nat) by reflexivity.
  assert (H5 : shape img = shape seg) by reflexivity.
  assert (H6 : crop_segmentation seg = Ok (c, lo, hi)) by (vm_compute; reflexivity).
  exact (conj (conj H1 (conj H2 (conj H3 (conj H4 (conj H5 H6)))))
              (crop_image_aligned seg img c lo hi H1 H2 H3 H4 H5 H6)).
Defined.

Lemma cropped_segmentation_passes_empty_check_witness :
  let self := default_estimator in
  let a := block_2x2x3 in
  let c := mk_ndarray 3 [2%nat; 1%nat; 2%nat] [[[5; 0]]; [[7; 2]]] in
  let lo := [0; 1; 1]%nat in
  let hi := [2; 2; 3]%nat in
  (well_formed a = true /\ ndim a = 3%nat
   /\ crop_segmentation a = Ok (c, lo, hi))
  /\ ((exists x, In x (ravel c) /\ ~ x == 0)
      /\ fst (fst (call self c tt)) <> Raise EmptyInputError).
Proof.
  intros self a c lo hi.
  assert (H1 : well_formed a = true) by (vm_compute; reflexivity).
  assert (H2 : ndim a = 3%nat) by reflexivity.
  assert (H3 : crop_segmentation a = Ok (c, lo, hi)) by (vm_compute; reflexivity).
  exact (conj (conj H1 (conj H2 H3))
              (cropped_segmentation_passes_empty_check self a c lo hi tt
                 H1 H2 H3)).
Defined.

Lemma lacunarity_statistics_bounds_witness :
  let self := set_series default_estimator [3; 2]%Z [Finite 2; Finite 1] in
  let qs := [2; 1] in
  lacunarity_spectrum self = map Finite qs
  /\ exists mn mx mean sd,
       lacunarity_statistics self = Ok (Finite mn, Finite mx, Finite mean, sd)
       /\ (exists q, In q qs /\ q == mn) /\ (exists q, In q qs /\ q == mx)
       /\ (forall q, In q qs -> mn <= q <= mx)
       /\ mn <= mean <= mx
       /\ mean == Qsum qs / inject_Z (Z.of_nat (length qs)).
Proof.
  intros self qs.
  assert (H : lacunarity_spectrum self = map Finite qs) by reflexivity.
  exact (conj H (lacunarity_statistics_bounds self qs H)).
Defined.

Lemma statistics_after_call_witness :
  let self := disjoint_estimator in
  let a := row_8 in
  let self' := snd (fst (call self a tt)) in
  (call self a tt = (Ok tt, self', tt) /\ (1 <= n_samples self)%Z)
  /\ (length (lacunarity_spectrum self') = length (scales self')
      /\ lacunarity_spectrum self' <> []
      /\ Forall at_least_one (lacunarity_spectrum self')
      /\ exists mn mx mean sd,
           lacunarity_statistics self' = Ok (mn, mx, mean, sd)
           /\ at_least_one mn /\ at_least_one mx
           /\ forall qs, lacunarity_spectrum self' = map Finite qs ->
                exists qmn qmx,
                  mn = Finite qmn /\ mx = Finite qmx
                  /\ 1 <= qmn /\ qmn <= qmx).
Proof.
  intros self a self'.
  assert (H1 : call self a tt = (Ok tt, self', tt)) by (vm_compute; reflexivity).
  assert (H2 : (1 <= n_samples self)%Z) by discriminate.
  exact (conj (conj H1 H2) (statistics_after_call self a tt self' tt H1 H2)).
Defined.

Lemma intensity_analysis_needs_three_slices_witness :
  let image_data := image_3x2x2 in
  let seg_data := seg_3x2x2 in
  let minima := [0; 0; 0]%nat in
  let maxima := [3; 2; 2]%nat in
  let modality := String.EmptyString in
  let config := Some small_config in
  exists results,
    (well_formed seg_data = true /\ ndim seg_data = 3%nat
     /\ fst (analyze_intensity_lacunarity true image_data seg_data
               minima maxima modality config tt) = Returned results)
    /\ exists c lo hi,
         crop_segmentation seg_data = Ok (c, lo, hi)
         /\ (nth 0 hi O - nth 0 lo O = 3)%nat
         /\ nth 0 (shape c) O = 3%nat.
Proof.
  intros image_data seg_data minima maxima modality config.
  assert (H1 : well_formed seg_data = true) by (vm_compute; reflexivity).
  assert (H2 : ndim seg_data = 3%nat) by reflexivity.
  eexists.
  refine ((fun H3 =>
             conj (conj H1 (conj H2 H3))
                  (intensity_analysis_needs_three_slices true image_data
                     seg_data minima maxima modality config tt _ H1 H2 H3))
          _).
  vm_compute. reflexivity.
Defined.

Lemma intensity_analysis_fails_to_unpack_witness :
  let image_data := image_2x2x3 in
  let seg_data := block_2x2x3 in
  let minima := [0; 1; 1]%nat in
  let maxima := [2; 2; 3]%nat in
  let modality := String.EmptyString in
  let config := Some small_config in
  let c := mk_ndarray 3 [2%nat; 1%nat; 2%nat] [[[5; 0]]; [[7; 2]]] in
  let cropped_image :=
    mk_ndarray 3 [2%nat; 1%nat; 2%nat] [[[3; 5]]; [[5; 3]]] in
  (well_formed seg_data = true /\ ndim seg_data = 3%nat
   /\ (image_data <- first_volume image_data ;;
       crop_image image_data minima maxima) = Ok cropped_image
   /\ crop_segmentation seg_data = Ok (c, minima, maxima)
   /\ (nth 0 maxima O - nth 0 minima O <> 3)%nat)
  /\ analyze_intensity_lacunarity true image_data seg_data minima maxima
       modality config tt
     = (Failed (Raised ValueError), tt).
Proof.
  intros image_data seg_data minima maxima modality config c cropped_image.
  assert (H1 : well_formed seg_data = true) by (vm_compute; reflexivity).
  assert (H2 : ndim seg_data = 3%nat) by reflexivity.
  assert (H3 : (image_data <- first_volume image_data ;;
                crop_image image_data minima maxima) = Ok cropped_image)
    by (vm_compute; reflexivity).
  assert (H4 : crop_segmentation seg_data = Ok (c, minima, maxima))
    by (vm_compute; reflexivity).
  assert (H5 : (nth 0 maxima O - nth 0 minima O <> 3)%nat) by discriminate.
  exact (conj (conj H1 (conj H2 (conj H3 (conj H4 H5))))
              (intensity_analysis_fails_to_unpack image_data seg_data minima
                 maxima modality config tt c cropped_image minima maxima
                 H1 H2 H3 H4 H5)).
Defined.

Lemma prepared_segmentation_is_not_empty_witness :
  let seg_data := seg_3x2x2 in
  let config := Some small_config in
  (well_formed seg_data = true /\ ndim seg_data = 3%nat
   /\ load_and_prepare_segmentation seg_data
      = Ok (seg_data, [0; 0; 0]%nat, [3; 2; 2]%nat))
  /\ fst (analyze_segmentation_fractal_dimension true seg_data config tt)
     <> Failed (Raised EmptyInputError).
Proof.
  intros seg_data config.
  assert (H1 : well_formed seg_data = true) by (vm_compute; reflexivity).
  assert (H2 : ndim seg_data = 3%nat) by reflexivity.
  assert (H3 : load_and_prepare_segmentation seg_data
               = Ok (seg_data, [0; 0; 0]%nat, [3; 2; 2]%nat))
    by (vm_compute; reflexivity).
  exact (conj (conj H1 (conj H2 H3))
              (prepared_segmentation_is_not_empty seg_data seg_data
                 [0; 0; 0]%nat [3; 2; 2]%nat config tt H1 H2 H3)).
Defined.

Lemma sequential_mode_never_returns_witness :
  let self := sequential_estimator in
  let a := solid_4x4 in
  let s := 2%Z in
  let d := 1%Z in
  multiprocess self = false
  /\ ((forall r, fst (sliding_window_statistics self a s d tt) <> Ok r)
      /\ (subsample self = None -> well_formed a = true ->
          (0 < s)%Z -> (0 < d)%Z ->
          Forall (fun n => (s <= Z.of_nat n)%Z) (shape a) ->
          fst (sliding_window_statistics self a s d tt)
          = Raise AttributeError)
      /\ ((1 <= n_samples self)%Z -> fst (fst (call self a tt)) <> Ok tt)).
Proof.
  intros self a s d.
  assert (H : multiprocess self = false) by reflexivity.
  exact (conj H (sequential_mode_never_returns self a s d tt H)).
Defined.
